(** * awsutils: a shallow embedding of [awsutils.go]: the stack methods,
    the parameter loaders and the bucket transfer functions

    The development follows the second revision of [awsutils.go] (the one
    with [UploadBucket], [getFiles], [toKey] and [directoryIterator]).

    Go values are embedded as follows.
    - [string] is a byte string: Rocq's [string] (a list of [ascii]).
    - A Go [error] value is [option error]; [None] is [nil].
    - A Go map is a [gmap]; a [*string] map value is an [option string].
    - A run-time panic (nil dereference, slice bounds, index out of range)
      is an explicit outcome of the computation, never an error value.
    - The local file system is a tree of directories and files, the object
      store is an oracle for the three requests the code sends, and every
      call the code makes to either is put on a trace.
    - The CloudFormation client is an oracle for the requests of the stack
      methods, which are put on a trace of their own; the order in which a
      [range] loop goes through a map is a parameter of the run.
    - The goroutines [DownloadBucket] starts run interleaved with its loop
      as a schedule says; the properties hold for every schedule.
    - A pointer to a field of the upload iterator is the name of the field;
      it is read in the iterator as it is at the time of reading.
    - The operating system is the Unix build: [os.PathSeparator] is ['/']. *)

From stdpp Require Import gmap strings list fin_maps sorting.
From Stdlib Require Import Ascii Bool Arith Lia.

(** ** Go strings *)

Module GoString.

(** [s[n:]]: [None] stands for the slice-bounds panic of [n > len(s)]. *)
Fixpoint slice_from (s : string) (n : nat) : option string :=
  match n, s with
  | O, _ => Some s
  | S _, EmptyString => None
  | S n', String _ s' => slice_from s' n'
  end.

(** [s[:n]]: [None] stands for the slice-bounds panic of [n > len(s)]. *)
Fixpoint slice_to (s : string) (n : nat) : option string :=
  match n, s with
  | O, _ => Some EmptyString
  | S _, EmptyString => None
  | S n', String c s' => String c <$> slice_to s' n'
  end.

(** [strings.Split(s, sep)] for a one-byte separator. *)
Fixpoint split (sep : ascii) (s : string) : list string :=
  match s with
  | EmptyString => [EmptyString]
  | String c s' =>
      if Ascii.eqb c sep then EmptyString :: split sep s'
      else match split sep s' with
           | [] => [String c EmptyString]
           | w :: ws => String c w :: ws
           end
  end.

(** [strings.LastIndex(s, sep)] for a one-byte separator; [None] is [-1]. *)
Fixpoint last_index (sep : ascii) (s : string) : option nat :=
  match s with
  | EmptyString => None
  | String c s' =>
      match last_index sep s' with
      | Some i => Some (S i)
      | None => if Ascii.eqb c sep then Some O else None
      end
  end.

(** [strings.Join(elems, sep)]. *)
Definition join (elems : list string) (sep : string) : string :=
  String.concat sep elems.

End GoString.

(** ** Errors

    The error values the modelled code creates, receives and prints. *)

Inductive Errno := ENOENT | EACCES | ENOTDIR | EISDIR | EEXIST.

Definition Errno_Error (e : Errno) : string :=
  match e with
  | ENOENT => "no such file or directory"
  | EACCES => "permission denied"
  | ENOTDIR => "not a directory"
  | EISDIR => "is a directory"
  | EEXIST => "file exists"
  end.

(** The codes of [regexp/syntax.ErrorCode] that the modelled fragment of the
    parser can report. *)
Inductive ErrorCode :=
| ErrMissingParen
| ErrUnexpectedParen
| ErrMissingRepeatArgument
| ErrInvalidRepeatOp
| ErrTrailingBackslash.

Definition ErrorCode_String (c : ErrorCode) : string :=
  match c with
  | ErrMissingParen => "missing closing )"
  | ErrUnexpectedParen => "unexpected )"
  | ErrMissingRepeatArgument => "missing argument to repetition operator"
  | ErrInvalidRepeatOp => "invalid nested repetition operator"
  | ErrTrailingBackslash => "trailing backslash at end of expression"
  end.

#[local] Set Warnings "-register-all".

Inductive error :=
| errorString (msg : string)                       (* [fmt.Errorf], [errors.New] *)
| PathError (op path : string) (errno : Errno)     (* [*os.PathError] *)
| syntaxError (code : ErrorCode) (expr : string)   (* [*syntax.Error] *)
| awsError (code message : string)                 (* [awserr.Error] *)
| batchError (code message : string)               (* [*s3manager.BatchError] *)
    (errs : list (error * string * string)).       (* cause, bucket, key *)

(** [err.Error()]. For a batch error this is its code and message, without
    the causes that are listed after them. *)
Definition Error (e : error) : string :=
  match e with
  | errorString msg => msg
  | PathError op path errno => op +:+ " " +:+ path +:+ ": " +:+ Errno_Error errno
  | syntaxError code expr =>
      "error parsing regexp: " +:+ ErrorCode_String code +:+ ": `" +:+ expr +:+ "`"
  | awsError code message => code +:+ ": " +:+ message
  | batchError code message _ => code +:+ ": " +:+ message
  end.

Definition messageClientNotDefined : string := "Aws Client not defined".

(** ** Stack parameters: [findMissingParametres] *)

Module Params.

(** The body of the [range] loop of [findMissingParametres], run over the
    entries in the order the iteration yields them. *)
Fixpoint missing_of (entries : list (string * option string))
    (parameters : gmap string string) : list string :=
  match entries with
  | [] => []
  | (key, defaultValue) :: rest =>
      match parameters !! key, defaultValue with
      | None, None => key :: missing_of rest parameters
      | _, _ => missing_of rest parameters
      end
  end.

(** [findMissingParametres] over a given iteration order of the map. *)
Definition findMissingParametres_in (entries : list (string * option string))
    (parameters : gmap string string) : option error :=
  let missing := missing_of entries parameters in
  if Nat.eqb (length missing) 0 then None
  else Some (errorString ("Missing: [" +:+ GoString.join missing "," +:+ "]")).

(** [findMissingParametres]: Go leaves the iteration order of a map
    unspecified; the order taken here is that of [map_to_list]. *)
Definition findMissingParametres (templateParam : gmap string (option string))
    (parameters : gmap string string) : option error :=
  findMissingParametres_in (map_to_list templateParam) parameters.

End Params.

(** ** Paths: [path.Clean], [path.Join] and [toKey] *)

Module Path.

Definition slash : ascii := "/"%char.

Definition is_rooted (p : string) : bool :=
  match p with
  | String c _ => Ascii.eqb c slash
  | EmptyString => false
  end.

(** The loop of [path.Clean], one path element at a time. [out] is the
    output buffer as a stack of elements, last element first; a [".."] on
    top of it means that nothing is left to back up over. *)
Fixpoint clean_elems (rooted : bool) (out : list string) (elems : list string)
    : list string :=
  match elems with
  | [] => out
  | e :: rest =>
      if String.eqb e "" then clean_elems rooted out rest
      else if String.eqb e "." then clean_elems rooted out rest
      else if String.eqb e ".." then
        match out with
        | top :: out' =>
            if String.eqb top ".." then clean_elems rooted (e :: out) rest
            else clean_elems rooted out' rest
        | [] =>
            if rooted then clean_elems rooted out rest
            else clean_elems rooted [e] rest
        end
      else clean_elems rooted (e :: out) rest
  end.

(** [path.Clean] ([filepath.Clean] is the same function on Unix). *)
Definition Clean (p : string) : string :=
  if String.eqb p "" then "."
  else
    let rooted := is_rooted p in
    let out := rev (clean_elems rooted [] (GoString.split slash p)) in
    if rooted then "/" +:+ GoString.join out "/"
    else if Nat.eqb (length out) 0 then "."
    else GoString.join out "/".

(** [path.Join]: empty leading elements are dropped, the rest is joined
    with slashes and cleaned; all elements empty gives the empty string. *)
Fixpoint Join (elem : list string) : string :=
  match elem with
  | [] => ""
  | e :: rest =>
      if String.eqb e "" then Join rest
      else Clean (GoString.join elem "/")
  end.

(** [filepath.ToSlash] where the separator is already a slash. *)
Definition ToSlash (p : string) : string := p.

(** [toKey]: [None] is the slice-bounds panic of
    [dir[len(baseDir+"/"):]] on a name shorter than the prefix. *)
Definition toKey (baseDir fileName : string) : option string :=
  let dir := ToSlash fileName in
  GoString.slice_from dir (String.length (baseDir +:+ "/")).

(** The local name [saveObject] writes a key to. *)
Definition toLocalPath (baseDir key : string) : string :=
  Join [baseDir; key].

End Path.

(** ** Regular expressions: the fragment of Go's [regexp] that is modelled

    [regexp.Match(pattern, b)] compiles [pattern] with [syntax.Perl] flags
    and reports whether [b] contains a match. The model covers patterns and
    subjects of ASCII bytes built from literals, escaped punctuation, [.],
    [^], [$], groups, [|] and the operators [*], [+], [?] with their lazy
    forms, of at most [max_pattern] bytes (below every size and nesting
    limit of the parser). Anything else is outside the model: the functions
    return [None] for it, and nothing is claimed. *)

Module Regexp.

(** [syntax.Regexp], by operator. *)
Inductive Regexp :=
| OpNoMatch
| OpEmptyMatch
| OpLiteral (c : ascii)
| OpAnyCharNotNL
| OpBeginText
| OpEndText
| OpCapture (sub : Regexp)
| OpStar (sub : Regexp)
| OpPlus (sub : Regexp)
| OpQuest (sub : Regexp)
| OpConcat (sub1 sub2 : Regexp)
| OpAlternate (sub1 sub2 : Regexp).

(** What parsing a pattern gives. *)
Inductive Parsed :=
| Compiled (re : Regexp)
| Rejected (err : error)
| Unmodelled.

Definition max_pattern : nat := 1000.

Definition is_ascii (c : ascii) : bool :=
  match c with Ascii _ _ _ _ _ _ _ b7 => negb b7 end.

Fixpoint all_ascii (s : string) : bool :=
  match s with
  | EmptyString => true
  | String c s' => is_ascii c && all_ascii s'
  end.

Definition is_alnum (c : ascii) : bool :=
  let n := nat_of_ascii c in
  (Nat.leb 48 n && Nat.leb n 57) || (Nat.leb 65 n && Nat.leb n 90)
  || (Nat.leb 97 n && Nat.leb n 122).

(** [p.concat()]: the items of one alternative, last item first. *)
Fixpoint concat_items (acc : Regexp) (items : list Regexp) : Regexp :=
  match items with
  | [] => acc
  | r :: items' => concat_items (OpConcat r acc) items'
  end.

Definition collapse_concat (items : list Regexp) : Regexp :=
  match items with
  | [] => OpEmptyMatch
  | r :: items' => concat_items r items'
  end.

(** [p.alternate()]: the alternatives of one group, last alternative first. *)
Fixpoint alternate_items (acc : Regexp) (alts : list Regexp) : Regexp :=
  match alts with
  | [] => acc
  | r :: alts' => alternate_items (OpAlternate r acc) alts'
  end.

Definition collapse_group (alts items : list Regexp) : Regexp :=
  alternate_items (collapse_concat items) alts.

(** The parser's stack, by open group: the alternatives already closed by a
    [|] and the items of the alternative being read. *)
Record frame := Frame { frame_alts : list Regexp; frame_items : list Regexp }.

Inductive RepeatOp := RepStar | RepPlus | RepQuest.

Definition apply_repeat (op : RepeatOp) (sub : Regexp) : Regexp :=
  match op with
  | RepStar => OpStar sub
  | RepPlus => OpPlus sub
  | RepQuest => OpQuest sub
  end.

Definition repeat_text (op : RepeatOp) (lazy : bool) : string :=
  (match op with RepStar => "*" | RepPlus => "+" | RepQuest => "?" end)
  +:+ (if lazy then "?" else "").

(** [p.repeat]: [lastRepeat] is the text of the operator just before this
    one, empty when the previous token was not a repetition. *)
Definition repeat (op : RepeatOp) (lazy : bool) (lastRepeat : string)
    (items : list Regexp) : error + list Regexp :=
  if negb (String.eqb lastRepeat "") then
    inl (syntaxError ErrInvalidRepeatOp (lastRepeat +:+ repeat_text op lazy))
  else
    match items with
    | [] => inl (syntaxError ErrMissingRepeatArgument (repeat_text op lazy))
    | sub :: items' => inr (apply_repeat op sub :: items')
    end.

Definition repeat_of (c : ascii) : option RepeatOp :=
  if Ascii.eqb c "*"%char then Some RepStar
  else if Ascii.eqb c "+"%char then Some RepPlus
  else if Ascii.eqb c "?"%char then Some RepQuest
  else None.

(** The loop of [syntax.Parse] over the rest [t] of the pattern. *)
Fixpoint parse_loop (whole : string) (stack : list frame)
    (alts items : list Regexp) (lastRepeat : string) (t : string) : Parsed :=
  match t with
  | EmptyString =>
      match stack with
      | [] => Compiled (collapse_group alts items)
      | _ :: _ => Rejected (syntaxError ErrMissingParen whole)
      end
  | String c t' =>
      match repeat_of c with
      | Some op =>
          let lazy := match t' with String "?"%char _ => true | _ => false end in
          match repeat op lazy lastRepeat items with
          | inl err => Rejected err
          | inr items' =>
              match t' with
              | String "?"%char t'' =>
                  parse_loop whole stack alts items' (repeat_text op true) t''
              | _ => parse_loop whole stack alts items' (repeat_text op false) t'
              end
          end
      | None =>
          if Ascii.eqb c "("%char then
            match t' with
            | String "?"%char _ => Unmodelled
            | _ => parse_loop whole (Frame alts items :: stack) [] [] "" t'
            end
          else if Ascii.eqb c "|"%char then
            parse_loop whole stack (collapse_concat items :: alts) [] "" t'
          else if Ascii.eqb c ")"%char then
            match stack with
            | [] => Rejected (syntaxError ErrUnexpectedParen whole)
            | Frame alts0 items0 :: stack' =>
                parse_loop whole stack' alts0
                  (OpCapture (collapse_group alts items) :: items0) "" t'
            end
          else if Ascii.eqb c "^"%char then
            parse_loop whole stack alts (OpBeginText :: items) "" t'
          else if Ascii.eqb c "$"%char then
            parse_loop whole stack alts (OpEndText :: items) "" t'
          else if Ascii.eqb c "."%char then
            parse_loop whole stack alts (OpAnyCharNotNL :: items) "" t'
          else if Ascii.eqb c "["%char then Unmodelled
          else if Ascii.eqb c "{"%char then Unmodelled
          else if Ascii.eqb c "\"%char then
            match t' with
            | EmptyString => Rejected (syntaxError ErrTrailingBackslash "")
            | String e t'' =>
                if is_alnum e then Unmodelled
                else parse_loop whole stack alts (OpLiteral e :: items) "" t''
            end
          else parse_loop whole stack alts (OpLiteral c :: items) "" t'
      end
  end.

(** [syntax.Parse(s, syntax.Perl)] on the modelled fragment. *)
Definition Parse (s : string) : Parsed :=
  if negb (all_ascii s) then Unmodelled
  else if negb (Nat.leb (String.length s) max_pattern) then Unmodelled
  else parse_loop s [] [] [] "" s.

(** Whether [re] matches the empty string at a position that is at the
    beginning of the text ([bot]) and at its end ([eot]). *)
Fixpoint nullable (bot eot : bool) (re : Regexp) : bool :=
  match re with
  | OpNoMatch => false
  | OpEmptyMatch => true
  | OpLiteral _ => false
  | OpAnyCharNotNL => false
  | OpBeginText => bot
  | OpEndText => eot
  | OpCapture sub => nullable bot eot sub
  | OpStar _ => true
  | OpPlus sub => nullable bot eot sub
  | OpQuest _ => true
  | OpConcat sub1 sub2 => nullable bot eot sub1 && nullable bot eot sub2
  | OpAlternate sub1 sub2 => nullable bot eot sub1 || nullable bot eot sub2
  end.

Definition newline : ascii := ascii_of_nat 10.

(** What is left of [re] to match once the byte [c] has been read at a
    position that is at the beginning of the text iff [bot]. *)
Fixpoint derive (bot : bool) (c : ascii) (re : Regexp) : Regexp :=
  match re with
  | OpNoMatch | OpEmptyMatch | OpBeginText | OpEndText => OpNoMatch
  | OpLiteral a => if Ascii.eqb a c then OpEmptyMatch else OpNoMatch
  | OpAnyCharNotNL => if Ascii.eqb c newline then OpNoMatch else OpEmptyMatch
  | OpCapture sub => derive bot c sub
  | OpStar sub => OpConcat (derive bot c sub) (OpStar sub)
  | OpPlus sub => OpConcat (derive bot c sub) (OpStar sub)
  | OpQuest sub => derive bot c sub
  | OpConcat sub1 sub2 =>
      let first := OpConcat (derive bot c sub1) sub2 in
      if nullable bot false sub1 then OpAlternate first (derive bot c sub2)
      else first
  | OpAlternate sub1 sub2 => OpAlternate (derive bot c sub1) (derive bot c sub2)
  end.

(** Whether a prefix of [b] matches [re]; [bot] tells whether [b] starts at
    the beginning of the text. *)
Fixpoint match_prefix (re : Regexp) (bot : bool) (b : string) : bool :=
  match b with
  | EmptyString => nullable bot true re
  | String c b' => nullable bot false re || match_prefix (derive bot c re) false b'
  end.

(** Whether [b] contains a match of [re], at any offset. *)
Fixpoint match_anywhere (re : Regexp) (bot : bool) (b : string) : bool :=
  match_prefix re bot b ||
  match b with
  | EmptyString => false
  | String _ b' => match_anywhere re false b'
  end.

(** [regexp.Match(pattern, b)]: the pair [(matched, err)], or [None] outside
    the modelled fragment. *)
Definition Match (pattern : string) (b : string) : option (bool * option error) :=
  match Parse pattern with
  | Unmodelled => None
  | Rejected err => Some (false, Some err)
  | Compiled re =>
      if all_ascii b then Some (match_anywhere re true b, None) else None
  end.

End Regexp.

(** ** The local file system

    A tree of files and directories with the two permissions the modelled
    calls depend on. There are no symbolic links, so [Lstat] and [Stat]
    agree and a path is resolved element by element. *)

Module FS.

Inductive node :=
| File (readable writable : bool) (data : string)
| Dir (readable writable : bool) (entries : list (string * node)).

Fixpoint get_entry (name : string) (entries : list (string * node)) : option node :=
  match entries with
  | [] => None
  | (n, x) :: rest => if String.eqb n name then Some x else get_entry name rest
  end.

Fixpoint set_entry (name : string) (x : node) (entries : list (string * node))
    : list (string * node) :=
  match entries with
  | [] => [(name, x)]
  | (n, y) :: rest =>
      if String.eqb n name then (n, x) :: rest
      else (n, y) :: set_entry name x rest
  end.

(** The elements of the absolute form of [p], for a process whose working
    directory has the elements [cwd]. *)
Definition resolve (cwd : list string) (p : string) : list string :=
  let start := if Path.is_rooted p then [] else cwd in
  rev (Path.clean_elems true [] (start ++ GoString.split Path.slash p)).

(** The same for a system call: the empty name is no file. *)
Definition locate (cwd : list string) (p : string) : Errno + list string :=
  if String.eqb p "" then inl ENOENT else inr (resolve cwd p).

Definition at_path {A} (cwd : list string) (p : string)
    (f : list string -> Errno + A) : Errno + A :=
  match locate cwd p with
  | inl e => inl e
  | inr at_ => f at_
  end.

(** The node a resolved path names. *)
Fixpoint lookup (n : node) (p : list string) : Errno + node :=
  match p with
  | [] => inr n
  | name :: p' =>
      match n with
      | File _ _ _ => inl ENOTDIR
      | Dir _ _ entries =>
          match get_entry name entries with
          | Some x => lookup x p'
          | None => inl ENOENT
          end
      end
  end.

(** [open(p, O_RDWR|O_CREATE|O_TRUNC, 0666)], the system call of
    [os.Create]. *)
Fixpoint create (n : node) (p : list string) : Errno + node :=
  match p with
  | [] =>
      match n with
      | Dir _ _ _ => inl EISDIR
      | File r w _ => if r && w then inr (File r w "") else inl EACCES
      end
  | name :: p' =>
      match n with
      | File _ _ _ => inl ENOTDIR
      | Dir r w entries =>
          match get_entry name entries with
          | Some x =>
              match create x p' with
              | inl e => inl e
              | inr x' => inr (Dir r w (set_entry name x' entries))
              end
          | None =>
              match p' with
              | [] =>
                  if w then inr (Dir r w (set_entry name (File true true "") entries))
                  else inl EACCES
              | _ :: _ => inl ENOENT
              end
          end
      end
  end.

(** [mkdir(p, 0777)], the system call of [os.Mkdir]: nothing may be at [p],
    and its parent must be a directory that can be written to. *)
Fixpoint mkdir (n : node) (p : list string) : Errno + node :=
  match p with
  | [] => inl EEXIST
  | name :: p' =>
      match n with
      | File _ _ _ => inl ENOTDIR
      | Dir r w entries =>
          match get_entry name entries, p' with
          | Some _, [] => inl EEXIST
          | Some x, _ :: _ =>
              match mkdir x p' with
              | inl e => inl e
              | inr x' => inr (Dir r w (set_entry name x' entries))
              end
          | None, [] =>
              if w then inr (Dir r w (set_entry name (Dir true true []) entries))
              else inl EACCES
          | None, _ :: _ => inl ENOENT
          end
      end
  end.

(** The parents [os.MkdirAll] goes through, read off the reversed path: it
    skips the separators that end the path, scans back over the last
    element, and takes what is before the separator it stops at, unless
    that is empty; then it does the same with the parent. The result holds
    the reversed parents, nearest first. *)
Fixpoint parents_rev (skipping : bool) (r : string) : list string :=
  match r with
  | EmptyString => []
  | String c r' =>
      if Ascii.eqb c Path.slash then
        if skipping then parents_rev true r'
        else
          match r' with
          | EmptyString => []
          | String _ _ => r' :: parents_rev true r'
          end
      else parents_rev false r'
  end.

(** The path and its parents, nearest first. *)
Definition ancestors (path : string) : list string :=
  path :: map String.rev (parents_rev true (String.rev path)).

(** [os.MkdirAll] along a path and its parents: if the path is a directory
    there is nothing to do, if it is a file the call fails; otherwise the
    parent is made first and then the directory itself, and a failure to
    make it counts only if it is still no directory. *)
Fixpoint mkdirAll_chain (n : node) (cwd : list string) (chain : list string)
    : error + node :=
  match chain with
  | [] => inr n
  | path :: parents =>
      match at_path cwd path (lookup n) with
      | inr (Dir _ _ _) => inr n
      | inr (File _ _ _) => inl (PathError "mkdir" path ENOTDIR)
      | inl _ =>
          match mkdirAll_chain n cwd parents with
          | inl e => inl e
          | inr n' =>
              match at_path cwd path (mkdir n') with
              | inr n'' => inr n''
              | inl errno =>
                  match at_path cwd path (lookup n') with
                  | inr (Dir _ _ _) => inr n'
                  | _ => inl (PathError "mkdir" path errno)
                  end
              end
          end
      end
  end.

(** [os.MkdirAll(path, os.ModePerm)] on the tree [n]. *)
Definition MkdirAll (n : node) (cwd : list string) (path : string) : error + node :=
  mkdirAll_chain n cwd (ancestors path).

(** The file at [p] with its contents replaced by [data]: what writing
    through an open descriptor of it leaves. *)
Fixpoint write (n : node) (p : list string) (data : string) : node :=
  match p with
  | [] =>
      match n with
      | File r w _ => File r w data
      | Dir _ _ _ => n
      end
  | name :: p' =>
      match n with
      | File _ _ _ => n
      | Dir r w entries =>
          match get_entry name entries with
          | Some x => Dir r w (set_entry name (write x p' data) entries)
          | None => n
          end
      end
  end.

(** [sort.Strings] on the names read from a directory, each name carrying
    what the walk found below it. *)
Definition by_name (a b : string * list string) : Prop :=
  Is_true (String.leb a.1 b.1).

Definition sort_names (l : list (string * list string)) : list (string * list string) :=
  merge_sort by_name l.

(** The files [filepath.Walk] hands to the callback of [getFiles] below a
    node that exists, in the order of the walk: a directory that cannot be
    read contributes nothing. *)
Fixpoint walk_files (path : string) (n : node) : list string :=
  match n with
  | File _ _ _ => [path]
  | Dir r _ entries =>
      if r then
        concat (map snd (sort_names
          (map (fun e => match e with
                         | (name, x) => (name, walk_files (Path.Join [path; name]) x)
                         end) entries)))
      else []
  end.

End FS.

(** ** The world the transfer functions run in *)

(** The object store as the code sees it through an [*s3.S3] client and the
    [s3manager] transfer helpers: what each request answers. *)
Module S3.

Inductive GetResult :=
| Got (body : string)
| GetFailed (err : error) (written : string).

Record API := {
  (** The keys of [Contents] in the answer to [ListObjectsV2]. *)
  ListObjectsV2 : string -> error + list string;
  (** [Downloader.Download] of a key: the body written to the file, or the
      error and what had been written to the file when it struck. *)
  Download : string -> string -> GetResult;
  (** [Uploader.Upload] of a body under a key. *)
  Upload : string -> string -> string -> option error;
}.

End S3.

(** A call to the object store or to the file system. *)
Inductive Call :=
| CallListObjectsV2 (bucket : string)
| CallDownload (bucket key fileName : string)
| CallUpload (bucket key : string)
| CallWalk (root : string)
| CallMkdirAll (path : string)
| CallCreate (name : string)
| CallOpen (name : string)
| CallClose (name : string).

(** A call and the error it returned. *)
Record Event := { call : Call; result : option error }.

Record World := {
  (** The root directory of the local file system. *)
  fs : FS.node;
  (** The elements of the working directory; the code never changes it. *)
  cwd : list string;
  (** [session.NewSession] for a region: the store it reaches, or an error. *)
  new_session : string -> error + S3.API;
  (** The calls made so far, latest first. *)
  trace : list Event;
  (** The lines given to [log.Println] so far, latest first. *)
  log : list string;
}.

Definition set_fs (n : FS.node) (w : World) : World :=
  {| fs := n; cwd := cwd w; new_session := new_session w;
     trace := trace w; log := log w |}.

Definition add_event (e : Event) (w : World) : World :=
  {| fs := fs w; cwd := cwd w; new_session := new_session w;
     trace := e :: trace w; log := log w |}.

Definition add_log (line : string) (w : World) : World :=
  {| fs := fs w; cwd := cwd w; new_session := new_session w;
     trace := trace w; log := line :: log w |}.

(** How a computation ends: it returns, it panics, or the model has no
    answer (a regular expression or subject outside the modelled fragment,
    or a loop that its fuel did not end). *)
Inductive Outcome (A : Type) :=
| Returned (a : A) (w : World)
| Panicked (msg : string) (w : World)
| Unmodelled.

Arguments Returned {A} a w.
Arguments Panicked {A} msg w.
Arguments Unmodelled {A}.

Definition M (A : Type) : Type := World -> Outcome A.

Definition ret {A} (a : A) : M A := fun w => Returned a w.

Definition bind {A B} (m : M A) (k : A -> M B) : M B :=
  fun w =>
    match m w with
    | Returned a w' => k a w'
    | Panicked msg w' => Panicked msg w'
    | Unmodelled => Unmodelled
    end.

#[global] Instance M_ret : MRet M := @ret.
#[global] Instance M_bind : MBind M := fun A B k m => bind m k.

Definition panic {A} (msg : string) : M A := fun w => Panicked msg w.

Definition unmodelled {A} : M A := fun _ => Unmodelled.

Definition emit (c : Call) (r : option error) : M unit :=
  fun w => Returned tt (add_event {| call := c; result := r |} w).

(** [log.Println(line)], without the date and time it starts the line with. *)
Definition log_Println (line : string) : M unit :=
  fun w => Returned tt (add_log line w).

Definition is_Some_b {A} (o : option A) : bool :=
  match o with Some _ => true | None => false end.

Definition nil_dereference : string :=
  "runtime error: invalid memory address or nil pointer dereference".

Definition slice_out_of_range : string :=
  "runtime error: slice bounds out of range".

(** [session.Must(session.NewSession(...))]: panics with the error. *)
Definition session_Must (region : string) : M S3.API :=
  fun w =>
    match new_session w region with
    | inl err => Panicked (Error err) w
    | inr api => Returned api w
    end.

(** [os.MkdirAll(path, os.ModePerm)]. *)
Definition os_MkdirAll (path : string) : M (option error) :=
  fun w =>
    match FS.MkdirAll (fs w) (cwd w) path with
    | inl e =>
        Returned (Some e) (add_event {| call := CallMkdirAll path; result := Some e |} w)
    | inr n =>
        Returned None
          (add_event {| call := CallMkdirAll path; result := None |} (set_fs n w))
    end.

(** [os.Create(name)]; the file it returns is known by its name. *)
Definition os_Create (name : string) : M (option error) :=
  fun w =>
    match FS.at_path (cwd w) name (FS.create (fs w)) with
    | inl errno =>
        let err := Some (PathError "open" name errno) in
        Returned err (add_event {| call := CallCreate name; result := err |} w)
    | inr n =>
        Returned None
          (add_event {| call := CallCreate name; result := None |} (set_fs n w))
    end.

(** The error of [os.Open(name)] in the world [w]; nil when the file opens. *)
Definition open_error (w : World) (name : string) : option error :=
  match FS.at_path (cwd w) name (FS.lookup (fs w)) with
  | inl errno => Some (PathError "open" name errno)
  | inr (FS.File r _ _) => if r then None else Some (PathError "open" name EACCES)
  | inr (FS.Dir r _ _) => if r then None else Some (PathError "open" name EACCES)
  end.

(** [os.Open(name)]. *)
Definition os_Open (name : string) : M (option error) :=
  fun w =>
    let e := open_error w name in
    Returned e (add_event {| call := CallOpen name; result := e |} w).

(** [f.Close()] on the file opened under [name]. *)
Definition file_Close (name : string) : M (option error) :=
  emit (CallClose name) None;; mret None.

(** ** Download: [DownloadBucket], [mkDirIfNeeded], [saveObject] *)

(** [s3Client.ListObjectsV2(input)]. *)
Definition s3_ListObjectsV2 (api : S3.API) (bucket : string) : M (error + list string) :=
  fun w =>
    let r := S3.ListObjectsV2 api bucket in
    let err := match r with inl e => Some e | inr _ => None end in
    Returned r (add_event {| call := CallListObjectsV2 bucket; result := err |} w).

(** [downloader.Download(file, input)] into the file created as [fileName]. *)
Definition downloader_Download (api : S3.API) (bucket key fileName : string)
    : M (option error) :=
  fun w =>
    let at_ := FS.resolve (cwd w) fileName in
    match S3.Download api bucket key with
    | S3.Got body =>
        Returned None
          (add_event {| call := CallDownload bucket key fileName; result := None |}
             (set_fs (FS.write (fs w) at_ body) w))
    | S3.GetFailed err written =>
        Returned (Some err)
          (add_event {| call := CallDownload bucket key fileName; result := Some err |}
             (set_fs (FS.write (fs w) at_ written) w))
    end.

(** [mkDirIfNeeded]. *)
Definition mkDirIfNeeded (baseDir key : string) : M (option error) :=
  match GoString.last_index Path.slash key with
  | Some lastIdx =>
      match GoString.slice_to key lastIdx with
      | Some prefix => os_MkdirAll (Path.Join [baseDir; prefix])
      | None => panic slice_out_of_range
      end
  | None => mret None
  end.

(** A goroutine running [saveObject], by where it stands: before
    [os.Create], or with the file open before [downloader.Download]. *)
Inductive Goroutine :=
| saveObject_start (key : string)
| saveObject_created (key fileName : string).

(** [saveObject] from one of these points up to the next one; [None] when
    the function has returned (and [wg.Done] has run). *)
Definition saveObject_step (api : S3.API) (bucket baseDir : string) (g : Goroutine)
    : M (option Goroutine) :=
  match g with
  | saveObject_start key =>
      let fileName := Path.Join [baseDir; key] in
      err ← os_Create fileName;
      match err with
      | Some e => log_Println ("Unable to open file" +:+ Error e);; mret None
      | None => mret (Some (saveObject_created key fileName))
      end
  | saveObject_created key fileName =>
      err ← downloader_Download api bucket key fileName;
      match err with
      | Some e => log_Println ("Unable to download item:" +:+ Error e)
      | None => mret tt
      end;;
      file_Close fileName;;
      mret None
  end.

(** One iteration of the [for] loop of [DownloadBucket] on a listed key:
    [true] when it reaches [go saveObject(...)]. *)
Definition DownloadBucket_iteration (baseDir excludePatten key : string) : M bool :=
  match Regexp.Match excludePatten key with
  | None => unmodelled
  | Some (matched, err) =>
      if is_Some_b err || matched then mret false
      else
        err ← mkDirIfNeeded baseDir key;
        if is_Some_b err then mret false else mret true
  end.

(** The loop and the goroutines it has started: the keys the loop has still
    to visit, and the goroutines that have not returned. *)
Record Threads := { pending : list string; running : list Goroutine }.

Section Schedule.

Variable iteration : string -> M bool.
Variable step : Goroutine -> M (option Goroutine).

(** The loop runs one iteration. *)
Definition loop_step (t : Threads) : M Threads :=
  match pending t with
  | [] => mret t
  | key :: rest =>
      go ← iteration key;
      mret {| pending := rest;
              running := running t ++ (if go : bool then [saveObject_start key] else []) |}
  end.

(** The [i]-th running goroutine runs to its next point. *)
Definition goroutine_step (i : nat) (t : Threads) : M Threads :=
  match running t !! i with
  | None => mret t
  | Some g =>
      r ← step g;
      mret {| pending := pending t;
              running := match r with
                         | Some g' => <[i:=g']> (running t)
                         | None => delete i (running t)
                         end |}
  end.

(** One choice of the scheduler: [0] lets the loop run, [S i] the [i]-th
    running goroutine; a choice that names no thread changes nothing. *)
Definition tick (n : nat) (t : Threads) : M Threads :=
  match n with
  | O => loop_step t
  | S i => goroutine_step i t
  end.

Fixpoint run_schedule (sched : list nat) (t : Threads) : M Threads :=
  match sched with
  | [] => mret t
  | n :: sched' => t' ← tick n t; run_schedule sched' t'
  end.

(** The rest of the loop, run without interruption. *)
Fixpoint finish_loop (keys : list string) (gs : list Goroutine) : M (list Goroutine) :=
  match keys with
  | [] => mret gs
  | key :: rest =>
      go ← iteration key;
      finish_loop rest (gs ++ (if go : bool then [saveObject_start key] else []))
  end.

(** A goroutine run from where it stands to its return. *)
Definition to_return (g : Goroutine) : M unit :=
  r ← step g;
  match r with
  | Some g' => step g';; mret tt
  | None => mret tt
  end.

(** Each goroutine left, run to its return, one after the other. *)
Fixpoint finish_goroutines (gs : list Goroutine) : M unit :=
  match gs with
  | [] => mret tt
  | g :: rest => to_return g;; finish_goroutines rest
  end.

(** The [for] loop over the listed keys with the goroutines it starts, up
    to the return of [wg.Wait()]: the threads take turns as [sched] says,
    and when [sched] is used up the loop and then the goroutines run to
    their end. Every interleaving of the loop's iterations and the
    goroutines' steps is the run of some [sched]. *)
Definition run_threads (sched : list nat) (keys : list string) : M unit :=
  t ← run_schedule sched {| pending := keys; running := [] |};
  gs ← finish_loop (pending t) (running t);
  finish_goroutines gs.

End Schedule.

(** [DownloadBucket], under the schedule [sched] of its goroutines. *)
Definition DownloadBucket (sched : list nat) (baseDir bucket region excludePatten : string)
    : M (option error) :=
  api ← session_Must region;
  result ← s3_ListObjectsV2 api bucket;
  match result with
  | inl err => mret (Some err)
  | inr contents =>
      run_threads (DownloadBucket_iteration baseDir excludePatten)
        (saveObject_step api bucket baseDir) sched contents;;
      mret None
  end.

(** ** Upload: [UploadBucket], [getFiles], [directoryIterator] *)

(** [getFiles]. [filepath.Walk] starts with [os.Lstat(root)]; when that
    fails it calls the callback with a nil [info] and the error, and the
    callback calls [info.IsDir()]. Otherwise the callback returns nil at
    every node, so the walk visits all it can read and returns nil, and
    nothing is logged. *)
Definition getFiles (root : string) : M (list string) :=
  fun w =>
    let w' := add_event {| call := CallWalk root; result := None |} w in
    match FS.at_path (cwd w) root (FS.lookup (fs w)) with
    | inl _ => Panicked nil_dereference w'
    | inr n => Returned (FS.walk_files root n) w'
    end.

(** [directoryIterator]; [next_f] is the open file by its name, [None]
    is the nil [*os.File]. *)
Record directoryIterator := {
  filePaths : list string;
  bucket : string;
  baseDir : string;
  next_path : string;
  next_key : string;
  next_f : option string;
  err : option error;
}.

(** [createIterator]. *)
Definition createIterator (baseDir bucket : string) : M directoryIterator :=
  paths ← getFiles baseDir;
  mret {| filePaths := paths; bucket := bucket; baseDir := baseDir;
          next_path := ""; next_key := ""; next_f := None; err := None |}.

(** [directoryIterator.Err]. *)
Definition Err (iter : directoryIterator) : option error := err iter.

(** [directoryIterator.Next]: what it returns, and the iterator after. *)
Definition Next (iter : directoryIterator) : M (bool * directoryIterator) :=
  match filePaths iter with
  | [] =>
      mret (false,
            {| filePaths := filePaths iter; bucket := bucket iter;
               baseDir := baseDir iter; next_path := next_path iter;
               next_key := next_key iter; next_f := None; err := err iter |})
  | first :: rest =>
      e ← os_Open first;
      match Path.toKey (baseDir iter) first with
      | None => panic slice_out_of_range
      | Some key =>
          let iter' :=
            {| filePaths := rest; bucket := bucket iter; baseDir := baseDir iter;
               next_path := first; next_key := key;
               next_f := if is_Some_b e then None else Some first;
               err := e |} in
          mret (true && negb (is_Some_b (Err iter')), iter')
      end
  end.

(** The two addresses [UploadObject] takes, [&iter.bucket] and
    [&iter.next.key]. A run has one iterator, so the field names the
    address; the string behind it is the one the field holds at the time
    of reading. *)
Inductive Pointer := ptr_bucket | ptr_next_key.

Definition deref (iter : directoryIterator) (p : Pointer) : string :=
  match p with
  | ptr_bucket => bucket iter
  | ptr_next_key => next_key iter
  end.

(** [s3manager.UploadInput] and [s3manager.BatchUploadObject]. *)
Record UploadInput := {
  input_Bucket : Pointer;
  input_Key : Pointer;
  input_Body : option string;
}.

Record BatchUploadObject := { Object : UploadInput; After : M (option error) }.

(** [directoryIterator.UploadObject]. *)
Definition UploadObject (iter : directoryIterator) : BatchUploadObject :=
  let f := next_f iter in
  {| Object := {| input_Bucket := ptr_bucket; input_Key := ptr_next_key; input_Body := f |};
     After := match f with
              | Some name => file_Close name
              | None => mret (Some (errorString "invalid argument"))
              end |}.

(** The error of sending the contents of the file open as [name] under
    [key]; nil when the object is stored. *)
Definition upload_error (api : S3.API) (w : World) (bucket key name : string)
    : option error :=
  match FS.lookup (fs w) (FS.resolve (cwd w) name) with
  | inr (FS.File _ _ data) => S3.Upload api bucket key data
  | inr (FS.Dir _ _ _) => Some (PathError "read" name EISDIR)
  | inl errno => Some (PathError "read" name errno)
  end.

(** [Uploader.UploadWithContext]: the bucket and the key are read through
    their pointers, the body is read from the open file, and the object is
    sent; the call returns when that is done. *)
Definition uploader_Upload (api : S3.API) (iter : directoryIterator)
    (input : UploadInput) : M (option error) :=
  match input_Body input with
  | None => panic nil_dereference
  | Some name =>
      fun w =>
        let bucket := deref iter (input_Bucket input) in
        let key := deref iter (input_Key input) in
        let r := upload_error api w bucket key name in
        Returned r (add_event {| call := CallUpload bucket key; result := r |} w)
  end.

(** [s3manager.Error]: the cause with the two pointers of the input. *)
Record BatchItem := { OrigErr : error; item_Bucket : Pointer; item_Key : Pointer }.

(** [s3manager.NewBatchError] when there are errors, nil when there are
    none. The errors hold pointers into the iterator; the error value of
    the model holds what a caller reads behind them once the loop has
    ended, which is what the fields of [iter] hold then. *)
Definition batch_error (iter : directoryIterator) (errs : list BatchItem) : option error :=
  match errs with
  | [] => None
  | _ :: _ =>
      Some (batchError "BatchedUploadIncomplete" "some objects have failed to upload."
              (map (fun item => (OrigErr item, deref iter (item_Bucket item),
                                 deref iter (item_Key item))) errs))
  end.

(** The loop of [Uploader.UploadWithIterator] of the SDK:
    [for iter.Next() { ... }], collecting the error of each upload and of
    each [After]; it gives the errors and the iterator as the loop leaves
    it. [None] when [fuel] calls of [Next] did not end the loop. *)
Fixpoint upload_loop (fuel : nat) (api : S3.API) (iter : directoryIterator)
    (errs : list BatchItem) : M (option (list BatchItem * directoryIterator)) :=
  match fuel with
  | O => mret None
  | S fuel' =>
      '(more, iter') ← Next iter;
      if more : bool then
        let object := UploadObject iter' in
        let item e :=
          {| OrigErr := e; item_Bucket := input_Bucket (Object object);
             item_Key := input_Key (Object object) |} in
        e1 ← uploader_Upload api iter' (Object object);
        let errs1 :=
          match e1 : option error with
          | Some e => errs ++ [item e]
          | None => errs
          end in
        e2 ← After object;
        let errs2 :=
          match e2 : option error with
          | Some e => errs1 ++ [item e]
          | None => errs1
          end in
        upload_loop fuel' api iter' errs2
      else mret (Some (errs, iter'))
  end.

(** [uploader.UploadWithIterator(ctx, iter)] on a [directoryIterator],
    which ends after at most one call of [Next] per path and one more. *)
Definition UploadWithIterator (api : S3.API) (iter : directoryIterator) : M (option error) :=
  r ← upload_loop (S (length (filePaths iter))) api iter [];
  match r with
  | None => unmodelled
  | Some (errs, iter') => mret (batch_error iter' errs)
  end.

(** [UploadBucket]. *)
Definition UploadBucket (baseDir bucket region : string) : M (option error) :=
  api ← session_Must region;
  iter ← createIterator baseDir bucket;
  e ← UploadWithIterator api iter;
  match e with
  | Some e => mret (Some e)
  | None => mret None
  end.

(** ** The transfer context [Bucket]

    [s3_test.go] builds a [Bucket] with [Bucket{}] and with
    [NewBucket(client, baseDir, name)] and calls [DownloadBucket] on it;
    neither the type nor its methods are in [awsutils.go]. *)

(** Modelled from the spec: the [Bucket] type, missing from the sources. A
    transfer context holds the client handle, the base directory and the
    store name; [Bucket{}] has no client. *)
Record Bucket := {
  Client : option S3.API;
  BaseDir : string;
  Name : string;
}.

(** Modelled from the spec: [NewBucket], missing from the sources. *)
Definition NewBucket (client : S3.API) (baseDir name : string) : Bucket :=
  {| Client := Some client; BaseDir := baseDir; Name := name |}.

(** Modelled from the spec: the listing filter of the missing
    [Bucket.DownloadBucket]. A key is dropped if the exclusion pattern is
    given, is not empty and matches the key; a matching failure drops
    nothing. Then the parent directory is made, and a failure to make it
    gives up this key only. *)
Definition Bucket_iteration (baseDir : string) (excludePatten : option string)
    (key : string) : M bool :=
  dropped ←
    match excludePatten with
    | None => mret false
    | Some pattern =>
        if String.eqb pattern "" then mret false
        else
          match Regexp.Match pattern key with
          | None => unmodelled
          | Some (matched, e) => mret (matched && negb (is_Some_b e))
          end
    end;
  if dropped : bool then mret false
  else
    e ← mkDirIfNeeded baseDir key;
    if is_Some_b e then mret false else mret true.

(** Modelled from the spec: [Bucket.DownloadBucket], missing from the
    sources. Without a client it returns the error
    [messageClientNotDefined] at once; with one it lists the store, filters
    the keys and fetches each kept key in a task of its own, returning nil
    when all tasks have ended. *)
Definition Bucket_DownloadBucket (sched : list nat) (b : Bucket)
    (excludePatten : option string) : M (option error) :=
  match Client b with
  | None => mret (Some (errorString messageClientNotDefined))
  | Some api =>
      listed ← s3_ListObjectsV2 api (Name b);
      match listed with
      | inl e => mret (Some e)
      | inr contents =>
          run_threads (Bucket_iteration (BaseDir b) excludePatten)
            (saveObject_step api (Name b) (BaseDir b)) sched contents;;
          mret None
      end
  end.

(** Modelled from the spec: [Bucket.UploadBucket], missing from the
    sources. Without a client it returns the error
    [messageClientNotDefined] at once; with one it uploads the tree under
    the base directory through the iterator. *)
Definition Bucket_UploadBucket (b : Bucket) : M (option error) :=
  match Client b with
  | None => mret (Some (errorString messageClientNotDefined))
  | Some api =>
      iter ← createIterator (BaseDir b) (Name b);
      UploadWithIterator api iter
  end.

(** ** CloudFormation: [Stack] and its methods

    The CloudFormation client is an oracle for the six requests the code
    sends. A method of [Stack] sends each request at most once, so what a
    request answers does not depend on the requests sent before it. *)

Module Cfn.

(** [cloudformation.Parameter] with the two fields the code sets, both
    through [aws.String]. *)
Record CfnParameter := { ParameterKey : string; ParameterValue : string }.

(** [cloudformation.TemplateParameter] with the two fields the code reads;
    both are pointers. *)
Record TemplateParameter := {
  tp_ParameterKey : option string;
  tp_DefaultValue : option string;
}.

(** [cloudformation.Output] with the two fields the code reads. *)
Record Output := { OutputKey : option string; OutputValue : option string }.

(** [cloudformation.Stack] as [DescribeStacks] answers it; the code reads
    its outputs only. *)
Record StackDescription := { Outputs : list Output }.

(** [cloudformation.StackSummary] with the two fields the code reads. *)
Record StackSummary := { StackName : option string; StackStatus : option string }.

Record CreateStackInput := {
  cs_TemplateURL : string;
  cs_StackName : string;
  cs_Capabilities : list string;
  cs_Parameters : list CfnParameter;
}.

Record CreateChangeSetInput := {
  ccs_TemplateURL : string;
  ccs_StackName : string;
  ccs_ChangeSetName : string;
  ccs_Parameters : list CfnParameter;
}.

(** [cloudformationiface.CloudFormationAPI], the methods the code calls;
    each takes what the code puts in its input. *)
Module iface.

Record CloudFormationAPI := {
  ValidateTemplate : string -> error + list TemplateParameter;
  DescribeStacks : string -> error + list StackDescription;
  CreateStack : CreateStackInput -> option error;
  WaitUntilStackCreateComplete : string -> option error;
  CreateChangeSet : CreateChangeSetInput -> option error;
  ListStacks : list string -> error + list StackSummary;
}.

End iface.

Definition API : Type := iface.CloudFormationAPI.

(** [Stack]; a nil [Cfn] is [None]. *)
Record Stack := {
  Cfn : option API;
  Name : string;
  TemplateURL : string;
  Capabilities : list string;
  Status : option string;
}.

(** A request sent to CloudFormation. *)
Inductive Call :=
| CallValidateTemplate (templateURL : string)
| CallDescribeStacks (stackName : string)
| CallCreateStack (input : CreateStackInput)
| CallWaitUntilStackCreateComplete (stackName : string)
| CallCreateChangeSet (input : CreateChangeSetInput)
| CallListStacks (filter : list string).

Record Event := { call : Call; result : option error }.

(** The three [range] loops over a map. *)
Inductive RangeSite :=
| in_findMissingParametres
| in_convertToCfnParameter
| in_convertToRequiredCfnParameter.

Record World := {
  (** [cloudformation.New] on [session.NewSession] for a region: the client,
      or the error of the session. *)
  new_session : string -> error + API;
  (** The order in which a [range] loop yields the entries of a map, which
      Go leaves open: some order of the entries, for each loop its own. *)
  range : forall V, RangeSite -> gmap string V -> list (string * V);
  range_order : forall V site (m : gmap string V), range V site m ≡ₚ map_to_list m;
  (** [time.Now().Format("20060102030405")]. *)
  now : string;
  (** The requests sent so far, latest first. *)
  trace : list Event;
  (** The lines given to [log.Println] and to [fmt.Println] so far, latest
      first. *)
  log : list string;
  stdout : list string;
}.

Definition add_event (e : Event) (w : World) : World :=
  {| new_session := new_session w; range := range w; range_order := range_order w;
     now := now w; trace := e :: trace w; log := log w; stdout := stdout w |}.

Definition add_log (line : string) (w : World) : World :=
  {| new_session := new_session w; range := range w; range_order := range_order w;
     now := now w; trace := trace w; log := line :: log w; stdout := stdout w |}.

Definition add_stdout (line : string) (w : World) : World :=
  {| new_session := new_session w; range := range w; range_order := range_order w;
     now := now w; trace := trace w; log := log w; stdout := line :: stdout w |}.

(** How a method ends: it returns or it panics. *)
Inductive Outcome (A : Type) :=
| Returned (a : A) (w : World)
| Panicked (msg : string) (w : World).

Arguments Returned {A} a w.
Arguments Panicked {A} msg w.

Definition M (A : Type) : Type := World -> Outcome A.

Definition ret {A} (a : A) : M A := fun w => Returned a w.

Definition bind {A B} (m : M A) (k : A -> M B) : M B :=
  fun w =>
    match m w with
    | Returned a w' => k a w'
    | Panicked msg w' => Panicked msg w'
    end.

#[global] Instance M_ret : MRet M := @ret.
#[global] Instance M_bind : MBind M := fun A B k m => bind m k.

Definition panic {A} (msg : string) : M A := fun w => Panicked msg w.

Definition emit (c : Call) (r : option error) : M unit :=
  fun w => Returned tt (add_event {| call := c; result := r |} w).

Definition log_Println (line : string) : M unit :=
  fun w => Returned tt (add_log line w).

Definition fmt_Println (line : string) : M unit :=
  fun w => Returned tt (add_stdout line w).

Definition error_of {A} (r : error + A) : option error :=
  match r with inl e => Some e | inr _ => None end.

(** The requests, each put on the trace with the error it returns. *)
Definition cfn_ValidateTemplate (api : API) (templateURL : string)
    : M (error + list TemplateParameter) :=
  let r := iface.ValidateTemplate api templateURL in
  emit (CallValidateTemplate templateURL) (error_of r);; mret r.

Definition cfn_DescribeStacks (api : API) (stackName : string)
    : M (error + list StackDescription) :=
  let r := iface.DescribeStacks api stackName in
  emit (CallDescribeStacks stackName) (error_of r);; mret r.

Definition cfn_CreateStack (api : API) (input : CreateStackInput) : M (option error) :=
  let r := iface.CreateStack api input in
  emit (CallCreateStack input) r;; mret r.

Definition cfn_WaitUntilStackCreateComplete (api : API) (stackName : string)
    : M (option error) :=
  let r := iface.WaitUntilStackCreateComplete api stackName in
  emit (CallWaitUntilStackCreateComplete stackName) r;; mret r.

Definition cfn_CreateChangeSet (api : API) (input : CreateChangeSetInput)
    : M (option error) :=
  let r := iface.CreateChangeSet api input in
  emit (CallCreateChangeSet input) r;; mret r.

Definition cfn_ListStacks (api : API) (filter : list string)
    : M (error + list StackSummary) :=
  let r := iface.ListStacks api filter in
  emit (CallListStacks filter) (error_of r);; mret r.

(** [session.Must(session.NewSession(...))] and [cloudformation.New]. *)
Definition session_Must (region : string) : M API :=
  fun w =>
    match new_session w region with
    | inl err => Panicked (Error err) w
    | inr api => Returned api w
    end.

(** [Stack.InitilizeCfn]: the stack after the call. *)
Definition InitilizeCfn (s : Stack) (region : string) : M Stack :=
  sess ← session_Must region;
  mret {| Cfn := Some sess; Name := Name s; TemplateURL := TemplateURL s;
          Capabilities := Capabilities s; Status := Status s |}.

(** [findMissingParametres] in the order the run takes through the map. *)
Definition findMissingParametres (templateParam : gmap string (option string))
    (parameters : gmap string string) : M (option error) :=
  fun w =>
    Returned
      (Params.findMissingParametres_in
         (range w _ in_findMissingParametres templateParam) parameters) w.

(** The loop of [convertToCfnParameter] over the entries as the iteration
    yields them. *)
Fixpoint convertToCfnParameter_in (entries : list (string * string))
    (result : list CfnParameter) : list CfnParameter :=
  match entries with
  | [] => result
  | (key, value) :: rest =>
      convertToCfnParameter_in rest
        (result ++ [{| ParameterKey := key; ParameterValue := value |}])
  end.

(** [convertToCfnParameter]. *)
Definition convertToCfnParameter (parameters : gmap string string)
    : M (list CfnParameter) :=
  fun w =>
    Returned
      (convertToCfnParameter_in (range w _ in_convertToCfnParameter parameters) []) w.

(** The loop of [convertToRequiredCfnParameter]. *)
Fixpoint convertToRequiredCfnParameter_in (entries : list (string * option string))
    (parameters : gmap string string) (result : list CfnParameter)
    : list CfnParameter :=
  match entries with
  | [] => result
  | (key, _) :: rest =>
      match parameters !! key with
      | Some value =>
          convertToRequiredCfnParameter_in rest parameters
            (result ++ [{| ParameterKey := key; ParameterValue := value |}])
      | None => convertToRequiredCfnParameter_in rest parameters result
      end
  end.

(** [convertToRequiredCfnParameter]. *)
Definition convertToRequiredCfnParameter (templateParam : gmap string (option string))
    (parameters : gmap string string) : M (list CfnParameter) :=
  fun w =>
    Returned
      (convertToRequiredCfnParameter_in
         (range w _ in_convertToRequiredCfnParameter templateParam) parameters []) w.
(** The loop of [getTeplateParameters]; [*tp.ParameterKey] panics on a
    nil key. *)
Fixpoint template_loop (parameters : list TemplateParameter)
    (resultParameters : gmap string (option string))
    : M (gmap string (option string)) :=
  match parameters with
  | [] => mret resultParameters
  | tp :: rest =>
      match tp_ParameterKey tp with
      | None => panic nil_dereference
      | Some key => template_loop rest (<[key := tp_DefaultValue tp]> resultParameters)
      end
  end.

(** [Stack.getTeplateParameters]; a call through a nil [s.Cfn] panics. *)
Definition getTeplateParameters (s : Stack)
    : M (error + gmap string (option string)) :=
  match Cfn s with
  | None => panic nil_dereference
  | Some api =>
      resp ← cfn_ValidateTemplate api (TemplateURL s);
      match resp with
      | inl err => mret (inl err)
      | inr parameters =>
          resultParameters ← template_loop parameters ∅;
          mret (inr resultParameters)
      end
  end.

(** [Stack.GetTeplateParameters]. *)
Definition GetTeplateParameters (s : Stack)
    : M (error + gmap string (option string)) :=
  match Cfn s with
  | None => mret (inl (errorString messageClientNotDefined))
  | Some _ => getTeplateParameters s
  end.

(** [Stack.createStack]. *)
Definition createStack (s : Stack) (parameters : list CfnParameter) : M (option error) :=
  match Cfn s with
  | None => panic nil_dereference
  | Some api =>
      let input :=
        {| cs_TemplateURL := TemplateURL s; cs_StackName := Name s;
           cs_Capabilities := Capabilities s; cs_Parameters := parameters |} in
      err ← cfn_CreateStack api input;
      match err with
      | Some e => log_Println (Error e);; mret (Some e)
      | None =>
          err ← cfn_WaitUntilStackCreateComplete api (Name s);
          match err with
          | Some e => log_Println (Error e);; mret (Some e)
          | None => mret None
          end
      end
  end.

(** [Stack.CreateStack]. *)
Definition CreateStack (s : Stack) (parameters : gmap string string) : M (option error) :=
  match Cfn s with
  | None => mret (Some (errorString messageClientNotDefined))
  | Some _ =>
      cfnParameters ← convertToCfnParameter parameters;
      createStack s cfnParameters
  end.

(** [Stack.createChangeSet]. *)
Definition createChangeSet (s : Stack) (parameters : list CfnParameter)
    : M (option error) :=
  match Cfn s with
  | None => panic nil_dereference
  | Some api =>
      fun w =>
        let changeSetName := Name s +:+ "-" +:+ now w in
        let input :=
          {| ccs_TemplateURL := TemplateURL s; ccs_StackName := Name s;
             ccs_ChangeSetName := changeSetName; ccs_Parameters := parameters |} in
        (err ← cfn_CreateChangeSet api input;
         match err with
         | Some e => log_Println (Error e);; mret (Some e)
         | None =>
             err ← cfn_WaitUntilStackCreateComplete api (Name s);
             match err with
             | Some e => log_Println (Error e);; mret (Some e)
             | None => mret None
             end
         end) w
  end.

(** [Stack.CreateChangeSet]. *)
Definition CreateChangeSet (s : Stack) (parameters : gmap string string)
    : M (option error) :=
  match Cfn s with
  | None => mret (Some (errorString messageClientNotDefined))
  | Some _ =>
      cfnParameters ← convertToCfnParameter parameters;
      createChangeSet s cfnParameters
  end.

(** [Stack.CreateOrUpdate]. *)
Definition CreateOrUpdate (s : Stack) (parameters : gmap string string)
    : M (option error) :=
  match Cfn s with
  | None => mret (Some (errorString messageClientNotDefined))
  | Some api =>
      r ← getTeplateParameters s;
      match r with
      | inl err => fmt_Println (Error err);; mret (Some err)
      | inr templateParam =>
          missing ← findMissingParametres templateParam parameters;
          match missing with
          | Some err => log_Println (Error err);; mret (Some err)
          | None =>
              cfnParameters ← convertToRequiredCfnParameter templateParam parameters;
              described ← cfn_DescribeStacks api (Name s);
              match described with
              | inl _ => createStack s cfnParameters
              | inr _ => createChangeSet s cfnParameters
              end
          end
      end
  end.

(** The inner loop of [ReadOutputs]; a nil key or value panics. *)
Fixpoint outputs_loop (outputs : list Output) (parameters : gmap string string)
    : M (gmap string string) :=
  match outputs with
  | [] => mret parameters
  | output :: rest =>
      match OutputKey output, OutputValue output with
      | Some key, Some value => outputs_loop rest (<[key := value]> parameters)
      | _, _ => panic nil_dereference
      end
  end.

(** The outer loop of [ReadOutputs]. *)
Fixpoint stacks_loop (stacks : list StackDescription) (parameters : gmap string string)
    : M (gmap string string) :=
  match stacks with
  | [] => mret parameters
  | stack :: rest =>
      parameters' ← outputs_loop (Outputs stack) parameters;
      stacks_loop rest parameters'
  end.

(** [Stack.ReadOutputs]. *)
Definition ReadOutputs (s : Stack) : M (error + gmap string string) :=
  match Cfn s with
  | None => mret (inl (errorString messageClientNotDefined))
  | Some api =>
      res ← cfn_DescribeStacks api (Name s);
      match res with
      | inl err => mret (inl err)
      | inr stacks =>
          parameters ← stacks_loop stacks ∅;
          mret (inr parameters)
      end
  end.

(** The statuses [GetAllStacksBy] asks for: all but [DELETE_COMPLETE]. *)
Definition filter : list string :=
  ["CREATE_IN_PROGRESS"; "CREATE_FAILED"; "CREATE_COMPLETE";
   "ROLLBACK_IN_PROGRESS"; "ROLLBACK_FAILED"; "ROLLBACK_COMPLETE";
   "DELETE_IN_PROGRESS"; "DELETE_FAILED";
   "UPDATE_IN_PROGRESS"; "UPDATE_COMPLETE_CLEANUP_IN_PROGRESS"; "UPDATE_COMPLETE";
   "UPDATE_ROLLBACK_IN_PROGRESS"; "UPDATE_ROLLBACK_FAILED";
   "UPDATE_ROLLBACK_COMPLETE_CLEANUP_IN_PROGRESS"; "UPDATE_ROLLBACK_COMPLETE";
   "REVIEW_IN_PROGRESS"].

(** The loop of [GetAllStacksBy]; [*summary.StackName] panics on a nil
    name. *)
Fixpoint summaries_loop (summaries : list StackSummary) (results : list Stack)
    : M (list Stack) :=
  match summaries with
  | [] => mret results
  | summary :: rest =>
      match StackName summary with
      | None => panic nil_dereference
      | Some name =>
          summaries_loop rest
            (results ++ [{| Cfn := None; Name := name; TemplateURL := "";
                            Capabilities := []; Status := StackStatus summary |}])
      end
  end.

(** [GetAllStacksBy]. *)
Definition GetAllStacksBy (region : string) : M (error + list Stack) :=
  svc ← session_Must region;
  resp ← cfn_ListStacks svc filter;
  match resp with
  | inl err => log_Println (Error err);; mret (inl err)
  | inr summaries =>
      results ← summaries_loop summaries [];
      mret (inr results)
  end.

End Cfn.

(** ** Parameters from a file and from the environment: [LoadParameters],
    [LoadEnvironmentVariables] *)

(** [bufio.Scanner] with the split function [bufio.ScanLines], as
    [bufio.NewScanner] sets it up. *)
Module Bufio.

(** [bufio.MaxScanTokenSize], the size the buffer of the scanner grows to. *)
Definition MaxScanTokenSize : N := 65536.

Definition ErrTooLong : error := errorString "bufio.Scanner: token too long".

(** A line the buffer cannot hold with its end: the scanner gives up when
    the buffer is full and holds no newline. *)
Definition too_long (line : string) : bool :=
  (MaxScanTokenSize <=? N.of_nat (String.length line))%N.

Definition carriage_return : ascii := "013"%char.

(** [dropCR]: the data without one carriage return at its end. *)
Fixpoint dropCR (data : string) : string :=
  match data with
  | EmptyString => EmptyString
  | String c EmptyString => if Ascii.eqb c carriage_return then EmptyString else data
  | String c rest => String c (dropCR rest)
  end.

(** The tokens [Scan] and [Text] give one after the other, and [Err] after
    the last one, for input cut at its newlines: every piece but the last
    ended with a newline, and the last is what follows the last newline. *)
Fixpoint scan_lines (pieces : list string) : list string * option error :=
  match pieces with
  | [] => ([], None)
  | [final] =>
      if String.eqb final "" then ([], None)
      else if too_long final then ([], Some ErrTooLong)
      else ([dropCR final], None)
  | line :: rest =>
      if too_long line then ([], Some ErrTooLong)
      else
        let '(tokens, e) := scan_lines rest in
        (dropCR line :: tokens, e)
  end.

(** The scanner run over the whole of [data]. *)
Definition scan (data : string) : list string * option error :=
  scan_lines (GoString.split Regexp.newline data).

End Bufio.

Definition index_out_of_range : string :=
  "runtime error: index out of range [1] with length 1".

(** The body of the loops of [LoadParameters] and
    [LoadEnvironmentVariables] on one line: [strings.Split] gives at least
    one word, so [words[0]] is in range; [words[1]] is not when there is
    exactly one word, and [None] stands for that panic. *)
Definition assign (line : string) (parameters : gmap string string)
    : option (gmap string string) :=
  let words := GoString.split "="%char line in
  match words with
  | key :: value :: _ => Some (<[key := value]> parameters)
  | _ => None
  end.

(** The loop over the lines, up to the first panic. *)
Fixpoint assign_all (lines : list string) (parameters : gmap string string)
    : option (gmap string string) :=
  match lines with
  | [] => Some parameters
  | line :: rest =>
      match assign line parameters with
      | Some parameters' => assign_all rest parameters'
      | None => None
      end
  end.

(** What reading the file open as [name] to its end gives the scanner of
    [LoadParameters]: the lines and the error of [scanner.Err()]. *)
Definition scan_file (w : World) (name : string) : list string * option error :=
  match FS.lookup (fs w) (FS.resolve (cwd w) name) with
  | inr (FS.File _ _ data) => Bufio.scan data
  | inr (FS.Dir _ _ _) => ([], Some (PathError "read" name EISDIR))
  | inl errno => ([], Some (PathError "read" name errno))
  end.

(** [LoadParameters]: the map, nil as [None], and the error. The deferred
    [file.Close()] runs when the function returns and when it panics. *)
Definition LoadParameters (fileName : string)
    : M (option (gmap string string) * option error) :=
  err ← os_Open fileName;
  match err with
  | Some e => mret (None, Some e)
  | None =>
      fun w =>
        let '(lines, scanner_err) := scan_file w fileName in
        match assign_all lines ∅ with
        | Some parameters =>
            (file_Close fileName;; mret (Some parameters, scanner_err)) w
        | None => (file_Close fileName;; panic index_out_of_range) w
        end
  end.

(** [LoadEnvironmentVariables], given what [os.Environ()] returns. *)
Definition LoadEnvironmentVariables (environ : list string)
    : M (gmap string string * option error) :=
  match assign_all environ ∅ with
  | Some parameters => mret (parameters, None)
  | None => panic index_out_of_range
  end.

(** Whether the byte [c] occurs in [s]. *)
Fixpoint contains (c : ascii) (s : string) : bool :=
  match s with
  | EmptyString => false
  | String a s' => Ascii.eqb a c || contains c s'
  end.

(** A line of the environment or of a parameter file, by its parts: the key
    up to the first ["="], the value up to the next one, and what is left,
    which is empty or starts with that ["="]. *)
Definition line_of (e : string * string * string) : string :=
  e.1.1 +:+ "=" +:+ e.1.2 +:+ e.2.

Definition line_parts (e : string * string * string) : Prop :=
  contains "="%char e.1.1 = false /\ contains "="%char e.1.2 = false /\
  (e.2 = "" \/ exists rest, e.2 = "=" +:+ rest).

(** The two ends of a line, and a text file with one of them after each of
    its lines. *)
Definition line_feed : string := String Regexp.newline "".

Definition crlf : string := String Bufio.carriage_return line_feed.

Fixpoint write_lines (eol : string) (lines : list string) : string :=
  match lines with
  | [] => ""
  | line :: rest => line +:+ eol +:+ write_lines eol rest
  end.

(** A line that a file can hold as one line for [LoadParameters]: it has a
    key and a value, no newline, and fits the buffer of the scanner with
    the end of the line. *)
Definition file_line (e : string * string * string) : Prop :=
  line_parts e /\
  contains Regexp.newline (line_of e) = false /\
  (N.of_nat (String.length (line_of e)) < 65535)%N.

(** ** Observations on a world *)

(** Whether the resolved path [p] names a regular file. *)
Definition is_file (n : FS.node) (p : list string) : bool :=
  match FS.lookup n p with
  | inr (FS.File _ _ _) => true
  | _ => false
  end.

(** Whether [name] names a regular file in the world. *)
Definition file_at (w : World) (name : string) : bool :=
  is_file (fs w) (FS.resolve (cwd w) name).

(** Whether the loop of [DownloadBucket] goes on with a key after the
    match: the match returned no error and found nothing. *)
Definition kept (excludePatten key : string) : bool :=
  match Regexp.Match excludePatten key with
  | Some (matched, e) => negb (is_Some_b e || matched)
  | None => false
  end.

(** The keys the loop of [DownloadBucket] goes on with. *)
Definition kept_keys (excludePatten : string) (keys : list string) : list string :=
  List.filter (kept excludePatten) keys.

Fixpoint count_if {A} (P : A -> bool) (l : list A) : nat :=
  match l with
  | [] => 0
  | x :: l' => (if P x then 1 else 0) + count_if P l'
  end.

Definition is_mkdir_failed (e : Event) : bool :=
  match call e, result e with
  | CallMkdirAll _, Some _ => true
  | _, _ => false
  end.

Definition is_create (e : Event) : bool :=
  match call e with CallCreate _ => true | _ => false end.

Definition is_create_failed (e : Event) : bool :=
  match call e, result e with
  | CallCreate _, Some _ => true
  | _, _ => false
  end.

Definition is_download (e : Event) : bool :=
  match call e with CallDownload _ _ _ => true | _ => false end.

Definition is_download_failed (e : Event) : bool :=
  match call e, result e with
  | CallDownload _ _ _, Some _ => true
  | _, _ => false
  end.

Definition is_download_ok (e : Event) : bool :=
  match call e, result e with
  | CallDownload _ _ _, None => true
  | _, _ => false
  end.

(** What a caller can count after [DownloadBucket] has returned: the objects
    fetched in full, the failure lines logged, and the keys given up
    because their directory could not be made. *)
Definition succeeded (w : World) : nat := count_if is_download_ok (trace w).

Definition failed (w : World) : list string := log w.

Definition unmade_directories (w : World) : nat :=
  count_if is_mkdir_failed (trace w).

Definition at_start (g : Goroutine) : bool :=
  match g with saveObject_start _ => true | saveObject_created _ _ => false end.

(** What one iteration of the loop of [DownloadBucket] on [key] can do to
    the world [w]. *)
Inductive iteration_does (baseDir excludePatten key : string) (w : World)
    : bool -> World -> Prop :=
| skips_key :
    kept excludePatten key = false ->
    iteration_does baseDir excludePatten key w false w
| needs_no_directory :
    kept excludePatten key = true ->
    GoString.last_index Path.slash key = None ->
    iteration_does baseDir excludePatten key w true w
| makes_directory (lastIdx : nat) (prefix : string) (n : FS.node) :
    kept excludePatten key = true ->
    GoString.last_index Path.slash key = Some lastIdx ->
    GoString.slice_to key lastIdx = Some prefix ->
    FS.MkdirAll (fs w) (cwd w) (Path.Join [baseDir; prefix]) = inr n ->
    iteration_does baseDir excludePatten key w true
      (add_event {| call := CallMkdirAll (Path.Join [baseDir; prefix]); result := None |}
         (set_fs n w))
| fails_to_make_directory (lastIdx : nat) (prefix : string) (e : error) :
    kept excludePatten key = true ->
    GoString.last_index Path.slash key = Some lastIdx ->
    GoString.slice_to key lastIdx = Some prefix ->
    FS.MkdirAll (fs w) (cwd w) (Path.Join [baseDir; prefix]) = inl e ->
    iteration_does baseDir excludePatten key w false
      (add_event {| call := CallMkdirAll (Path.Join [baseDir; prefix]); result := Some e |}
         w).

(** What one step of a goroutine running [saveObject] can do to the world. *)
Inductive step_does (api : S3.API) (bucket baseDir : string) (w : World)
    : Goroutine -> option Goroutine -> World -> Prop :=
| creates_file (key : string) (n : FS.node) :
    let fileName := Path.Join [baseDir; key] in
    FS.at_path (cwd w) fileName (FS.create (fs w)) = inr n ->
    step_does api bucket baseDir w (saveObject_start key)
      (Some (saveObject_created key fileName))
      (add_event {| call := CallCreate fileName; result := None |} (set_fs n w))
| fails_to_create (key : string) (errno : Errno) :
    let fileName := Path.Join [baseDir; key] in
    let e := PathError "open" fileName errno in
    FS.at_path (cwd w) fileName (FS.create (fs w)) = inl errno ->
    step_does api bucket baseDir w (saveObject_start key) None
      (add_log ("Unable to open file" +:+ Error e)
         (add_event {| call := CallCreate fileName; result := Some e |} w))
| downloads (key fileName body : string) :
    S3.Download api bucket key = S3.Got body ->
    step_does api bucket baseDir w (saveObject_created key fileName) None
      (add_event {| call := CallClose fileName; result := None |}
         (add_event {| call := CallDownload bucket key fileName; result := None |}
            (set_fs (FS.write (fs w) (FS.resolve (cwd w) fileName) body) w)))
| fails_to_download (key fileName written : string) (e : error) :
    S3.Download api bucket key = S3.GetFailed e written ->
    step_does api bucket baseDir w (saveObject_created key fileName) None
      (add_event {| call := CallClose fileName; result := None |}
         (add_log ("Unable to download item:" +:+ Error e)
            (add_event {| call := CallDownload bucket key fileName; result := Some e |}
               (set_fs (FS.write (fs w) (FS.resolve (cwd w) fileName) written) w)))).

Definition is_created (g : Goroutine) : bool := negb (at_start g).

(** The account of the kept keys while the loop and its goroutines run: a
    kept key is still to be visited, or was given up for its directory, or
    has a goroutine that has not yet called [os.Create], or has had its
    [os.Create] call; a file created is being fetched or has had its
    [Download] call; and each failure of the two calls has logged a line. *)
Definition accounted (excludePatten : string) (keys : list string)
    (pend : list string) (gs : list Goroutine) (w : World) : Prop :=
  Forall (fun key => is_Some (Regexp.Match excludePatten key)) pend /\
  unmade_directories w + count_if is_create (trace w) + count_if at_start gs
    + length (kept_keys excludePatten pend) = length (kept_keys excludePatten keys) /\
  count_if is_create (trace w) =
    count_if is_create_failed (trace w) + count_if is_created gs
    + count_if is_download (trace w) /\
  length (log w) =
    count_if is_create_failed (trace w) + count_if is_download_failed (trace w).

(** The names given to [os.Create] and the keys given to [Download] in a
    trace, latest first. *)
Fixpoint created_names (l : list Event) : list string :=
  match l with
  | [] => []
  | e :: l' =>
      match call e with
      | CallCreate name => name :: created_names l'
      | _ => created_names l'
      end
  end.

Fixpoint fetched_keys (l : list Event) : list string :=
  match l with
  | [] => []
  | e :: l' =>
      match call e with
      | CallDownload _ key _ => key :: fetched_keys l'
      | _ => fetched_keys l'
      end
  end.

(** What holds of a call in the trace of a run of [DownloadBucket] in the
    world [w]: a directory is made and a file is created for a kept key
    only, and an object is fetched for a kept key into the file created for
    it, which is there. *)
Definition call_located (bucket baseDir excludePatten : string) (keys : list string)
    (w : World) (e : Event) : Prop :=
  match call e with
  | CallMkdirAll _ =>
      exists key, In key (kept_keys excludePatten keys) /\
                  GoString.last_index Path.slash key <> None
  | CallCreate name =>
      exists key, In key (kept_keys excludePatten keys) /\ name = Path.Join [baseDir; key]
  | CallDownload b key fileName =>
      b = bucket /\ In key (kept_keys excludePatten keys) /\
      fileName = Path.Join [baseDir; key] /\
      In {| call := CallCreate fileName; result := None |} (trace w) /\
      file_at w fileName = true
  | _ => True
  end.

Definition goroutine_located (baseDir excludePatten : string) (keys : list string)
    (w : World) (g : Goroutine) : Prop :=
  match g with
  | saveObject_start key => In key (kept_keys excludePatten keys)
  | saveObject_created key fileName =>
      In key (kept_keys excludePatten keys) /\
      fileName = Path.Join [baseDir; key] /\
      In {| call := CallCreate fileName; result := None |} (trace w) /\
      file_at w fileName = true
  end.

Definition located (bucket baseDir excludePatten : string) (keys : list string)
    (pend : list string) (gs : list Goroutine) (w : World) : Prop :=
  (forall key, In key pend -> In key keys) /\
  Forall (call_located bucket baseDir excludePatten keys w) (trace w) /\
  Forall (goroutine_located baseDir excludePatten keys w) gs.

(** The world [w'] has the trace of [w] and more, and every file of [w]. *)
Definition grows (w w' : World) : Prop :=
  (forall e, In e (trace w) -> In e (trace w')) /\
  (forall name, file_at w name = true -> file_at w' name = true).

(** The calls of one round of the upload loop on a file that opens, in the
    order they are made, and the cause the round adds to the batch. *)
Definition upload_round (api : S3.API) (w : World) (bucket baseDir name : string)
    : list Event :=
  match Path.toKey baseDir name with
  | Some key =>
      [ {| call := CallOpen name; result := None |};
        {| call := CallUpload bucket key; result := upload_error api w bucket key name |};
        {| call := CallClose name; result := None |} ]
  | None => []
  end.

Definition upload_cause (api : S3.API) (w : World) (bucket baseDir name : string)
    : list error :=
  match Path.toKey baseDir name with
  | Some key => option_list (upload_error api w bucket key name)
  | None => []
  end.

(** The causes in the error [UploadBucket] returns. *)
Definition causes (e : option error) : list error :=
  match e with
  | Some (batchError _ _ errs) => map (fun item => item.1.1) errs
  | _ => []
  end.

(** The cause, bucket and key of each entry of a batch error. *)
Definition entries (e : option error) : list (error * string * string) :=
  match e with
  | Some (batchError _ _ errs) => errs
  | _ => []
  end.

(** The key [iter.next.key] holds after [Next] has visited [names] in
    turn, starting from [key]. *)
Definition visited_key (baseDir : string) (names : list string) (key : string) : string :=
  fold_left (fun k name => default k (Path.toKey baseDir name)) names key.

(** The call that ends the loop early, if the paths left start with one. *)
Definition failed_open (w : World) (rest : list string) : list Event :=
  match rest with
  | [] => []
  | name :: _ => [ {| call := CallOpen name; result := open_error w name |} ]
  end.

(** ** Observations on a CloudFormation world *)

(** The requests sent so far, in the order they were sent. *)
Definition sent (w : Cfn.World) : list Cfn.Call :=
  reverse (map Cfn.call (Cfn.trace w)).

(** The value that comes with [key] last in a list of pairs. *)
Fixpoint last_value {V} (pairs : list (string * V)) (key : string) : option V :=
  match pairs with
  | [] => None
  | (k, v) :: rest =>
      match last_value rest key with
      | Some v' => Some v'
      | None => if String.eqb k key then Some v else None
      end
  end.

(** What [convertToRequiredCfnParameter] makes of one entry of the
    template. *)
Definition required_entry (parameters : gmap string string)
    (e : string * option string) : option Cfn.CfnParameter :=
  (fun value => {| Cfn.ParameterKey := e.1; Cfn.ParameterValue := value |})
    <$> parameters !! e.1.

(** The outputs of the stacks of an answer of [DescribeStacks], in order. *)
Definition outputs_of (stacks : list Cfn.StackDescription) : list Cfn.Output :=
  concat (map Cfn.Outputs stacks).

(** An output as a pair, when neither its key nor its value is nil. *)
Definition output_pair (o : Cfn.Output) : option (string * string) :=
  match Cfn.OutputKey o, Cfn.OutputValue o with
  | Some key, Some value => Some (key, value)
  | _, _ => None
  end.

(** A template parameter as a pair, when its key is not nil. *)
Definition template_pair (tp : Cfn.TemplateParameter) : option (string * option string) :=
  match Cfn.tp_ParameterKey tp with
  | Some key => Some (key, Cfn.tp_DefaultValue tp)
  | None => None
  end.

(** The name of a directory entry: not empty, without a slash, and neither
    ["."] nor [".."]. *)
Definition entry_name (name : string) : Prop :=
  contains Path.slash name = false /\ name <> "" /\ name <> "." /\ name <> "..".
(** An outcome, a return or a panic, whose world has the local files, the
    working directory and the log of [w]. *)
Definition unchanged {A} (w : World) (o : Outcome A) : Prop :=
  match o with
  | Returned _ w' | Panicked _ w' => fs w' = fs w /\ cwd w' = cwd w /\ log w' = log w
  | Unmodelled => False
  end.

(** The contents of the regular file at [p], if there is one. *)
Definition file_data (n : FS.node) (p : list string) : option string :=
  match FS.lookup n p with
  | inr (FS.File _ _ data) => Some data
  | _ => None
  end.

(** What reading the file [name] to its end gives in the world. *)
Definition read_file (w : World) (name : string) : option string :=
  file_data (fs w) (FS.resolve (cwd w) name).

(** What a [Download] call has written to its file when it returns. *)
Definition written_by (r : S3.GetResult) : string :=
  match r with
  | S3.Got body => body
  | S3.GetFailed _ written => written
  end.

(** The place in the file system of the file [saveObject] writes a key to,
    for a process with the working directory [cwd]. *)
Definition place (cwd : list string) (baseDir key : string) : list string :=
  FS.resolve cwd (Path.Join [baseDir; key]).

(** The names of the files that [os.Create] has opened and the names given
    to [Download], in a trace. *)
Definition opened_names (t : list Event) : list string :=
  flat_map (fun e => match call e, result e with
                     | CallCreate name, None => [name]
                     | _, _ => []
                     end) t.

Definition downloaded_names (t : list Event) : list string :=
  flat_map (fun e => match call e with
                     | CallDownload _ _ fileName => [fileName]
                     | _ => []
                     end) t.

(** The keys of the goroutines that have not called [os.Create] yet, and
    the files of those that hold one open. *)
Definition start_keys (gs : list Goroutine) : list string :=
  flat_map (fun g => match g with
                     | saveObject_start key => [key]
                     | saveObject_created _ _ => []
                     end) gs.

Definition open_files (gs : list Goroutine) : list string :=
  flat_map (fun g => match g with
                     | saveObject_start _ => []
                     | saveObject_created _ fileName => [fileName]
                     end) gs.

(** The error a [Download] call returns. *)
Definition download_error (r : S3.GetResult) : option error :=
  match r with
  | S3.Got _ => None
  | S3.GetFailed e _ => Some e
  end.

(** A [Download] call of the trace that returned what the store answers
    and whose file holds what the call wrote. *)
Definition holds_download (api : S3.API) (w : World) (e : Event) : Prop :=
  match call e with
  | CallDownload b key fileName =>
      result e = download_error (S3.Download api b key) /\
      read_file w fileName = Some (written_by (S3.Download api b key))
  | _ => True
  end.

(** While the loop and its goroutines run on keys with places of their
    own: the keys still to come, the goroutines before [os.Create] and the
    files opened so far are at different places; a file opened is held by a
    goroutine or has had its [Download] call; the files held exist; and a
    file that has had its [Download] call holds what the call wrote. *)
Definition delivered (api : S3.API) (cwd0 : list string) (baseDir excludePatten : string)
    (pend : list string) (gs : list Goroutine) (w : World) : Prop :=
  Forall (fun key => is_Some (Regexp.Match excludePatten key)) pend /\
  cwd w = cwd0 /\
  NoDup (map (place cwd0 baseDir) (kept_keys excludePatten pend ++ start_keys gs)
         ++ map (FS.resolve cwd0) (opened_names (trace w))) /\
  opened_names (trace w) ≡ₚ open_files gs ++ downloaded_names (trace w) /\
  Forall (fun g => match g with
                   | saveObject_start _ => True
                   | saveObject_created key fileName =>
                       fileName = Path.Join [baseDir; key] /\ file_at w fileName = true
                   end) gs /\
  Forall (holds_download api w) (trace w).

(** While the loop and its goroutines run: a file of the world [w0] at the
    start that is at the place of no kept key still has its contents. *)
Definition untouched (bucket baseDir excludePatten : string) (keys : list string)
    (w0 : World) (pend : list string) (gs : list Goroutine) (w : World) : Prop :=
  located bucket baseDir excludePatten keys pend gs w /\
  cwd w = cwd w0 /\
  forall (q : list string) (d : string),
    ~ In q (map (place (cwd w0) baseDir) (kept_keys excludePatten keys)) ->
    file_data (fs w0) q = Some d -> file_data (fs w) q = Some d.

(** Whether [p] names a directory in the tree, and [name] one in the
    world. *)
Definition is_dir (n : FS.node) (p : list string) : bool :=
  match FS.lookup n p with
  | inr (FS.Dir _ _ _) => true
  | _ => false
  end.

Definition dir_at (w : World) (name : string) : bool :=
  is_dir (fs w) (FS.resolve (cwd w) name).

(** A key with a directory part: a prefix, a slash and the name of an
    entry, where the prefix does not lead back to the root or to the
    working directory. *)
Definition in_directory (baseDir key : string) : Prop :=
  exists prefix last,
    key = prefix +:+ "/" +:+ last /\ entry_name last /\
    Path.Join [baseDir; prefix] <> "." /\ Path.Join [baseDir; prefix] <> "/".

(** A goroutine before [os.Create] whose directory is there. *)
Definition has_directory (baseDir : string) (w : World) (g : Goroutine) : Prop :=
  match g with
  | saveObject_start key =>
      forall prefix last,
        key = prefix +:+ "/" +:+ last -> entry_name last ->
        dir_at w (Path.Join [baseDir; prefix]) = true
  | saveObject_created _ _ => True
  end.

(** An [os.Create] call that did not fail for a missing directory. *)
Definition create_found_directory (e : Event) : Prop :=
  match call e, result e with
  | CallCreate name, Some err =>
      err = PathError "open" name EACCES \/ err = PathError "open" name EISDIR
  | _, _ => True
  end.

(** While the loop and its goroutines run on keys with a directory part:
    each goroutine before [os.Create] has its directory, and no
    [os.Create] has failed for a missing one. *)
Definition housed (bucket baseDir excludePatten : string) (keys : list string)
    (cwd0 : list string) (pend : list string) (gs : list Goroutine) (w : World) : Prop :=
  located bucket baseDir excludePatten keys pend gs w /\
  cwd w = cwd0 /\
  Forall (has_directory baseDir w) gs /\
  Forall create_found_directory (trace w).

(** ** Sample inputs *)

(** The input of [TestFindMissingParametresFail], in the order of
    [map_to_list]. *)
Definition test_requiredParam : gmap string (option string) :=
  <["key1" := Some "defValue1"]> (<["key2" := None]> (<["key3" := None]>
    (<["key4" := None]> ∅))).

Definition test_parameters : gmap string string := <["key2" := "value2"]> ∅.

(** A store that lists three keys and serves every object. *)
Definition sample_store : S3.API :=
  {| S3.ListObjectsV2 := fun _ => inr ["a.txt"; "b.tmp"; "c/d.tmp"];
     S3.Download := fun _ key => S3.Got ("contents of " +:+ key);
     S3.Upload := fun _ _ _ => None |}.

(** A world with an empty, writable directory [/out], which is reached as
    [out] from the working directory [/]. *)
Definition sample_world : World :=
  {| fs := FS.Dir true true [("out", FS.Dir true true [])];
     cwd := [];
     new_session := fun _ => inr sample_store;
     trace := [];
     log := [] |}.

(** A world whose root directory is empty and cannot be written to, and a
    store that lists one key below a prefix. *)
Definition locked_world : World :=
  {| fs := FS.Dir true false [];
     cwd := [];
     new_session := fun _ =>
       inr {| S3.ListObjectsV2 := fun _ => inr ["logs/app.txt"];
              S3.Download := fun _ key => S3.Got ("contents of " +:+ key);
              S3.Upload := fun _ _ _ => None |};
     trace := [];
     log := [] |}.

(** A store whose connection breaks while ["a.txt"] is fetched, after three
    bytes have been written, and the sample world with this store. *)
Definition flaky_store : S3.API :=
  {| S3.ListObjectsV2 := fun _ => inr ["a.txt"; "b.tmp"; "c/d.tmp"];
     S3.Download := fun _ key =>
       if String.eqb key "a.txt"
       then S3.GetFailed (awsError "RequestError" "connection reset") "con"
       else S3.Got ("contents of " +:+ key);
     S3.Upload := fun _ _ _ => None |}.

Definition flaky_world : World :=
  {| fs := FS.Dir true true [("out", FS.Dir true true [])];
     cwd := [];
     new_session := fun _ => inr flaky_store;
     trace := [];
     log := [] |}.

(** A store that refuses the key ["b.txt"]. *)
Definition picky_store : S3.API :=
  {| S3.ListObjectsV2 := fun _ => inr [];
     S3.Download := fun _ key => S3.Got ("contents of " +:+ key);
     S3.Upload := fun _ key _ =>
       if String.eqb key "b.txt" then Some (awsError "AccessDenied" "Access Denied")
       else None |}.

(** A world with three directories to upload: [/data], whose first file
    cannot be read; [/mixed], whose third file cannot be read; and
    [/sealed], which cannot be read itself. *)
Definition upload_world : World :=
  {| fs := FS.Dir true true
       [("data", FS.Dir true true
           [("a.txt", FS.File false true "A"); ("b.txt", FS.File true true "B")]);
        ("mixed", FS.Dir true true
           [("b.txt", FS.File true true "B"); ("c.txt", FS.File true true "C");
            ("d.txt", FS.File false true "D"); ("e.txt", FS.File true true "E")]);
        ("sealed", FS.Dir false true [("c.txt", FS.File true true "C")])];
     cwd := [];
     new_session := fun _ => inr picky_store;
     trace := [];
     log := [] |}.

(** A template with a required parameter and one with a default, a client
    that knows the stack ["app"] only, and a world that reaches it. *)
Definition sample_template : list Cfn.TemplateParameter :=
  [ {| Cfn.tp_ParameterKey := Some "Env"; Cfn.tp_DefaultValue := None |};
    {| Cfn.tp_ParameterKey := Some "Size"; Cfn.tp_DefaultValue := Some "small" |} ].

Definition sample_outputs : list Cfn.Output :=
  [ {| Cfn.OutputKey := Some "Url"; Cfn.OutputValue := Some "https://old" |};
    {| Cfn.OutputKey := Some "Arn"; Cfn.OutputValue := Some "arn:app" |};
    {| Cfn.OutputKey := Some "Url"; Cfn.OutputValue := Some "https://app" |} ].

Definition sample_cfn : Cfn.API :=
  {| Cfn.iface.ValidateTemplate := fun _ => inr sample_template;
     Cfn.iface.DescribeStacks := fun stackName =>
       if String.eqb stackName "app" then inr [ {| Cfn.Outputs := sample_outputs |} ]
       else inl (awsError "ValidationError" "Stack does not exist");
     Cfn.iface.CreateStack := fun _ => None;
     Cfn.iface.WaitUntilStackCreateComplete := fun _ => None;
     Cfn.iface.CreateChangeSet := fun _ => None;
     Cfn.iface.ListStacks := fun _ =>
       inr [ {| Cfn.StackName := Some "app";
                Cfn.StackStatus := Some "CREATE_COMPLETE" |} ] |}.

Definition sample_cfn_world : Cfn.World :=
  {| Cfn.new_session := fun _ => inr sample_cfn;
     Cfn.range := fun V _ m => map_to_list m;
     Cfn.range_order := fun V _ m => Permutation_refl (map_to_list m);
     Cfn.now := "20261031101500";
     Cfn.trace := []; Cfn.log := []; Cfn.stdout := [] |}.

Definition sample_stack (name : string) : Cfn.Stack :=
  {| Cfn.Cfn := Some sample_cfn; Cfn.Name := name;
     Cfn.TemplateURL := "https://templates/app.yaml";
     Cfn.Capabilities := ["CAPABILITY_IAM"]; Cfn.Status := None |}.

Definition sample_template_map : gmap string (option string) :=
  {[ "Env" := None; "Size" := Some "small" ]}.

(** A client whose answer to [DescribeStacks] has an output without a
    value, and a stack that uses it. *)
Definition nil_value_cfn : Cfn.API :=
  {| Cfn.iface.ValidateTemplate := fun _ => inr [];
     Cfn.iface.DescribeStacks := fun _ =>
       inr [ {| Cfn.Outputs :=
                  [ {| Cfn.OutputKey := Some "Url"; Cfn.OutputValue := None |} ] |} ];
     Cfn.iface.CreateStack := fun _ => None;
     Cfn.iface.WaitUntilStackCreateComplete := fun _ => None;
     Cfn.iface.CreateChangeSet := fun _ => None;
     Cfn.iface.ListStacks := fun _ => inr [] |}.

Definition nil_value_stack : Cfn.Stack :=
  {| Cfn.Cfn := Some nil_value_cfn; Cfn.Name := "app"; Cfn.TemplateURL := "";
     Cfn.Capabilities := []; Cfn.Status := None |}.

(** A world with three parameter files: one with lines ended the DOS way,
    one with an empty line, and a directory. *)
Definition params_world : World :=
  {| fs := FS.Dir true true
             [("app.env", FS.File true true
                 (write_lines crlf ["Env=prod"; "Size=large"; "Env=test"]));
              ("gap.env", FS.File true true
                 (write_lines line_feed ["Env=prod"; ""; "Size=large"]));
              ("conf", FS.Dir true true [])];
     cwd := [];
     new_session := fun _ => inr sample_store;
     trace := []; log := [] |}.

(** A base directory with a file, a directory below it, a directory that
    cannot be read and an empty one. *)
Definition site_tree : FS.node :=
  FS.Dir true true
    [("index.html", FS.File true true "<html>");
     ("img", FS.Dir true true [("logo.png", FS.File true true "PNG")]);
     ("private", FS.Dir false true [("key.pem", FS.File true true "KEY")]);
     ("empty", FS.Dir true true [])].

Definition tree_world : World :=
  {| fs := FS.Dir true true [("site", site_tree)];
     cwd := [];
     new_session := fun _ => inr sample_store;
     trace := []; log := [] |}.

(** A store that lists one object under two spellings of its key, which
    [path.Join] sends to the same file. *)
Definition twin_store : S3.API :=
  {| S3.ListObjectsV2 := fun _ => inr ["a.txt"; "./a.txt"];
     S3.Download := fun _ key => S3.Got ("contents of " +:+ key);
     S3.Upload := fun _ _ _ => None |}.

Definition twin_world : World :=
  {| fs := FS.Dir true true [("out", FS.Dir true true [])];
     cwd := [];
     new_session := fun _ => inr twin_store;
     trace := [];
     log := [] |}.

(** * Properties *)

Example Clean_examples :
  Path.Clean "a//b/./c/.." = "a/b" /\ Path.Clean "./d" = "d" /\
  Path.Clean "/../a" = "/a" /\ Path.Clean "../../x" = "../../x" /\
  Path.Clean "a/.." = "." /\ Path.Clean "/" = "/" /\ Path.Clean "" = ".".
Proof. repeat split. Qed.

Example toKey_example : Path.toKey "baseDir" "baseDir/a/b.txt" = Some "a/b.txt".
Proof. reflexivity. Qed.

Example toLocalPath_example : Path.toLocalPath "baseDir" "a/b.txt" = "baseDir/a/b.txt".
Proof. reflexivity. Qed.

(** ** Go strings *)

Section GoStringFacts.

Lemma slice_from_app (p s : string) :
  GoString.slice_from (p +:+ s) (String.length p) = Some s.
Proof. induction p as [|c p IH]; [by destruct s|exact IH]. Qed.

Lemma string_app_cons (x : ascii) (a b : string) :
  String x a +:+ b = String x (a +:+ b).
Proof. reflexivity. Qed.

Lemma string_app_assoc (a b c : string) : (a +:+ b) +:+ c = a +:+ (b +:+ c).
Proof.
  induction a as [|x a IH]; [done|].
  by rewrite !string_app_cons, IH.
Qed.

Lemma last_index_lt (sep : ascii) (s : string) (i : nat) :
  GoString.last_index sep s = Some i -> i < String.length s.
Proof.
  revert i. induction s as [|c s IH]; intros i; simpl; [done|].
  destruct (GoString.last_index sep s) as [j|].
  - intros [= <-]. specialize (IH j eq_refl). lia.
  - destruct (Ascii.eqb c sep); intros [= <-]. lia.
Qed.

Lemma slice_to_is_Some (s : string) (n : nat) :
  n <= String.length s -> is_Some (GoString.slice_to s n).
Proof.
  revert n. induction s as [|c s IH]; intros [|n] Hn; simpl in *; eauto; [lia|].
  destruct (IH n) as [x ->]; [lia|]. simpl. eauto.
Qed.

End GoStringFacts.

(** ** Stack parameters *)

Section ParamsFacts.

Variable parameters : gmap string string.

Lemma elem_of_missing_of (entries : list (string * option string)) (key : string) :
  key ∈ Params.missing_of entries parameters <->
  (key, None) ∈ entries /\ parameters !! key = None.
Proof.
  induction entries as [|[k d] rest IH]; simpl.
  - rewrite !elem_of_nil. tauto.
  - destruct (parameters !! k) as [v|] eqn:Hk; destruct d as [d|];
      rewrite ?elem_of_cons, IH.
    + split; [tauto|]. intros [[[= -> ]|?] ?]; tauto.
    + split; [tauto|]. intros [[[= -> ]|?] ?]; [congruence|tauto].
    + split; [tauto|]. intros [[[= -> ]|?] ?]; tauto.
    + split.
      * intros [->|[? ?]]; split; auto.
      * intros [[[= ->]|?] ?]; auto.
Qed.

Lemma findMissingParametres_in_error (entries : list (string * option string)) :
  is_Some (Params.findMissingParametres_in entries parameters) <->
  exists key, (key, None) ∈ entries /\ parameters !! key = None.
Proof.
  unfold Params.findMissingParametres_in.
  destruct (Params.missing_of entries parameters) as [|k l] eqn:Hm; simpl.
  - split; [intros [? ?]; discriminate|].
    intros [key Hkey]. apply elem_of_missing_of in Hkey.
    rewrite Hm in Hkey. by apply elem_of_nil in Hkey.
  - split; [intros _|eauto].
    exists k. apply elem_of_missing_of. rewrite Hm. left.
Qed.

End ParamsFacts.

(** C8. [findMissingParametres] returns an error if and only if some key of
    [templateParam] has a nil default and is absent from [parameters]; so
    it returns nil when every key is covered by a value or a default. This
    holds in whatever order [entries] the [range] loop visits the map. *)
Theorem findMissingParametres_error_iff
    (templateParam : gmap string (option string)) (parameters : gmap string string)
    (entries : list (string * option string)) :
  entries ≡ₚ map_to_list templateParam ->
  (is_Some (Params.findMissingParametres_in entries parameters) <->
   exists key, templateParam !! key = Some None /\ parameters !! key = None).
Proof.
  intros Hperm. rewrite findMissingParametres_in_error.
  split; intros [key [Hin Hp]]; exists key; split; try done.
  - apply elem_of_map_to_list. by rewrite <- Hperm.
  - rewrite Hperm. by apply elem_of_map_to_list.
Qed.

Lemma findMissingParametres_error_iff_witness :
  map_to_list test_requiredParam ≡ₚ map_to_list test_requiredParam /\
  (is_Some (Params.findMissingParametres_in (map_to_list test_requiredParam)
              test_parameters) <->
   exists key, test_requiredParam !! key = Some None /\ test_parameters !! key = None).
Proof.
  split; [reflexivity|].
  apply (findMissingParametres_error_iff test_requiredParam test_parameters).
  reflexivity.
Defined.

(** [findMissingParametres] in the order of [map_to_list]. *)
Corollary findMissingParametres_error
    (templateParam : gmap string (option string)) (parameters : gmap string string) :
  is_Some (Params.findMissingParametres templateParam parameters) <->
  exists key, templateParam !! key = Some None /\ parameters !! key = None.
Proof.
  unfold Params.findMissingParametres. rewrite findMissingParametres_in_error.
  split; intros [key [Hin Hp]]; exists key; split; try done;
    by apply elem_of_map_to_list.
Qed.

(** [TestFindMissingParametresFail] expects the message below, which is the
    one of an iteration that visits ["key3"] before ["key4"]; the other
    order gives the keys the other way round. *)
Example findMissingParametres_messages :
  Params.findMissingParametres_in
    [("key1", Some "defValue1"); ("key2", None); ("key3", None); ("key4", None)]
    test_parameters = Some (errorString "Missing: [key3,key4]") /\
  Params.findMissingParametres_in
    [("key4", None); ("key3", None); ("key2", None); ("key1", Some "defValue1")]
    test_parameters = Some (errorString "Missing: [key4,key3]").
Proof. split; reflexivity. Qed.

(** [TestFindMissingParametresSuccess]: every key has a value. *)
Example findMissingParametres_success :
  Params.findMissingParametres
    (<["key1" := Some "defValue1"]> (<["key2" := Some "defValue2"]>
       (<["key3" := None]> (<["key4" := None]> ∅))))
    (<["key1" := "value1"]> (<["key2" := "value2"]> (<["key3" := "value3"]>
       (<["key4" := "value4"]> ∅)))) = None.
Proof. reflexivity. Qed.

(** ** Path mapping *)

Section PathFacts.

Lemma toKey_under (baseDir rel : string) :
  Path.toKey baseDir (baseDir +:+ "/" +:+ rel) = Some rel.
Proof.
  unfold Path.toKey, Path.ToSlash.
  rewrite <- string_app_assoc. apply slice_from_app.
Qed.

Lemma Join_pair (baseDir key : string) :
  baseDir <> "" ->
  Path.Join [baseDir; key] = Path.Clean (baseDir +:+ "/" +:+ key).
Proof.
  intros Hne. simpl. destruct (String.eqb_spec baseDir ""); [done|].
  reflexivity.
Qed.

End PathFacts.

(** C6, as the spec states it, fails: below the base directory ["./d"] the
    file ["./d/a.txt"] has the key ["a.txt"], which [path.Join] maps to the
    local name ["d/a.txt"], and [toKey] cuts that name to ["txt"]. *)
Lemma toKey_toLocalPath_not_idempotent :
  Path.toKey "./d" "./d/a.txt" = Some "a.txt" /\
  Path.toLocalPath "./d" "a.txt" = "d/a.txt" /\
  Path.toKey "./d" (Path.toLocalPath "./d" "a.txt") = Some "txt".
Proof. repeat split. Qed.

(** C6, amended. For a base directory that is not empty and a file name
    [baseDir/rel] that [path.Clean] leaves as it is, the key of the file is
    [rel], and mapping the key to its local name and back gives [rel]
    again. *)
Theorem toKey_toLocalPath_idempotent (baseDir rel : string) :
  baseDir <> "" ->
  Path.Clean (baseDir +:+ "/" +:+ rel) = baseDir +:+ "/" +:+ rel ->
  Path.toKey baseDir (baseDir +:+ "/" +:+ rel) = Some rel /\
  Path.toKey baseDir (Path.toLocalPath baseDir rel) = Some rel.
Proof.
  intros Hne Hclean. split; [apply toKey_under|].
  unfold Path.toLocalPath. rewrite Join_pair by done.
  rewrite Hclean. apply toKey_under.
Qed.

Lemma toKey_toLocalPath_idempotent_witness :
  Path.toKey "baseDir" ("baseDir" +:+ "/" +:+ "a/b.txt") = Some "a/b.txt" /\
  Path.toKey "baseDir" (Path.toLocalPath "baseDir" "a/b.txt") = Some "a/b.txt".
Proof.
  apply (toKey_toLocalPath_idempotent "baseDir" "a/b.txt"); [discriminate|reflexivity].
Defined.

(** ** The file system: files stay *)

Section FSFacts.

Lemma get_set_entry_eq (name : string) (x : FS.node) (es : list (string * FS.node)) :
  FS.get_entry name (FS.set_entry name x es) = Some x.
Proof.
  induction es as [|[n y] es IH]; simpl.
  - by rewrite String.eqb_refl.
  - destruct (String.eqb n name) eqn:E; simpl; rewrite E; [done|exact IH].
Qed.

Lemma get_set_entry_ne (name name' : string) (x : FS.node) (es : list (string * FS.node)) :
  name <> name' ->
  FS.get_entry name' (FS.set_entry name x es) = FS.get_entry name' es.
Proof.
  intros Hne. induction es as [|[n y] es IH]; simpl.
  - destruct (String.eqb_spec name name'); [done|reflexivity].
  - destruct (String.eqb_spec n name) as [->|Hn]; simpl.
    + destruct (String.eqb_spec name name'); [done|reflexivity].
    + destruct (String.eqb_spec n name'); [done|exact IH].
Qed.

(** A file named by [q] in [n], seen through a directory in which the entry
    [name] was replaced by a node that keeps the files of the old entry. *)
Lemma is_file_set_entry (r w r' w' : bool) (es : list (string * FS.node))
    (name : string) (x' : FS.node) (q : list string) :
  (forall q', match FS.get_entry name es with
              | Some x => is_file x q' = true -> is_file x' q' = true
              | None => True
              end) ->
  is_file (FS.Dir r w es) q = true ->
  is_file (FS.Dir r' w' (FS.set_entry name x' es)) q = true.
Proof.
  intros Hsub. destruct q as [|name' q']; [done|].
  unfold is_file. simpl.
  destruct (String.eqb_spec name name') as [<-|Hne].
  - rewrite get_set_entry_eq. specialize (Hsub q').
    destruct (FS.get_entry name es) as [x|]; [exact Hsub|done].
  - by rewrite get_set_entry_ne.
Qed.

Lemma create_keeps_files (p : list string) :
  forall (n n' : FS.node) (q : list string),
    FS.create n p = inr n' -> is_file n q = true -> is_file n' q = true.
Proof.
  induction p as [|name p IH]; intros n n' q Hc Hq.
  - destruct n as [r w d|r w es]; simpl in Hc; [|done].
    destruct (r && w); [|done]. injection Hc as <-.
    destruct q; [done|]. by unfold is_file in *.
  - destruct n as [r w d|r w es]; simpl in Hc; [done|].
    destruct (FS.get_entry name es) as [x|] eqn:Hx.
    + destruct (FS.create x p) as [e|x'] eqn:Hcx; [done|]. injection Hc as <-.
      eapply is_file_set_entry; [|exact Hq].
      intros q'. rewrite Hx. by apply IH.
    + destruct p; [|done]. destruct w; [|done]. injection Hc as <-.
      eapply is_file_set_entry; [|exact Hq]. intros q'. by rewrite Hx.
Qed.

Lemma create_makes_file (p : list string) :
  forall (n n' : FS.node), FS.create n p = inr n' -> is_file n' p = true.
Proof.
  induction p as [|name p IH]; intros n n' Hc.
  - destruct n as [r w d|r w es]; simpl in Hc; [|done].
    destruct (r && w); [|done]. by injection Hc as <-.
  - destruct n as [r w d|r w es]; simpl in Hc; [done|].
    destruct (FS.get_entry name es) as [x|] eqn:Hx.
    + destruct (FS.create x p) as [e|x'] eqn:Hcx; [done|]. injection Hc as <-.
      unfold is_file. simpl. rewrite get_set_entry_eq. by apply (IH x).
    + destruct p; [|done]. destruct w; [|done]. injection Hc as <-.
      unfold is_file. simpl. by rewrite get_set_entry_eq.
Qed.

Lemma mkdir_keeps_files (p : list string) :
  forall (n n' : FS.node) (q : list string),
    FS.mkdir n p = inr n' -> is_file n q = true -> is_file n' q = true.
Proof.
  induction p as [|name p IH]; intros n n' q Hm Hq; [done|].
  destruct n as [r w d|r w es]; simpl in Hm; [done|].
  destruct (FS.get_entry name es) as [x|] eqn:Hx; destruct p as [|name' p]; try done.
  - destruct (FS.mkdir x (name' :: p)) as [e|x'] eqn:Hmx; [done|]. injection Hm as <-.
    eapply is_file_set_entry; [|exact Hq].
    intros q'. rewrite Hx. by apply IH.
  - destruct w; [|done]. injection Hm as <-.
    eapply is_file_set_entry; [|exact Hq]. intros q'. by rewrite Hx.
Qed.

Lemma mkdirAll_chain_keeps_files (cwd : list string) (chain : list string) :
  forall (n n' : FS.node) (q : list string),
    FS.mkdirAll_chain n cwd chain = inr n' -> is_file n q = true -> is_file n' q = true.
Proof.
  induction chain as [|path parents IH]; intros n n' q Hm Hq; simpl in Hm.
  - by injection Hm as <-.
  - destruct (FS.at_path cwd path (FS.lookup n)) as [errno|[r w d|r w es]];
      [|done|by injection Hm as <-].
    destruct (FS.mkdirAll_chain n cwd parents) as [e|n1] eqn:Hparents; [done|].
    pose proof (IH n n1 q Hparents Hq) as Hq1.
    unfold FS.at_path in Hm. destruct (FS.locate cwd path) as [e|at_]; [done|].
    destruct (FS.mkdir n1 at_) as [errno'|n2] eqn:Hmk.
    + destruct (FS.lookup n1 at_) as [?|[? ? ?|? ? ?]]; [done..|]. by injection Hm as <-.
    + injection Hm as <-. by eapply mkdir_keeps_files.
Qed.

Lemma MkdirAll_keeps_files (cwd : list string) (path : string) (n n' : FS.node)
    (q : list string) :
  FS.MkdirAll n cwd path = inr n' -> is_file n q = true -> is_file n' q = true.
Proof. apply mkdirAll_chain_keeps_files. Qed.

Lemma write_keeps_files (p : list string) :
  forall (n : FS.node) (data : string) (q : list string),
    is_file n q = true -> is_file (FS.write n p data) q = true.
Proof.
  induction p as [|name p IH]; intros n data q Hq.
  - destruct n as [r w d|r w es]; simpl; [|done].
    destruct q; [done|]. by unfold is_file in *.
  - destruct n as [r w d|r w es]; simpl; [done|].
    destruct (FS.get_entry name es) as [x|] eqn:Hx; [|done].
    eapply is_file_set_entry; [|exact Hq].
    intros q'. rewrite Hx. by apply IH.
Qed.

End FSFacts.

(** ** The loop of [DownloadBucket] and its goroutines *)

#[global] Arguments Path.Join : simpl never.
#[global] Arguments Path.Clean : simpl never.
#[global] Arguments FS.resolve : simpl never.

Section Steps.

Variables (api : S3.API) (bucket baseDir excludePatten : string).

Lemma kept_true (key : string) :
  kept excludePatten key = true <-> Regexp.Match excludePatten key = Some (false, None).
Proof.
  unfold kept. destruct (Regexp.Match excludePatten key) as [[[|] [e|]]|]; simpl;
    split; congruence.
Qed.

Lemma iteration_returns (key : string) (w : World) :
  is_Some (Regexp.Match excludePatten key) ->
  exists go w',
    DownloadBucket_iteration baseDir excludePatten key w = Returned go w' /\
    iteration_does baseDir excludePatten key w go w'.
Proof.
  intros [[matched e] Hm].
  destruct (kept excludePatten key) eqn:Hk.
  - pose proof (proj1 (kept_true key) Hk) as Hm'.
    unfold DownloadBucket_iteration. rewrite Hm'. simpl.
    unfold mbind, M_bind, bind, mkDirIfNeeded.
    destruct (GoString.last_index Path.slash key) as [i|] eqn:Hi.
    + destruct (slice_to_is_Some key i) as [prefix Hp].
      { apply last_index_lt in Hi. lia. }
      rewrite Hp. unfold os_MkdirAll.
      destruct (FS.MkdirAll (fs w) (cwd w) (Path.Join [baseDir; prefix]))
        as [e'|n] eqn:Hmk; simpl; do 2 eexists; (split; [reflexivity|]).
      * by eapply fails_to_make_directory.
      * by eapply makes_directory.
    + simpl. do 2 eexists. split; [reflexivity|]. by apply needs_no_directory.
  - exists false, w. split; [|by apply skips_key].
    unfold DownloadBucket_iteration. rewrite Hm.
    unfold kept in Hk. rewrite Hm in Hk.
    destruct (is_Some_b e || matched); [reflexivity|discriminate].
Qed.

Lemma step_returns (g : Goroutine) (w : World) :
  exists r w',
    saveObject_step api bucket baseDir g w = Returned r w' /\
    step_does api bucket baseDir w g r w'.
Proof.
  destruct g as [key|key fileName]; simpl.
  - unfold mbind, M_bind, bind, os_Create.
    destruct (FS.at_path (cwd w) (Path.Join [baseDir; key]) (FS.create (fs w)))
      as [errno|n] eqn:Hc; simpl; do 2 eexists; (split; [reflexivity|]).
    + by apply fails_to_create.
    + by apply creates_file.
  - unfold mbind, M_bind, bind, downloader_Download.
    destruct (S3.Download api bucket key) as [body|e written] eqn:Hd; simpl;
      do 2 eexists; (split; [reflexivity|]).
    + by apply downloads.
    + by apply fails_to_download.
Qed.

Lemma created_step_ends (key fileName : string) (w : World) (r : option Goroutine)
    (w' : World) :
  step_does api bucket baseDir w (saveObject_created key fileName) r w' -> r = None.
Proof. by inversion 1. Qed.

End Steps.

Lemma bind_returned {A B} (m : M A) (k : A -> M B) (w w' : World) (a : A) :
  m w = Returned a w' -> (m ≫= k) w = k a w'.
Proof. intros H. unfold mbind, M_bind, bind. by rewrite H. Qed.

(** An invariant of the loop and its goroutines holds when [wg.Wait]
    returns, whatever the schedule, if each iteration and each step of a
    goroutine keeps it; and [wg.Wait] does return. *)
Section Runs.

Variables (api : S3.API) (bucket baseDir excludePatten : string).
Variable P : list string -> list Goroutine -> World -> Prop.

Hypothesis P_modelled : forall key rest gs w,
  P (key :: rest) gs w -> is_Some (Regexp.Match excludePatten key).

Hypothesis P_iteration : forall key rest gs w go w',
  P (key :: rest) gs w ->
  iteration_does baseDir excludePatten key w go w' ->
  P rest (gs ++ (if go : bool then [saveObject_start key] else [])) w'.

Hypothesis P_step : forall pend gs1 g gs2 w r w',
  P pend (gs1 ++ g :: gs2) w ->
  step_does api bucket baseDir w g r w' ->
  P pend (gs1 ++ option_list r ++ gs2) w'.

Let iteration := DownloadBucket_iteration baseDir excludePatten.
Let step := saveObject_step api bucket baseDir.

Lemma loop_step_invariant (pend : list string) (gs : list Goroutine) (w : World) :
  P pend gs w ->
  exists t' w', loop_step iteration {| pending := pend; running := gs |} w = Returned t' w' /\
                P (pending t') (running t') w'.
Proof.
  intros HP. unfold loop_step, iteration. destruct pend as [|key rest]; simpl.
  - by exists {| pending := []; running := gs |}, w.
  - destruct (iteration_returns baseDir excludePatten key w) as (go & w' & Hrun & Hdoes).
    { by eapply P_modelled. }
    erewrite bind_returned by exact Hrun.
    eexists _, w'. split; [reflexivity|]. simpl. by eapply P_iteration.
Qed.

Lemma goroutine_step_invariant (i : nat) (pend : list string) (gs : list Goroutine)
    (w : World) :
  P pend gs w ->
  exists t' w', goroutine_step step i {| pending := pend; running := gs |} w = Returned t' w' /\
                P (pending t') (running t') w'.
Proof.
  intros HP. unfold goroutine_step, step. simpl.
  destruct (gs !! i) as [g|] eqn:Hg.
  - destruct (step_returns api bucket baseDir g w) as (r & w' & Hrun & Hdoes).
    erewrite bind_returned by exact Hrun.
    eexists _, w'. split; [reflexivity|]. simpl.
    rewrite <- (take_drop_middle gs i g Hg) in HP.
    pose proof (P_step _ _ _ _ _ _ _ HP Hdoes) as HP'.
    destruct r as [g'|]; simpl in HP'.
    + rewrite insert_take_drop by (by eapply lookup_lt_Some). exact HP'.
    + rewrite delete_take_drop. exact HP'.
  - by exists {| pending := pend; running := gs |}, w.
Qed.

Lemma run_schedule_invariant (sched : list nat) :
  forall (pend : list string) (gs : list Goroutine) (w : World),
    P pend gs w ->
    exists t' w',
      run_schedule iteration step sched {| pending := pend; running := gs |} w
        = Returned t' w' /\
      P (pending t') (running t') w'.
Proof.
  induction sched as [|n sched IH]; intros pend gs w HP; simpl.
  - by exists {| pending := pend; running := gs |}, w.
  - assert (exists t' w', tick iteration step n {| pending := pend; running := gs |} w
                          = Returned t' w' /\ P (pending t') (running t') w')
      as ([pend' gs'] & w' & Hrun & HP').
    { destruct n; [by apply loop_step_invariant|by apply goroutine_step_invariant]. }
    erewrite bind_returned by exact Hrun. by apply IH.
Qed.

Lemma finish_loop_invariant (pend : list string) :
  forall (gs : list Goroutine) (w : World),
    P pend gs w ->
    exists gs' w', finish_loop iteration pend gs w = Returned gs' w' /\ P [] gs' w'.
Proof.
  unfold iteration.
  induction pend as [|key rest IH]; intros gs w HP; simpl.
  - by exists gs, w.
  - destruct (iteration_returns baseDir excludePatten key w) as (go & w' & Hrun & Hdoes).
    { by eapply P_modelled. }
    erewrite bind_returned by exact Hrun.
    apply IH. by eapply P_iteration.
Qed.

Lemma to_return_invariant (g : Goroutine) (gs : list Goroutine) (w : World) :
  P [] (g :: gs) w ->
  exists w', to_return step g w = Returned tt w' /\ P [] gs w'.
Proof.
  intros HP. unfold to_return, step.
  destruct (step_returns api bucket baseDir g w) as (r & w' & Hrun & Hdoes).
  erewrite bind_returned by exact Hrun.
  pose proof (P_step [] [] g gs w r w' HP Hdoes) as HP'. simpl in HP'.
  destruct r as [g'|]; simpl in HP'.
  - assert (exists key fileName, g' = saveObject_created key fileName)
      as (key & fileName & ->) by (inversion Hdoes; eauto).
    destruct (step_returns api bucket baseDir (saveObject_created key fileName) w')
      as (r' & w'' & Hrun' & Hdoes').
    erewrite bind_returned by exact Hrun'.
    pose proof (P_step [] [] _ gs w' r' w'' HP' Hdoes') as HP''.
    rewrite (created_step_ends _ _ _ _ _ _ _ _ Hdoes') in HP''.
    by exists w''.
  - by exists w'.
Qed.

Lemma finish_goroutines_invariant (gs : list Goroutine) :
  forall (w : World),
    P [] gs w ->
    exists w', finish_goroutines step gs w = Returned tt w' /\ P [] [] w'.
Proof.
  induction gs as [|g gs IH]; intros w HP; simpl.
  - by exists w.
  - destruct (to_return_invariant g gs w HP) as (w' & Hrun & HP').
    erewrite bind_returned by exact Hrun. by apply IH.
Qed.

Lemma run_threads_invariant (sched : list nat) (keys : list string) (w : World) :
  P keys [] w ->
  exists w', run_threads iteration step sched keys w = Returned tt w' /\ P [] [] w'.
Proof.
  intros HP. unfold run_threads.
  destruct (run_schedule_invariant sched keys [] w HP) as ([pend gs] & w1 & Hrun1 & HP1).
  erewrite bind_returned by exact Hrun1. simpl in *.
  destruct (finish_loop_invariant pend gs w1 HP1) as (gs' & w2 & Hrun2 & HP2).
  erewrite bind_returned by exact Hrun2.
  by apply finish_goroutines_invariant.
Qed.

End Runs.

(** ** Keys the loop passes over *)

Section Quiet.

Variables (api : S3.API) (bucket baseDir excludePatten : string).

(** When the match of every listed key returns an error or finds
    something, the loop starts no goroutine and leaves the world as it is,
    under every schedule. *)
Lemma run_threads_all_skipped (sched : list nat) (keys : list string) (w : World) :
  Forall (fun key => is_Some (Regexp.Match excludePatten key)) keys ->
  Forall (fun key => kept excludePatten key = false) keys ->
  run_threads (DownloadBucket_iteration baseDir excludePatten)
    (saveObject_step api bucket baseDir) sched keys w = Returned tt w.
Proof.
  intros Hmod Hskip.
  destruct (run_threads_invariant api bucket baseDir excludePatten
              (fun pend gs w' =>
                 gs = [] /\ w' = w /\
                 Forall (fun key => is_Some (Regexp.Match excludePatten key)) pend /\
                 Forall (fun key => kept excludePatten key = false) pend))
    with (sched := sched) (keys := keys) (w := w) as (w' & Hrun & _ & -> & _).
  - intros key rest gs w' (_ & _ & Hm & _). by inversion Hm.
  - intros key rest gs w1 go w2 (-> & -> & Hm & Hs) Hdoes.
    inversion Hm; subst. inversion Hs; subst.
    inversion Hdoes; subst; try congruence. by repeat split.
  - intros pend gs1 g gs2 w1 r w2 (Hgs & _) _. by destruct gs1.
  - by repeat split.
  - exact Hrun.
Qed.

End Quiet.

Lemma Match_rejected (pattern : string) (e : error) (key : string) :
  Regexp.Parse pattern = Regexp.Rejected e ->
  Regexp.Match pattern key = Some (false, Some e).
Proof. intros H. unfold Regexp.Match. by rewrite H. Qed.

Lemma Match_empty_pattern (key : string) :
  Regexp.all_ascii key = true -> Regexp.Match "" key = Some (true, None).
Proof.
  intros H. unfold Regexp.Match. simpl. rewrite H. by destruct key.
Qed.

Lemma DownloadBucket_all_skipped (sched : list nat)
    (baseDir bucket region excludePatten : string) (w : World) (api : S3.API)
    (keys : list string) :
  new_session w region = inr api ->
  S3.ListObjectsV2 api bucket = inr keys ->
  Forall (fun key => is_Some (Regexp.Match excludePatten key)) keys ->
  Forall (fun key => kept excludePatten key = false) keys ->
  DownloadBucket sched baseDir bucket region excludePatten w =
    Returned None (add_event {| call := CallListObjectsV2 bucket; result := None |} w).
Proof.
  intros Hsess Hlist Hmod Hskip. unfold DownloadBucket.
  erewrite bind_returned; [|unfold session_Must; by rewrite Hsess].
  erewrite bind_returned; [|unfold s3_ListObjectsV2; by rewrite Hlist].
  cbn beta iota.
  erewrite bind_returned; [reflexivity|]. by apply run_threads_all_skipped.
Qed.

(** C1, as the spec states it, fails: the pattern ["("] does not parse, the
    match of the key ["a.txt"] returns the parse error, and the key is
    passed over; the listing is the only call made and no file appears in
    the directory that would have received it. *)
Lemma invalid_pattern_excludes_key :
  Regexp.Match "(" "a.txt" = Some (false, Some (syntaxError ErrMissingParen "(")) /\
  exists w', DownloadBucket [] "out" "bucket" "region" "(" sample_world = Returned None w' /\
             trace w' = [{| call := CallListObjectsV2 "bucket"; result := None |}] /\
             file_at w' "out/a.txt" = false.
Proof. split; [reflexivity|]. eexists. by repeat split. Qed.

(** C1, amended. When the pattern does not parse, the match of every key
    returns the parse error and the loop passes over the key: under every
    schedule [DownloadBucket] makes no call after the listing, creates no
    file, and returns nil. *)
Theorem invalid_pattern_downloads_nothing (sched : list nat)
    (baseDir bucket region excludePatten : string) (w : World) (api : S3.API)
    (keys : list string) (e : error) :
  new_session w region = inr api ->
  S3.ListObjectsV2 api bucket = inr keys ->
  Regexp.Parse excludePatten = Regexp.Rejected e ->
  Forall (fun key => Regexp.Match excludePatten key = Some (false, Some e)) keys /\
  DownloadBucket sched baseDir bucket region excludePatten w =
    Returned None (add_event {| call := CallListObjectsV2 bucket; result := None |} w).
Proof.
  intros Hsess Hlist Hparse.
  assert (Forall (fun key => Regexp.Match excludePatten key = Some (false, Some e)) keys)
    as Hall by (apply Forall_forall; intros; by apply Match_rejected).
  split; [exact Hall|].
  eapply DownloadBucket_all_skipped; eauto.
  - eapply Forall_impl; [exact Hall|]. intros key ->. eauto.
  - eapply Forall_impl; [exact Hall|]. intros key Hm. unfold kept. by rewrite Hm.
Qed.

Lemma invalid_pattern_downloads_nothing_witness :
  Forall (fun key => Regexp.Match "a**" key
                     = Some (false, Some (syntaxError ErrInvalidRepeatOp "**")))
    ["a.txt"; "b.tmp"; "c/d.tmp"] /\
  DownloadBucket [0; 1; 0] "out" "bucket" "region" "a**" sample_world =
    Returned None
      (add_event {| call := CallListObjectsV2 "bucket"; result := None |} sample_world).
Proof.
  apply (invalid_pattern_downloads_nothing [0; 1; 0] "out" "bucket" "region" "a**"
           sample_world sample_store); reflexivity.
Defined.

(** C9. With the empty pattern the match finds the empty expression in
    every key, so the loop passes over every listed key: under every
    schedule [DownloadBucket] makes no call after the listing, creates no
    file, and returns nil. (Keys are taken in ASCII, where the matcher is
    modelled.) *)
Theorem empty_pattern_downloads_nothing (sched : list nat)
    (baseDir bucket region : string) (w : World) (api : S3.API) (keys : list string) :
  new_session w region = inr api ->
  S3.ListObjectsV2 api bucket = inr keys ->
  Forall (fun key => Regexp.all_ascii key = true) keys ->
  Forall (fun key => Regexp.Match "" key = Some (true, None)) keys /\
  DownloadBucket sched baseDir bucket region "" w =
    Returned None (add_event {| call := CallListObjectsV2 bucket; result := None |} w).
Proof.
  intros Hsess Hlist Hascii.
  assert (Forall (fun key => Regexp.Match "" key = Some (true, None)) keys) as Hall.
  { eapply Forall_impl; [exact Hascii|]. intros key. apply Match_empty_pattern. }
  split; [exact Hall|].
  eapply DownloadBucket_all_skipped; eauto.
  - eapply Forall_impl; [exact Hall|]. intros key ->. eauto.
  - eapply Forall_impl; [exact Hall|]. intros key Hm. unfold kept. by rewrite Hm.
Qed.

Lemma empty_pattern_downloads_nothing_witness :
  Forall (fun key => Regexp.Match "" key = Some (true, None))
    ["a.txt"; "b.tmp"; "c/d.tmp"] /\
  DownloadBucket [0; 1; 2] "out" "bucket" "region" "" sample_world =
    Returned None
      (add_event {| call := CallListObjectsV2 "bucket"; result := None |} sample_world).
Proof.
  apply (empty_pattern_downloads_nothing [0; 1; 2] "out" "bucket" "region"
           sample_world sample_store); [reflexivity|reflexivity|].
  repeat constructor.
Defined.

(** ** Accounting for the kept keys *)

Lemma count_if_app {A} (P : A -> bool) (l1 l2 : list A) :
  count_if P (l1 ++ l2) = count_if P l1 + count_if P l2.
Proof. induction l1 as [|x l1 IH]; simpl; [done|]. rewrite IH. lia. Qed.

Lemma count_downloads (l : list Event) :
  count_if is_download l = count_if is_download_ok l + count_if is_download_failed l.
Proof.
  induction l as [|[c r] l IH]; simpl; [done|]. rewrite IH.
  unfold is_download, is_download_ok, is_download_failed. simpl.
  destruct c, r; simpl; lia.
Qed.

Section Accounting.

Variables (api : S3.API) (bucket baseDir excludePatten : string).
Variable keys : list string.

Lemma accounted_iteration (key : string) (rest : list string) (gs : list Goroutine)
    (w : World) (go : bool) (w' : World) :
  accounted excludePatten keys (key :: rest) gs w ->
  iteration_does baseDir excludePatten key w go w' ->
  accounted excludePatten keys rest
    (gs ++ (if go then [saveObject_start key] else [])) w'.
Proof.
  unfold accounted, unmade_directories, kept_keys.
  intros (Hmod & H1 & H2 & H3) Hdoes. inversion Hmod; subst.
  split; [done|]. simpl in H1.
  inversion Hdoes as [Hk|Hk Hi|i prefix n Hk Hi Hp Hm|i prefix errno Hk Hi Hp Hm];
    subst; rewrite Hk in H1; rewrite count_if_app; simpl in *;
    unfold is_created in *; rewrite ?count_if_app; simpl; repeat split; lia.
Qed.

Lemma accounted_step (pend : list string) (gs1 : list Goroutine) (g : Goroutine)
    (gs2 : list Goroutine) (w : World) (r : option Goroutine) (w' : World) :
  accounted excludePatten keys pend (gs1 ++ g :: gs2) w ->
  step_does api bucket baseDir w g r w' ->
  accounted excludePatten keys pend (gs1 ++ option_list r ++ gs2) w'.
Proof.
  unfold accounted, unmade_directories, is_created.
  intros (Hmod & H1 & H2 & H3) Hdoes.
  split; [done|]. rewrite !count_if_app in *. simpl in *.
  inversion Hdoes; subst; simpl in *; rewrite ?count_if_app; simpl;
    repeat split; lia.
Qed.

(** When [wg.Wait] returns, the kept keys are the objects fetched in full,
    the lines logged and the directories that could not be made. *)
Lemma run_threads_accounts (sched : list nat) (w : World) :
  Forall (fun key => is_Some (Regexp.Match excludePatten key)) keys ->
  count_if is_create (trace w) = 0 ->
  count_if is_download (trace w) = 0 ->
  count_if is_mkdir_failed (trace w) = 0 ->
  log w = [] ->
  exists w',
    run_threads (DownloadBucket_iteration baseDir excludePatten)
      (saveObject_step api bucket baseDir) sched keys w = Returned tt w' /\
    succeeded w' + length (failed w') + unmade_directories w'
      = length (kept_keys excludePatten keys).
Proof.
  intros Hmod Hc Hd Hm Hl.
  assert (count_if is_create_failed (trace w) = 0) as Hcf.
  { clear -Hc. induction (trace w) as [|[c r] l IH]; simpl in *; [done|].
    unfold is_create, is_create_failed in *. simpl in *. destruct c, r; simpl in *; lia. }
  pose proof (count_downloads (trace w)) as Hdd.
  destruct (run_threads_invariant api bucket baseDir excludePatten
              (accounted excludePatten keys))
    with (sched := sched) (keys := keys) (w := w) as (w' & Hrun & Hacc).
  - intros key rest gs w1 (Hm1 & _). by inversion Hm1.
  - intros. by eapply accounted_iteration.
  - intros. by eapply accounted_step.
  - unfold accounted, unmade_directories. rewrite Hl. simpl. repeat split; [done|lia..].
  - exists w'. split; [exact Hrun|].
    destruct Hacc as (_ & H1 & H2 & H3).
    pose proof (count_downloads (trace w')) as Hdd'.
    unfold succeeded, failed, unmade_directories in *. simpl in *. lia.
Qed.

End Accounting.

(** C5, as the spec states it, fails: the one listed key passes the filter,
    its directory cannot be made, and the loop gives the key up without a
    record; nothing is fetched and nothing is logged, so the fetched objects
    and the recorded failures add up to 0 for 1 target. *)
Lemma unmade_directory_is_not_recorded :
  kept_keys "\.tmp$" ["logs/app.txt"] = ["logs/app.txt"] /\
  exists w',
    DownloadBucket [] "out" "bucket" "region" "\.tmp$" locked_world = Returned None w' /\
    succeeded w' = 0 /\ failed w' = [] /\
    rev (trace w') =
      [ {| call := CallListObjectsV2 "bucket"; result := None |};
        {| call := CallMkdirAll "out/logs";
           result := Some (PathError "mkdir" "out" EACCES) |} ].
Proof. split; [reflexivity|]. eexists. by repeat split. Qed.

(** C5, amended. A run of [DownloadBucket] that starts with an empty trace
    and log and lists the store returns nil under every schedule, and then
    every listed key that passed the filter is accounted for exactly once:
    as an object fetched in full, as a failure line in the log, or as a
    directory that could not be made, which leaves no record but the failed
    call. *)
Theorem every_kept_key_is_accounted_for (sched : list nat)
    (baseDir bucket region excludePatten : string) (w : World) (api : S3.API)
    (keys : list string) :
  trace w = [] ->
  log w = [] ->
  new_session w region = inr api ->
  S3.ListObjectsV2 api bucket = inr keys ->
  Forall (fun key => is_Some (Regexp.Match excludePatten key)) keys ->
  exists w',
    DownloadBucket sched baseDir bucket region excludePatten w = Returned None w' /\
    succeeded w' + length (failed w') + unmade_directories w'
      = length (kept_keys excludePatten keys).
Proof.
  intros Htrace Hlog Hsess Hlist Hmod. unfold DownloadBucket.
  erewrite bind_returned; [|unfold session_Must; by rewrite Hsess].
  erewrite bind_returned; [|unfold s3_ListObjectsV2; by rewrite Hlist].
  cbn beta iota.
  destruct (run_threads_accounts api bucket baseDir excludePatten keys sched
              (add_event {| call := CallListObjectsV2 bucket; result := None |} w))
    as (w' & Hrun & Hacc); try done; try (simpl; by rewrite Htrace).
  exists w'. split; [|exact Hacc].
  by erewrite bind_returned by exact Hrun.
Qed.

Lemma every_kept_key_is_accounted_for_witness :
  exists w',
    DownloadBucket [0; 0; 1; 0; 1] "out" "bucket" "region" "\.tmp$" sample_world
      = Returned None w' /\
    succeeded w' + length (failed w') + unmade_directories w'
      = length (kept_keys "\.tmp$" ["a.txt"; "b.tmp"; "c/d.tmp"]).
Proof.
  apply (every_kept_key_is_accounted_for [0; 0; 1; 0; 1] "out" "bucket" "region"
           "\.tmp$" sample_world sample_store); try reflexivity.
  repeat constructor; by eexists.
Defined.

(** ** Where the calls of a download go *)

Lemma at_path_inr {A} (cwd : list string) (p : string) (f : list string -> Errno + A)
    (x : A) :
  FS.at_path cwd p f = inr x -> f (FS.resolve cwd p) = inr x.
Proof. unfold FS.at_path, FS.locate. by destruct (String.eqb p ""). Qed.

Section Located.

Variables (api : S3.API) (bucket baseDir excludePatten : string).
Variable keys : list string.

Lemma iteration_grows (key : string) (w : World) (go : bool) (w' : World) :
  iteration_does baseDir excludePatten key w go w' -> grows w w'.
Proof.
  inversion 1 as [Hk|Hk Hi|i pre n Hk Hi Hp Hm|i pre errno Hk Hi Hp Hm];
    subst; split; try done; simpl; auto.
  intros name. unfold file_at. simpl.
  by apply MkdirAll_keeps_files with (cwd := cwd w) (path := Path.Join [baseDir; pre]).
Qed.

Lemma step_grows (g : Goroutine) (w : World) (r : option Goroutine) (w' : World) :
  step_does api bucket baseDir w g r w' -> grows w w'.
Proof.
  inversion 1 as [key n fileName Hc|key errno fileName e Hc
                 |key fileName body Hd|key fileName written e Hd];
    subst; split; try done; simpl; auto; intros name; unfold file_at; simpl.
  - apply create_keeps_files with (p := FS.resolve (cwd w) (Path.Join [baseDir; key])).
    by apply at_path_inr.
  - apply write_keeps_files.
  - apply write_keeps_files.
Qed.

Lemma call_located_grows (w w' : World) (e : Event) :
  grows w w' ->
  call_located bucket baseDir excludePatten keys w e ->
  call_located bucket baseDir excludePatten keys w' e.
Proof.
  intros [Ht Hf]. unfold call_located. destruct (call e); try done.
  intros (? & ? & ? & ? & ?). repeat split; auto.
Qed.

Lemma goroutine_located_grows (w w' : World) (g : Goroutine) :
  grows w w' ->
  goroutine_located baseDir excludePatten keys w g ->
  goroutine_located baseDir excludePatten keys w' g.
Proof.
  intros [Ht Hf]. destruct g; simpl; [done|].
  intros (? & ? & ? & ?). repeat split; auto.
Qed.

Lemma kept_keys_In (key : string) (l : list string) :
  In key l -> kept excludePatten key = true -> In key (kept_keys excludePatten l).
Proof. intros. apply filter_In. auto. Qed.

Lemma located_iteration (key : string) (rest : list string) (gs : list Goroutine)
    (w : World) (go : bool) (w' : World) :
  located bucket baseDir excludePatten keys (key :: rest) gs w ->
  iteration_does baseDir excludePatten key w go w' ->
  located bucket baseDir excludePatten keys rest
    (gs ++ (if go then [saveObject_start key] else [])) w'.
Proof.
  intros (Hsub & Htr & Hgs) Hdoes.
  pose proof (iteration_grows _ _ _ _ Hdoes) as Hgrow.
  assert (Forall (call_located bucket baseDir excludePatten keys w') (trace w)) as Htr'.
  { eapply Forall_impl; [exact Htr|]. intros e. by apply call_located_grows. }
  assert (Forall (goroutine_located baseDir excludePatten keys w') gs) as Hgs'.
  { eapply Forall_impl; [exact Hgs|]. intros g. by apply goroutine_located_grows. }
  assert (In key keys) as Hin by (apply Hsub; by left).
  split; [intros k Hk; apply Hsub; by right|].
  inversion Hdoes as [Hk|Hk Hi|i pre n Hk Hi Hp Hm|i pre errno Hk Hi Hp Hm]; subst.
  - split; [done|]. by rewrite app_nil_r.
  - split; [done|]. apply Forall_app. split; [done|].
    constructor; [|done]. simpl. by apply kept_keys_In.
  - split.
    + simpl. constructor; [|exact Htr'].
      unfold call_located. simpl. exists key. split; [by apply kept_keys_In|congruence].
    + apply Forall_app. split; [done|].
      constructor; [|done]. simpl. by apply kept_keys_In.
  - split; [|by rewrite app_nil_r].
    simpl. constructor; [|exact Htr'].
    unfold call_located. simpl. exists key. split; [by apply kept_keys_In|congruence].
Qed.

Lemma located_step (pend : list string) (gs1 : list Goroutine) (g : Goroutine)
    (gs2 : list Goroutine) (w : World) (r : option Goroutine) (w' : World) :
  located bucket baseDir excludePatten keys pend (gs1 ++ g :: gs2) w ->
  step_does api bucket baseDir w g r w' ->
  located bucket baseDir excludePatten keys pend (gs1 ++ option_list r ++ gs2) w'.
Proof.
  intros (Hsub & Htr & Hgs) Hdoes.
  pose proof (step_grows _ _ _ _ Hdoes) as Hgrow.
  assert (Forall (call_located bucket baseDir excludePatten keys w') (trace w)) as Htr'.
  { eapply Forall_impl; [exact Htr|]. intros e. by apply call_located_grows. }
  apply Forall_app in Hgs as [Hgs1 Hgs2]. inversion Hgs2 as [|? ? Hg Hgs2']; subst.
  assert (Forall (goroutine_located baseDir excludePatten keys w') gs1) as Hgs1'.
  { eapply Forall_impl; [exact Hgs1|]. intros ?. by apply goroutine_located_grows. }
  assert (Forall (goroutine_located baseDir excludePatten keys w') gs2) as Hgs2''.
  { eapply Forall_impl; [exact Hgs2'|]. intros ?. by apply goroutine_located_grows. }
  split; [done|].
  inversion Hdoes as [key n fileName Hc|key errno fileName e Hc
                     |key fileName body Hd|key fileName written e Hd]; subst; simpl in *.
  - split.
    + constructor; [|exact Htr']. unfold call_located. simpl. eauto.
    + apply Forall_app. split; [done|]. constructor; [|done]. simpl.
      repeat split; auto. unfold file_at. simpl.
      apply create_makes_file with (n := fs w). by apply at_path_inr.
  - split; [|by apply Forall_app].
    constructor; [|exact Htr']. unfold call_located. simpl. eauto.
  - destruct Hg as (Hin & -> & Hcr & Hfile).
    destruct Hgrow as [Hgt Hgf].
    split; [|by apply Forall_app].
    constructor; [done|]. constructor; [|exact Htr'].
    unfold call_located. simpl. repeat split; auto.
  - destruct Hg as (Hin & -> & Hcr & Hfile).
    destruct Hgrow as [Hgt Hgf].
    split; [|by apply Forall_app].
    constructor; [done|]. constructor; [|exact Htr'].
    unfold call_located. simpl. repeat split; auto.
Qed.

End Located.

(** The two invariants together, from the listing to the return of
    [wg.Wait], under every schedule. *)
Lemma run_threads_sound (api : S3.API) (bucket baseDir excludePatten : string)
    (keys : list string) (sched : list nat) (w : World) :
  Forall (fun key => is_Some (Regexp.Match excludePatten key)) keys ->
  trace w = [{| call := CallListObjectsV2 bucket; result := None |}] ->
  log w = [] ->
  exists w',
    run_threads (DownloadBucket_iteration baseDir excludePatten)
      (saveObject_step api bucket baseDir) sched keys w = Returned tt w' /\
    accounted excludePatten keys [] [] w' /\
    located bucket baseDir excludePatten keys [] [] w'.
Proof.
  intros Hmod Htrace Hlog.
  destruct (run_threads_invariant api bucket baseDir excludePatten
              (fun pend gs w' => accounted excludePatten keys pend gs w' /\
                                 located bucket baseDir excludePatten keys pend gs w'))
    with (sched := sched) (keys := keys) (w := w) as (w' & Hrun & Hacc & Hloc).
  - intros key rest gs w1 [(Hm1 & _) _]. by inversion Hm1.
  - intros key rest gs w1 go w2 [Ha Hl] Hdoes.
    split; [by eapply accounted_iteration|by eapply located_iteration].
  - intros pend gs1 g gs2 w1 r w2 [Ha Hl] Hdoes.
    split; [by eapply accounted_step|by eapply located_step].
  - split.
    + unfold accounted, unmade_directories. rewrite Htrace, Hlog. simpl.
      repeat split; try done; lia.
    + unfold located. rewrite Htrace. repeat split; auto.
      by repeat constructor.
  - by exists w'.
Qed.

Lemma DownloadBucket_sound (sched : list nat)
    (baseDir bucket region excludePatten : string) (w : World) (api : S3.API)
    (keys : list string) :
  trace w = [] ->
  log w = [] ->
  new_session w region = inr api ->
  S3.ListObjectsV2 api bucket = inr keys ->
  Forall (fun key => is_Some (Regexp.Match excludePatten key)) keys ->
  exists w',
    DownloadBucket sched baseDir bucket region excludePatten w = Returned None w' /\
    accounted excludePatten keys [] [] w' /\
    located bucket baseDir excludePatten keys [] [] w'.
Proof.
  intros Htrace Hlog Hsess Hlist Hmod. unfold DownloadBucket.
  erewrite bind_returned; [|unfold session_Must; by rewrite Hsess].
  erewrite bind_returned; [|unfold s3_ListObjectsV2; by rewrite Hlist].
  cbn beta iota.
  destruct (run_threads_sound api bucket baseDir excludePatten keys sched
              (add_event {| call := CallListObjectsV2 bucket; result := None |} w))
    as (w' & Hrun & Hacc & Hloc); try done; try (simpl; by rewrite Htrace).
  exists w'. split; [|done].
  by erewrite bind_returned by exact Hrun.
Qed.

(** C10. In a run of [DownloadBucket] that starts with an empty trace and
    log, under every schedule: when [wg.Wait] has returned, every object
    whose fetch failed was being fetched into the file [os.Create] had made
    for it at [path.Join(baseDir, key)], and that file is still there. *)
Theorem failed_download_leaves_file (sched : list nat)
    (baseDir bucket region excludePatten : string) (w : World) (api : S3.API)
    (keys : list string) :
  trace w = [] ->
  log w = [] ->
  new_session w region = inr api ->
  S3.ListObjectsV2 api bucket = inr keys ->
  Forall (fun key => is_Some (Regexp.Match excludePatten key)) keys ->
  exists w',
    DownloadBucket sched baseDir bucket region excludePatten w = Returned None w' /\
    forall b key fileName e,
      In {| call := CallDownload b key fileName; result := Some e |} (trace w') ->
      fileName = Path.Join [baseDir; key] /\
      In {| call := CallCreate fileName; result := None |} (trace w') /\
      file_at w' fileName = true.
Proof.
  intros Htrace Hlog Hsess Hlist Hmod.
  destruct (DownloadBucket_sound sched baseDir bucket region excludePatten w api keys)
    as (w' & Hrun & _ & (_ & Hcalls & _)); try done.
  exists w'. split; [exact Hrun|].
  intros b key fileName e Hin.
  rewrite Forall_forall in Hcalls. rewrite <- list_elem_of_In in Hin.
  specialize (Hcalls _ Hin).
  unfold call_located in Hcalls. simpl in Hcalls. tauto.
Qed.

Lemma failed_download_leaves_file_witness :
  exists w',
    DownloadBucket [0; 1; 0; 1] "out" "bucket" "region" "\.tmp$" flaky_world
      = Returned None w' /\
    forall b key fileName e,
      In {| call := CallDownload b key fileName; result := Some e |} (trace w') ->
      fileName = Path.Join ["out"; key] /\
      In {| call := CallCreate fileName; result := None |} (trace w') /\
      file_at w' fileName = true.
Proof.
  apply (failed_download_leaves_file [0; 1; 0; 1] "out" "bucket" "region" "\.tmp$"
           flaky_world flaky_store ["a.txt"; "b.tmp"; "c/d.tmp"]); try reflexivity.
  repeat constructor; by eexists.
Defined.

(** The run of the witness: the fetch of ["a.txt"] fails, one line is
    logged, and the file holds the three bytes written before the failure. *)
Example failed_download_run :
  exists w',
    DownloadBucket [0; 1; 0; 1] "out" "bucket" "region" "\.tmp$" flaky_world
      = Returned None w' /\
    rev (trace w') =
      [ {| call := CallListObjectsV2 "bucket"; result := None |};
        {| call := CallCreate "out/a.txt"; result := None |};
        {| call := CallDownload "bucket" "a.txt" "out/a.txt";
           result := Some (awsError "RequestError" "connection reset") |};
        {| call := CallClose "out/a.txt"; result := None |} ] /\
    log w' = ["Unable to download item:RequestError: connection reset"] /\
    fs w' = FS.Dir true true [("out", FS.Dir true true [("a.txt", FS.File true true "con")])].
Proof. eexists. by repeat split. Qed.

(** ** The filter on the listing *)

Lemma created_names_length (l : list Event) :
  length (created_names l) = count_if is_create l.
Proof.
  induction l as [|[c r] l IH]; simpl; [done|].
  unfold is_create. simpl. destruct c; simpl; by rewrite ?IH.
Qed.

Lemma created_names_located (bucket baseDir excludePatten : string) (keys : list string)
    (w : World) (l : list Event) :
  Forall (call_located bucket baseDir excludePatten keys w) l ->
  Forall (fun name => exists key, In key (kept_keys excludePatten keys) /\
                                  name = Path.Join [baseDir; key])
    (created_names l).
Proof.
  induction 1 as [|[c r] l Hc Hl IH]; simpl; [constructor|].
  destruct c; simpl; try done. by constructor.
Qed.

Lemma fetched_keys_located (bucket baseDir excludePatten : string) (keys : list string)
    (w : World) (l : list Event) :
  Forall (call_located bucket baseDir excludePatten keys w) l ->
  Forall (fun key => In key (kept_keys excludePatten keys)) (fetched_keys l).
Proof.
  induction 1 as [|[c r] l Hc Hl IH]; simpl; [constructor|].
  destruct c; simpl; try done. constructor; [|done].
  unfold call_located in Hc. simpl in Hc. tauto.
Qed.

Lemma no_unmade_directories (bucket baseDir excludePatten : string) (keys : list string)
    (w : World) (l : list Event) :
  Forall (fun key => GoString.last_index Path.slash key = None)
    (kept_keys excludePatten keys) ->
  Forall (call_located bucket baseDir excludePatten keys w) l ->
  count_if is_mkdir_failed l = 0.
Proof.
  intros Hflat. induction 1 as [|[c r] l Hc Hl IH]; simpl; [done|].
  rewrite IH. unfold is_mkdir_failed. simpl. destruct c; try done.
  unfold call_located in Hc. simpl in Hc. destruct Hc as (key & Hin & Hslash).
  rewrite Forall_forall in Hflat. rewrite <- list_elem_of_In in Hin.
  by specialize (Hflat _ Hin).
Qed.

(** C7. The pattern [\.tmp$] keeps ["a.txt"] alone of the listed keys
    ["a.txt"], ["b.tmp"], ["c/d.tmp"]. A run of [DownloadBucket] on this
    listing, from an empty trace and log and under every schedule, returns
    nil having called [os.Create] once, for ["a.txt"] under the base
    directory, and [Download] for no other key. *)
Theorem tmp_pattern_keeps_a_txt (sched : list nat) (baseDir bucket region : string)
    (w : World) (api : S3.API) :
  trace w = [] ->
  log w = [] ->
  new_session w region = inr api ->
  S3.ListObjectsV2 api bucket = inr ["a.txt"; "b.tmp"; "c/d.tmp"] ->
  kept_keys "\.tmp$" ["a.txt"; "b.tmp"; "c/d.tmp"] = ["a.txt"] /\
  exists w',
    DownloadBucket sched baseDir bucket region "\.tmp$" w = Returned None w' /\
    created_names (trace w') = [Path.Join [baseDir; "a.txt"]] /\
    Forall (eq "a.txt") (fetched_keys (trace w')).
Proof.
  intros Htrace Hlog Hsess Hlist.
  assert (kept_keys "\.tmp$" ["a.txt"; "b.tmp"; "c/d.tmp"] = ["a.txt"]) as Hkept
    by reflexivity.
  split; [exact Hkept|].
  destruct (DownloadBucket_sound sched baseDir bucket region "\.tmp$" w api
              ["a.txt"; "b.tmp"; "c/d.tmp"])
    as (w' & Hrun & (_ & Hcount & _) & (_ & Hcalls & _)); try done.
  { repeat constructor; by eexists. }
  exists w'. split; [exact Hrun|]. split.
  - pose proof (created_names_located _ _ _ _ _ _ Hcalls) as Hnames.
    pose proof (created_names_length (trace w')) as Hlen.
    assert (unmade_directories w' = 0) as Hun.
    { eapply no_unmade_directories; [|exact Hcalls].
      rewrite Hkept. by repeat constructor. }
    rewrite Hkept in Hcount, Hnames. simpl in Hcount.
    destruct (created_names (trace w')) as [|name [|name' rest]];
      simpl in Hlen; try lia.
    inversion Hnames as [|? ? (key & [<-|[]] & ->)]. reflexivity.
  - pose proof (fetched_keys_located _ _ _ _ _ _ Hcalls) as Hkeys.
    rewrite Hkept in Hkeys. eapply Forall_impl; [exact Hkeys|].
    simpl. intros key [<-|[]]. reflexivity.
Qed.

Lemma tmp_pattern_keeps_a_txt_witness :
  kept_keys "\.tmp$" ["a.txt"; "b.tmp"; "c/d.tmp"] = ["a.txt"] /\
  exists w',
    DownloadBucket [1; 0; 0; 1; 0] "out" "bucket" "region" "\.tmp$" sample_world
      = Returned None w' /\
    created_names (trace w') = [Path.Join ["out"; "a.txt"]] /\
    Forall (eq "a.txt") (fetched_keys (trace w')).
Proof.
  apply (tmp_pattern_keeps_a_txt [1; 0; 0; 1; 0] "out" "bucket" "region"
           sample_world sample_store); reflexivity.
Defined.

(** The run of the witness: ["a.txt"] is the one object written. *)
Example tmp_pattern_run :
  exists w',
    DownloadBucket [1; 0; 0; 1; 0] "out" "bucket" "region" "\.tmp$" sample_world
      = Returned None w' /\
    fs w' = FS.Dir true true
              [("out", FS.Dir true true
                         [("a.txt", FS.File true true "contents of a.txt")])] /\
    log w' = [].
Proof. eexists. by repeat split. Qed.

(** ** The upload loop *)

Lemma open_error_ext (w w0 : World) (name : string) :
  fs w = fs w0 -> cwd w = cwd w0 -> open_error w name = open_error w0 name.
Proof. intros Hfs Hcwd. unfold open_error. by rewrite Hfs, Hcwd. Qed.

Lemma upload_error_ext (api : S3.API) (w w0 : World) (bucket key name : string) :
  fs w = fs w0 -> cwd w = cwd w0 ->
  upload_error api w bucket key name = upload_error api w0 bucket key name.
Proof. intros Hfs Hcwd. unfold upload_error. by rewrite Hfs, Hcwd. Qed.

Section UploadLoop.

Variables (api : S3.API) (w0 : World) (bkt base : string).

(** The loop on paths of which [pre] open and the next one, if any, does
    not: each path of [pre] has its round, the failures to send are
    collected in order, and the failed [os.Open] is the last call. *)
Lemma upload_loop_runs (pre : list string) :
  forall (rest : list string) (fuel : nat) (iter : directoryIterator)
         (errs : list BatchItem) (w : World),
    filePaths iter = pre ++ rest ->
    bucket iter = bkt ->
    baseDir iter = base ->
    length pre < fuel ->
    fs w = fs w0 ->
    cwd w = cwd w0 ->
    Forall (fun name => open_error w0 name = None /\ is_Some (Path.toKey base name)) pre ->
    match rest with
    | [] => True
    | bad :: _ => is_Some (open_error w0 bad) /\ is_Some (Path.toKey base bad)
    end ->
    exists errs' iter' w',
      upload_loop fuel api iter errs w = Returned (Some (errs ++ errs', iter')) w' /\
      map OrigErr errs' = flat_map (upload_cause api w0 bkt base) pre /\
      Forall (fun item => item_Bucket item = ptr_bucket /\ item_Key item = ptr_next_key)
        errs' /\
      bucket iter' = bkt /\
      next_key iter' = visited_key base (pre ++ take 1 rest) (next_key iter) /\
      fs w' = fs w0 /\ cwd w' = cwd w0 /\ log w' = log w /\
      trace w' = rev (flat_map (upload_round api w0 bkt base) pre ++ failed_open w0 rest)
                 ++ trace w.
Proof.
  induction pre as [|name pre IH];
    intros rest fuel iter errs w Hpaths Hbkt Hbase Hfuel Hfs Hcwd Hpre Hrest;
    (destruct fuel as [|fuel]; [simpl in Hfuel; lia|]); cbn [upload_loop].
  - simpl in Hpaths. unfold Next. rewrite Hpaths.
    destruct rest as [|bad rest].
    + unfold mbind, M_bind, bind, mret, M_ret, ret. simpl.
      exists []. rewrite app_nil_r. do 2 eexists. split; [reflexivity|].
      by repeat split.
    + destruct Hrest as [[e He] [key Hkey]].
      unfold mbind, M_bind, bind, os_Open. rewrite Hbase, Hkey.
      rewrite (open_error_ext w w0) by done. rewrite He. simpl.
      exists []. rewrite app_nil_r. do 2 eexists. split; [reflexivity|].
      unfold visited_key. simpl. rewrite He, Hkey. by repeat split.
  - inversion Hpre as [|? ? [Hopen [key Hkey]] Hpre']; subst.
    unfold Next. rewrite Hpaths. cbn [app].
    unfold mbind, M_bind, bind, os_Open. rewrite Hkey.
    rewrite (open_error_ext w w0) by done. rewrite Hopen. simpl.
    unfold mbind, M_bind, bind, mret, M_ret, ret, emit. simpl.
    rewrite (upload_error_ext api _ w0) by done.
    match goal with
    | |- exists errs' iter' w', upload_loop fuel api ?it ?es ?w1 = _ /\ _ =>
        destruct (IH rest fuel it es w1)
          as (errs' & iter' & w' & Hrun & Hcauses & Hptr & Hbkt' & Hkey' & Hfs' & Hcwd'
              & Hlog' & Htrace')
    end; try done.
    { simpl in Hfuel. lia. }
    assert (next_key iter' = visited_key (baseDir iter) ((name :: pre) ++ take 1 rest)
                               (next_key iter)) as Hvisited.
    { rewrite Hkey'. unfold visited_key. simpl. by rewrite Hkey. }
    unfold upload_cause at 1. unfold upload_round at 1. rewrite Hkey.
    destruct (upload_error api w0 (bucket iter) key name) as [e|] eqn:Hup.
    + eexists (_ :: errs'), iter', w'. rewrite Hrun. split.
      { by rewrite <- app_assoc. }
      repeat split; try done.
      * simpl. by rewrite Hcauses.
      * by constructor.
      * rewrite Htrace'. simpl. rewrite !rev_app_distr. simpl.
        by rewrite <- !app_assoc.
    + exists errs', iter', w'. rewrite Hrun. split; [done|].
      repeat split; try done.
      rewrite Htrace'. simpl. rewrite !rev_app_distr. simpl.
      by rewrite <- !app_assoc.
Qed.

End UploadLoop.

(** The fuel [UploadWithIterator] gives the loop always ends it: with more
    fuel than paths, the loop never stops for want of fuel. *)
Lemma upload_loop_ends (api : S3.API) (fuel : nat) :
  forall (iter : directoryIterator) (errs : list BatchItem) (w w' : World),
    length (filePaths iter) < fuel ->
    upload_loop fuel api iter errs w <> Returned None w'.
Proof.
  induction fuel as [|fuel IH]; intros iter errs w w' Hfuel; [lia|].
  cbn [upload_loop]. unfold Next.
  destruct (filePaths iter) as [|name rest] eqn:Hpaths.
  - unfold mbind, M_bind, bind, mret, M_ret, ret. simpl. discriminate.
  - unfold mbind, M_bind, bind, os_Open.
    destruct (Path.toKey (baseDir iter) name) as [key|]; [|discriminate].
    destruct (open_error w name) as [e|]; simpl; [discriminate|].
    unfold mbind, M_bind, bind, mret, M_ret, ret, emit. simpl.
    apply IH. simpl in *. lia.
Qed.

Lemma getFiles_found (root : string) (w : World) (n : FS.node) :
  FS.at_path (cwd w) root (FS.lookup (fs w)) = inr n ->
  getFiles root w =
    Returned (FS.walk_files root n) (add_event {| call := CallWalk root; result := None |} w).
Proof. intros H. unfold getFiles. by rewrite H. Qed.

Lemma causes_batch_error (iter : directoryIterator) (errs : list BatchItem) :
  causes (batch_error iter errs) = map OrigErr errs.
Proof.
  destruct errs as [|item errs]; [done|]. unfold batch_error, causes.
  rewrite map_map. reflexivity.
Qed.

(** [UploadBucket] on a base directory that exists, by the loop. *)
Lemma UploadBucket_runs (base bkt region : string)
    (w : World) (api : S3.API) (n : FS.node) (pre rest : list string) :
  new_session w region = inr api ->
  FS.at_path (cwd w) base (FS.lookup (fs w)) = inr n ->
  FS.walk_files base n = pre ++ rest ->
  Forall (fun name => open_error w name = None /\ is_Some (Path.toKey base name)) pre ->
  match rest with
  | [] => True
  | bad :: _ => is_Some (open_error w bad) /\ is_Some (Path.toKey base bad)
  end ->
  exists errs iter' w',
    UploadBucket base bkt region w = Returned (batch_error iter' errs) w' /\
    map OrigErr errs = flat_map (upload_cause api w bkt base) pre /\
    Forall (fun item => item_Bucket item = ptr_bucket /\ item_Key item = ptr_next_key)
      errs /\
    bucket iter' = bkt /\
    next_key iter' = visited_key base (pre ++ take 1 rest) "" /\
    fs w' = fs w /\ log w' = log w /\
    trace w' = rev (flat_map (upload_round api w bkt base) pre ++ failed_open w rest)
               ++ {| call := CallWalk base; result := None |} :: trace w.
Proof.
  intros Hsess Hroot Hwalk Hpre Hrest. unfold UploadBucket.
  erewrite bind_returned; [|unfold session_Must; by rewrite Hsess].
  unfold createIterator.
  erewrite bind_returned;
    [|erewrite bind_returned by (by apply getFiles_found); reflexivity].
  unfold UploadWithIterator. cbn [filePaths].
  destruct (upload_loop_runs api w bkt base pre rest
              (S (length (FS.walk_files base n)))
              {| filePaths := FS.walk_files base n; bucket := bkt;
                 baseDir := base; next_path := ""; next_key := "";
                 next_f := None; err := None |}
              [] (add_event {| call := CallWalk base; result := None |} w))
    as (errs & iter' & w' & Hrun & Hcauses & Hptr & Hbkt & Hkey & Hfs & Hcwd & Hlog & Htrace);
    try done.
  { rewrite Hwalk, length_app. lia. }
  exists errs, iter', w'.
  erewrite bind_returned; [|erewrite bind_returned by exact Hrun; reflexivity].
  split; [simpl; by destruct (batch_error _)|].
  by repeat split.
Qed.

(** C2, as the spec states it, fails: [/data] holds ["a.txt"], which cannot
    be opened, and ["b.txt"], which can. The upload ends at the failed
    [os.Open]: ["b.txt"] is neither opened nor sent, and [UploadBucket]
    returns nil, so the failure is recorded nowhere. *)
Lemma open_failure_ends_upload :
  open_error upload_world "data/b.txt" = None /\
  exists w',
    UploadBucket "data" "bucket" "region" upload_world = Returned None w' /\
    rev (trace w') =
      [ {| call := CallWalk "data"; result := None |};
        {| call := CallOpen "data/a.txt";
           result := Some (PathError "open" "data/a.txt" EACCES) |} ] /\
    log w' = [].
Proof. split; [reflexivity|]. eexists. by repeat split. Qed.

(** C2, amended. [UploadBucket] takes the files of the walk in order. The
    files [pre] before the first one that cannot be opened are each opened,
    sent and closed; a failure to send one of them does not end the loop,
    and its cause is in the batch error that is returned. The first file
    that cannot be opened ends the loop: its [os.Open] is the last call,
    the files after it are not touched, and its error is not among the
    causes returned. *)
Theorem upload_ends_at_first_open_failure (baseDir bucket region : string)
    (w : World) (api : S3.API) (n : FS.node) (pre rest : list string) :
  new_session w region = inr api ->
  FS.at_path (cwd w) baseDir (FS.lookup (fs w)) = inr n ->
  FS.walk_files baseDir n = pre ++ rest ->
  Forall (fun name => open_error w name = None /\ is_Some (Path.toKey baseDir name)) pre ->
  match rest with
  | [] => True
  | bad :: _ => is_Some (open_error w bad) /\ is_Some (Path.toKey baseDir bad)
  end ->
  exists e w',
    UploadBucket baseDir bucket region w = Returned e w' /\
    causes e = flat_map (upload_cause api w bucket baseDir) pre /\
    (e = None <-> flat_map (upload_cause api w bucket baseDir) pre = []) /\
    fs w' = fs w /\ log w' = log w /\
    rev (trace w') =
      rev (trace w) ++ {| call := CallWalk baseDir; result := None |}
        :: flat_map (upload_round api w bucket baseDir) pre ++ failed_open w rest.
Proof.
  intros Hsess Hroot Hwalk Hpre Hrest.
  destruct (UploadBucket_runs baseDir bucket region w api n pre rest)
    as (errs & iter' & w' & Hrun & Hcauses & _ & _ & _ & Hfs & Hlog & Htrace); try done.
  exists (batch_error iter' errs), w'.
  split; [exact Hrun|].
  split; [by rewrite causes_batch_error|].
  split.
  { rewrite <- Hcauses. destruct errs; simpl; split; congruence. }
  repeat split; try done. rewrite Htrace. simpl.
  rewrite !rev_app_distr, !rev_involutive. simpl. by rewrite <- app_assoc.
Qed.

Lemma upload_ends_at_first_open_failure_witness :
  exists e w',
    UploadBucket "mixed" "bucket" "region" upload_world = Returned e w' /\
    causes e = flat_map (upload_cause picky_store upload_world "bucket" "mixed")
                 ["mixed/b.txt"; "mixed/c.txt"] /\
    (e = None <-> flat_map (upload_cause picky_store upload_world "bucket" "mixed")
                    ["mixed/b.txt"; "mixed/c.txt"] = []) /\
    fs w' = fs upload_world /\ log w' = log upload_world /\
    rev (trace w') =
      rev (trace upload_world) ++ {| call := CallWalk "mixed"; result := None |}
        :: flat_map (upload_round picky_store upload_world "bucket" "mixed")
             ["mixed/b.txt"; "mixed/c.txt"]
           ++ failed_open upload_world ["mixed/d.txt"; "mixed/e.txt"].
Proof.
  apply (upload_ends_at_first_open_failure "mixed" "bucket" "region" upload_world
           picky_store
           (FS.Dir true true
              [("b.txt", FS.File true true "B"); ("c.txt", FS.File true true "C");
               ("d.txt", FS.File false true "D"); ("e.txt", FS.File true true "E")])
           ["mixed/b.txt"; "mixed/c.txt"] ["mixed/d.txt"; "mixed/e.txt"]);
    try reflexivity.
  - repeat constructor; by eexists.
  - split; by eexists.
Defined.

(** The run of the witness: ["b.txt"] is refused and ["c.txt"] is sent
    after it; the loop ends at ["d.txt"], and ["e.txt"] is never opened.
    The cause of the refusal is returned. The key it is returned with is
    read through [&iter.next.key] after the loop, when that field holds the
    key of the last file [Next] has visited: ["d.txt"], not ["b.txt"]. *)
Example upload_run :
  exists w',
    UploadBucket "mixed" "bucket" "region" upload_world
      = Returned (Some (batchError "BatchedUploadIncomplete"
                          "some objects have failed to upload."
                          [(awsError "AccessDenied" "Access Denied", "bucket", "d.txt")]))
          w' /\
    rev (trace w') =
      [ {| call := CallWalk "mixed"; result := None |};
        {| call := CallOpen "mixed/b.txt"; result := None |};
        {| call := CallUpload "bucket" "b.txt";
           result := Some (awsError "AccessDenied" "Access Denied") |};
        {| call := CallClose "mixed/b.txt"; result := None |};
        {| call := CallOpen "mixed/c.txt"; result := None |};
        {| call := CallUpload "bucket" "c.txt"; result := None |};
        {| call := CallClose "mixed/c.txt"; result := None |};
        {| call := CallOpen "mixed/d.txt";
           result := Some (PathError "open" "mixed/d.txt" EACCES) |} ].
Proof. eexists. by repeat split. Qed.

(** X2. The entries of the batch error [UploadBucket] returns do not keep
    the key of the object that failed: each holds the pointer
    [&iter.next.key], so after the loop every entry shows the same key, the
    one of the last file [Next] has visited (the file that could not be
    opened, if there is one), under the bucket of the call. *)
Theorem batch_error_keys_are_the_last_key (baseDir bucket region : string)
    (w : World) (api : S3.API) (n : FS.node) (pre rest : list string) :
  new_session w region = inr api ->
  FS.at_path (cwd w) baseDir (FS.lookup (fs w)) = inr n ->
  FS.walk_files baseDir n = pre ++ rest ->
  Forall (fun name => open_error w name = None /\ is_Some (Path.toKey baseDir name)) pre ->
  match rest with
  | [] => True
  | bad :: _ => is_Some (open_error w bad) /\ is_Some (Path.toKey baseDir bad)
  end ->
  exists e w',
    UploadBucket baseDir bucket region w = Returned e w' /\
    Forall (fun item => item.1.2 = bucket /\
                        item.2 = visited_key baseDir (pre ++ take 1 rest) "")
      (entries e).
Proof.
  intros Hsess Hroot Hwalk Hpre Hrest.
  destruct (UploadBucket_runs baseDir bucket region w api n pre rest)
    as (errs & iter' & w' & Hrun & _ & Hptr & Hbkt & Hkey & _); try done.
  exists (batch_error iter' errs), w'. split; [exact Hrun|].
  destruct errs as [|item errs]; [constructor|].
  unfold batch_error, entries. apply Forall_fmap.
  eapply Forall_impl; [exact Hptr|].
  intros x [Hb Hk]. simpl. rewrite Hb, Hk. simpl. by rewrite Hbkt, Hkey.
Qed.

Lemma batch_error_keys_are_the_last_key_witness :
  exists e w',
    UploadBucket "mixed" "bucket" "region" upload_world = Returned e w' /\
    Forall (fun item => item.1.2 = "bucket" /\
                        item.2 = visited_key "mixed"
                                   (["mixed/b.txt"; "mixed/c.txt"]
                                    ++ take 1 ["mixed/d.txt"; "mixed/e.txt"]) "")
      (entries e).
Proof.
  apply (batch_error_keys_are_the_last_key "mixed" "bucket" "region" upload_world
           picky_store
           (FS.Dir true true
              [("b.txt", FS.File true true "B"); ("c.txt", FS.File true true "C");
               ("d.txt", FS.File false true "D"); ("e.txt", FS.File true true "E")])
           ["mixed/b.txt"; "mixed/c.txt"] ["mixed/d.txt"; "mixed/e.txt"]);
    try reflexivity.
  - repeat constructor; by eexists.
  - split; by eexists.
Defined.

(** ** The walk of the base directory *)

(** C4, as the spec states it, fails: [/sealed] exists and cannot be read.
    [getFiles] returns no file and no error, nothing is logged, and
    [UploadBucket] returns nil having made no call but the walk. *)
Lemma unreadable_root_is_silent :
  exists w1 w2,
    getFiles "sealed" upload_world = Returned [] w1 /\
    UploadBucket "sealed" "bucket" "region" upload_world = Returned None w2 /\
    trace w2 = [ {| call := CallWalk "sealed"; result := None |} ] /\
    log w2 = [].
Proof. do 2 eexists. by repeat split. Qed.

(** C4, amended. For a base directory that exists and cannot be read, the
    walk of [getFiles] returns the empty file set and no error, and
    [UploadBucket] returns nil: it makes no call but the walk and logs
    nothing. *)
Theorem unreadable_root_uploads_nothing (baseDir bucket region : string)
    (w : World) (api : S3.API) (writable : bool) (entries : list (string * FS.node)) :
  new_session w region = inr api ->
  FS.at_path (cwd w) baseDir (FS.lookup (fs w)) = inr (FS.Dir false writable entries) ->
  getFiles baseDir w =
    Returned [] (add_event {| call := CallWalk baseDir; result := None |} w) /\
  UploadBucket baseDir bucket region w =
    Returned None (add_event {| call := CallWalk baseDir; result := None |} w).
Proof.
  intros Hsess Hroot.
  pose proof (getFiles_found baseDir w _ Hroot) as Hfiles. simpl in Hfiles.
  split; [exact Hfiles|]. unfold UploadBucket.
  erewrite bind_returned; [|unfold session_Must; by rewrite Hsess].
  unfold createIterator.
  erewrite bind_returned; [|erewrite bind_returned by exact Hfiles; reflexivity].
  reflexivity.
Qed.

Lemma unreadable_root_uploads_nothing_witness :
  getFiles "sealed" upload_world =
    Returned [] (add_event {| call := CallWalk "sealed"; result := None |} upload_world) /\
  UploadBucket "sealed" "bucket" "region" upload_world =
    Returned None
      (add_event {| call := CallWalk "sealed"; result := None |} upload_world).
Proof.
  apply (unreadable_root_uploads_nothing "sealed" "bucket" "region" upload_world
           picky_store true [("c.txt", FS.File true true "C")]); reflexivity.
Defined.

(** X1. For a base directory that does not exist (or an empty name),
    [UploadBucket] does not return: the callback of the walk is given a nil
    [info] with the error of [os.Lstat] and panics in [info.IsDir()]. *)
Theorem missing_root_panics (baseDir bucket region : string) (w : World)
    (api : S3.API) (errno : Errno) :
  new_session w region = inr api ->
  FS.at_path (cwd w) baseDir (FS.lookup (fs w)) = inl errno ->
  UploadBucket baseDir bucket region w =
    Panicked nil_dereference
      (add_event {| call := CallWalk baseDir; result := None |} w).
Proof.
  intros Hsess Hroot. unfold UploadBucket.
  erewrite bind_returned; [|unfold session_Must; by rewrite Hsess].
  unfold createIterator, getFiles, mbind, M_bind, bind. by rewrite Hroot.
Qed.

Lemma missing_root_panics_witness :
  UploadBucket "missing" "bucket" "region" upload_world =
    Panicked nil_dereference
      (add_event {| call := CallWalk "missing"; result := None |} upload_world).
Proof.
  apply (missing_root_panics "missing" "bucket" "region" upload_world picky_store ENOENT);
    reflexivity.
Defined.

(** ** The transfer context *)

(** C3. On a transfer context without a client, [DownloadBucket] and
    [UploadBucket] return the error [messageClientNotDefined] and leave the
    world as it is: no call to the store or to the file system is added to
    the trace, under every schedule and for every pattern. *)
Theorem no_client_no_transfer (sched : list nat) (b : Bucket)
    (excludePatten : option string) (w : World) :
  Client b = None ->
  Bucket_DownloadBucket sched b excludePatten w =
    Returned (Some (errorString messageClientNotDefined)) w /\
  Bucket_UploadBucket b w = Returned (Some (errorString messageClientNotDefined)) w /\
  Error (errorString messageClientNotDefined) = messageClientNotDefined.
Proof.
  intros Hnone. unfold Bucket_DownloadBucket, Bucket_UploadBucket.
  rewrite Hnone. by repeat split.
Qed.

(** The first call of [TestDownloadEmptyBucket]: [Bucket{}] and a nil
    pattern. *)
Lemma no_client_no_transfer_witness :
  Bucket_DownloadBucket [] {| Client := None; BaseDir := ""; Name := "" |} None
    sample_world = Returned (Some (errorString messageClientNotDefined)) sample_world /\
  Bucket_UploadBucket {| Client := None; BaseDir := ""; Name := "" |} sample_world
    = Returned (Some (errorString messageClientNotDefined)) sample_world /\
  Error (errorString messageClientNotDefined) = messageClientNotDefined.
Proof.
  apply (no_client_no_transfer [] {| Client := None; BaseDir := ""; Name := "" |} None
           sample_world). reflexivity.
Defined.

(** The second call of [TestDownloadEmptyBucket]: a client whose listing is
    empty; the method returns nil. *)
Example empty_listing_returns_nil :
  Bucket_DownloadBucket [] (NewBucket picky_store "Dir" "Bucket") None sample_world =
    Returned None
      (add_event {| call := CallListObjectsV2 "Bucket"; result := None |} sample_world).
Proof. reflexivity. Qed.

(** ** The parameters sent to CloudFormation *)

Section Conversion.

Variable parameters : gmap string string.

Lemma convertToCfnParameter_in_map (entries : list (string * string))
    (result : list Cfn.CfnParameter) :
  Cfn.convertToCfnParameter_in entries result =
  result ++ map (fun e => {| Cfn.ParameterKey := e.1; Cfn.ParameterValue := e.2 |}) entries.
Proof.
  revert result. induction entries as [|[k v] rest IH]; intros result; simpl.
  - by rewrite app_nil_r.
  - rewrite IH. by rewrite <- app_assoc.
Qed.

Lemma convertToRequiredCfnParameter_in_omap (entries : list (string * option string))
    (result : list Cfn.CfnParameter) :
  Cfn.convertToRequiredCfnParameter_in entries parameters result =
  result ++ omap (required_entry parameters) entries.
Proof.
  revert result. induction entries as [|[k d] rest IH]; intros result; simpl.
  - by rewrite app_nil_r.
  - unfold required_entry at 1. simpl.
    destruct (parameters !! k) as [v|]; simpl; rewrite IH; [|done].
    by rewrite <- app_assoc.
Qed.

Lemma elem_of_required (entries : list (string * option string)) (key value : string) :
  {| Cfn.ParameterKey := key; Cfn.ParameterValue := value |} ∈ omap (required_entry parameters) entries <->
  key ∈ entries.*1 /\ parameters !! key = Some value.
Proof.
  rewrite list_elem_of_omap. split.
  - intros [[k d] [Hin Heq]]. unfold required_entry in Heq. simpl in Heq.
    destruct (parameters !! k) as [v|] eqn:Hk; [|done].
    simpl in Heq. injection Heq as -> ->. split; [|done].
    apply list_elem_of_fmap. by exists (key, d).
  - intros [Hin Hv]. apply list_elem_of_fmap in Hin as [[k d] [-> Hin]].
    exists (k, d). split; [done|]. unfold required_entry. simpl in *. by rewrite Hv.
Qed.

Lemma required_keys_NoDup (entries : list (string * option string)) :
  NoDup entries.*1 -> NoDup (Cfn.ParameterKey <$> omap (required_entry parameters) entries).
Proof.
  induction entries as [|[k d] rest IH]; simpl; [constructor|].
  intros Hnd. apply NoDup_cons in Hnd as [Hk Hnd].
  unfold required_entry at 1. simpl.
  destruct (parameters !! k) as [v|]; simpl; [|by apply IH].
  apply NoDup_cons. split; [|by apply IH].
  intros Hin. apply Hk. apply list_elem_of_fmap in Hin as [[k' v'] [Heq Hin]].
  simpl in Heq. subst k. apply elem_of_required in Hin as [Hin _]. exact Hin.
Qed.

End Conversion.

Lemma convertToCfnParameter_entries (parameters : gmap string string) (w : Cfn.World) :
  let result :=
    Cfn.convertToCfnParameter_in
      (Cfn.range w _ Cfn.in_convertToCfnParameter parameters) [] in
  length result = size parameters /\
  NoDup (Cfn.ParameterKey <$> result) /\
  forall key value,
    {| Cfn.ParameterKey := key; Cfn.ParameterValue := value |} ∈ result <->
    parameters !! key = Some value.
Proof.
  cbv zeta. rewrite convertToCfnParameter_in_map. simpl.
  pose proof (Cfn.range_order w _ Cfn.in_convertToCfnParameter parameters) as Hperm.
  split; [|split].
  - rewrite length_map, Hperm. apply length_map_to_list.
  - rewrite <- list_fmap_compose.
    assert (Hfst : Cfn.ParameterKey ∘
              (fun e : string * string =>
                 {| Cfn.ParameterKey := e.1; Cfn.ParameterValue := e.2 |}) = fst)
      by done.
    unfold fmap, list_fmap in *. rewrite Hfst.
    change (NoDup (Cfn.range w string Cfn.in_convertToCfnParameter parameters).*1).
    rewrite Hperm. apply NoDup_fst_map_to_list.
  - intros key value. rewrite <- elem_of_map_to_list, <- Hperm.
    change (map ?f ?l) with (f <$> l). rewrite list_elem_of_fmap. split.
    + intros [[k v] [[= -> ->] Hin]]. done.
    + intros Hin. by exists (key, value).
Qed.

(** X3. [convertToCfnParameter] gives one parameter for each entry of the
    map: as many parameters as the map has entries (what
    [TestConvertToCfnParameter] checks), no key twice, and a key with a
    value exactly when the map holds that value under the key. *)
Theorem convertToCfnParameter_every_entry
    (parameters : gmap string string) (w : Cfn.World) :
  exists result,
    Cfn.convertToCfnParameter parameters w = Cfn.Returned result w /\
    length result = size parameters /\
    NoDup (Cfn.ParameterKey <$> result) /\
    forall key value,
      {| Cfn.ParameterKey := key; Cfn.ParameterValue := value |} ∈ result <->
      parameters !! key = Some value.
Proof.
  eexists. split; [reflexivity|]. apply convertToCfnParameter_entries.
Qed.

(** X4. [convertToRequiredCfnParameter] gives the caller's value for each key
    of the template that the caller supplies, and nothing else: a key of
    [parameters] that the template does not declare is dropped, and a
    default of the template is never sent. No key comes twice. *)
Theorem convertToRequiredCfnParameter_template_keys
    (templateParam : gmap string (option string)) (parameters : gmap string string)
    (w : Cfn.World) :
  exists result,
    Cfn.convertToRequiredCfnParameter templateParam parameters w = Cfn.Returned result w /\
    NoDup (Cfn.ParameterKey <$> result) /\
    forall key value,
      {| Cfn.ParameterKey := key; Cfn.ParameterValue := value |} ∈ result <->
      is_Some (templateParam !! key) /\ parameters !! key = Some value.
Proof.
  eexists. split; [reflexivity|].
  rewrite convertToRequiredCfnParameter_in_omap. simpl.
  pose proof (Cfn.range_order w _ Cfn.in_convertToRequiredCfnParameter templateParam)
    as Hperm.
  split.
  - apply required_keys_NoDup. rewrite Hperm. apply NoDup_fst_map_to_list.
  - intros key value. rewrite elem_of_required, Hperm.
    rewrite list_elem_of_fmap. split.
    + intros [[[k d] [-> Hin]] Hv]. split; [|done].
      apply elem_of_map_to_list in Hin. by exists d.
    + intros [[d Hd] Hv]. split; [|done].
      exists (key, d). split; [done|]. by apply elem_of_map_to_list.
Qed.

(** ** The methods of [Stack] *)

Ltac cfn_run :=
  unfold mbind, Cfn.M_bind, Cfn.bind, mret, Cfn.M_ret, Cfn.ret, Cfn.emit,
    Cfn.log_Println, Cfn.fmt_Println, Cfn.panic; simpl.

Lemma sent_add_event (e : Cfn.Event) (w : Cfn.World) :
  sent (Cfn.add_event e w) = sent w ++ [Cfn.call e].
Proof. unfold sent. simpl. by rewrite reverse_cons. Qed.

Lemma sent_add_log (line : string) (w : Cfn.World) :
  sent (Cfn.add_log line w) = sent w.
Proof. done. Qed.

Lemma last_value_app {V} (pre post : list (string * V)) (key : string) :
  last_value (pre ++ post) key =
  match last_value post key with
  | Some v => Some v
  | None => last_value pre key
  end.
Proof.
  induction pre as [|[k v] pre IH]; simpl.
  - by destruct (last_value post key).
  - rewrite IH. by destruct (last_value post key).
Qed.

Lemma template_loop_returns (parameters : list Cfn.TemplateParameter)
    (m : gmap string (option string)) (w : Cfn.World) :
  Forall (fun tp => is_Some (Cfn.tp_ParameterKey tp)) parameters ->
  exists m',
    Cfn.template_loop parameters m w = Cfn.Returned m' w /\
    forall key,
      m' !! key = from_option Some (m !! key)
                    (last_value (omap template_pair parameters) key).
Proof.
  revert m. induction parameters as [|tp rest IH]; intros m Hall.
  - by exists m.
  - apply Forall_cons in Hall as [[k Hk] Hall].
    replace (omap template_pair (tp :: rest))
      with ((k, Cfn.tp_DefaultValue tp) :: omap template_pair rest)
      by (simpl; unfold template_pair at 2; by rewrite Hk).
    simpl (Cfn.template_loop _ _). rewrite Hk.
    destruct (IH (<[k := Cfn.tp_DefaultValue tp]> m) Hall) as [m' [Hrun Hm']].
    exists m'. split; [done|]. intros key. rewrite Hm'.
    simpl (last_value _ _).
    destruct (last_value (omap template_pair rest) key) as [d|]; simpl; [done|].
    destruct (String.eqb_spec k key) as [->|Hne]; simpl.
    + by rewrite lookup_insert_eq.
    + by rewrite lookup_insert_ne.
Qed.

Lemma template_loop_world (parameters : list Cfn.TemplateParameter)
    (m m' : gmap string (option string)) (w w' : Cfn.World) :
  Cfn.template_loop parameters m w = Cfn.Returned m' w' -> w' = w.
Proof.
  revert m. induction parameters as [|tp rest IH]; intros m; simpl.
  - by intros [= _ <-].
  - destruct (Cfn.tp_ParameterKey tp); [apply IH|done].
Qed.

Lemma getTeplateParameters_returned (s : Cfn.Stack)
    (templateParam : gmap string (option string)) (w w1 : Cfn.World) :
  Cfn.getTeplateParameters s w = Cfn.Returned (inr templateParam) w1 ->
  w1 = Cfn.add_event
         {| Cfn.call := Cfn.CallValidateTemplate (Cfn.TemplateURL s);
            Cfn.result := None |} w.
Proof.
  unfold Cfn.getTeplateParameters. destruct (Cfn.Cfn s) as [api|]; [|done].
  unfold Cfn.cfn_ValidateTemplate. cfn_run.
  destruct (Cfn.iface.ValidateTemplate api (Cfn.TemplateURL s)) as [e|tps]; [done|].
  simpl.
  destruct (Cfn.template_loop tps ∅ _) as [m w2|msg w2] eqn:Hloop; [|done].
  intros [= _ <-]. by apply template_loop_world in Hloop.
Qed.

Lemma findMissingParametres_none (templateParam : gmap string (option string))
    (parameters : gmap string string) (w : Cfn.World) :
  (forall key, templateParam !! key = Some None -> is_Some (parameters !! key)) ->
  Cfn.findMissingParametres templateParam parameters w = Cfn.Returned None w.
Proof.
  intros Hcov. unfold Cfn.findMissingParametres. f_equal.
  destruct (Params.findMissingParametres_in _ parameters) as [e|] eqn:He; [|done].
  assert (Hsome : is_Some (Params.findMissingParametres_in
            (Cfn.range w _ Cfn.in_findMissingParametres templateParam) parameters))
    by (by rewrite He).
  apply findMissingParametres_in_error in Hsome as [key [Hin Hnone]].
  rewrite Cfn.range_order in Hin. apply elem_of_map_to_list in Hin.
  apply Hcov in Hin as [v Hv]. congruence.
Qed.

Lemma required_parameters (templateParam : gmap string (option string))
    (parameters : gmap string string) (w : Cfn.World) (key value : string) :
  {| Cfn.ParameterKey := key; Cfn.ParameterValue := value |} ∈
    Cfn.convertToRequiredCfnParameter_in
      (Cfn.range w _ Cfn.in_convertToRequiredCfnParameter templateParam) parameters [] <->
  is_Some (templateParam !! key) /\ parameters !! key = Some value.
Proof.
  rewrite convertToRequiredCfnParameter_in_omap. simpl.
  rewrite elem_of_required, Cfn.range_order, list_elem_of_fmap. split.
  - intros [[[k d] [-> Hin]] Hv]. split; [|done].
    apply elem_of_map_to_list in Hin. by exists d.
  - intros [[d Hd] Hv]. split; [|done].
    exists (key, d). split; [done|]. by apply elem_of_map_to_list.
Qed.

(** X5. When a parameter of the template has no default and the caller gives
    no value for it, [CreateOrUpdate] returns the error of
    [findMissingParametres], which names the key, and logs it; the only
    request it has sent is [ValidateTemplate]: the stack is neither described,
    created nor changed. *)
Theorem CreateOrUpdate_missing_parameter_sends_nothing
    (s : Cfn.Stack) (parameters : gmap string string)
    (templateParam : gmap string (option string)) (key : string) (w w1 : Cfn.World) :
  Cfn.getTeplateParameters s w = Cfn.Returned (inr templateParam) w1 ->
  templateParam !! key = Some None ->
  parameters !! key = None ->
  exists missing w',
    let e := errorString ("Missing: [" +:+ GoString.join missing "," +:+ "]") in
    key ∈ missing /\
    Cfn.CreateOrUpdate s parameters w = Cfn.Returned (Some e) w' /\
    sent w' = sent w ++ [Cfn.CallValidateTemplate (Cfn.TemplateURL s)] /\
    Cfn.log w' = Error e :: Cfn.log w.
Proof.
  intros Hget Hkey Hnone.
  pose proof (getTeplateParameters_returned _ _ _ _ Hget) as Hw1.
  set (entries := Cfn.range w1 _ Cfn.in_findMissingParametres templateParam).
  set (missing := Params.missing_of entries parameters).
  exists missing.
  exists (Cfn.add_log ("Missing: [" +:+ GoString.join missing "," +:+ "]") w1).
  assert (Hin : key ∈ missing).
  { apply elem_of_missing_of. split; [|done].
    unfold entries. rewrite Cfn.range_order. by apply elem_of_map_to_list. }
  split; [done|].
  unfold Cfn.CreateOrUpdate.
  destruct (Cfn.Cfn s) as [api|] eqn:Hc.
  2:{ unfold Cfn.getTeplateParameters in Hget. by rewrite Hc in Hget. }
  cfn_run. rewrite Hget. unfold Cfn.findMissingParametres.
  unfold Params.findMissingParametres_in. fold entries. fold missing.
  destruct (Nat.eqb_spec (length missing) 0) as [Hlen|Hlen].
  { apply nil_length_inv in Hlen. rewrite Hlen in Hin. by apply elem_of_nil in Hin. }
  simpl. split; [reflexivity|]. subst w1. split; [|done].
  by rewrite sent_add_log, sent_add_event.
Qed.

Lemma CreateOrUpdate_missing_parameter_sends_nothing_witness :
  exists missing w',
    let e := errorString ("Missing: [" +:+ GoString.join missing "," +:+ "]") in
    "Env" ∈ missing /\
    Cfn.CreateOrUpdate (sample_stack "app") {[ "Size" := "large" ]} sample_cfn_world =
      Cfn.Returned (Some e) w' /\
    sent w' = sent sample_cfn_world ++
              [Cfn.CallValidateTemplate (Cfn.TemplateURL (sample_stack "app"))] /\
    Cfn.log w' = Error e :: Cfn.log sample_cfn_world.
Proof.
  apply (CreateOrUpdate_missing_parameter_sends_nothing (sample_stack "app")
           {[ "Size" := "large" ]} sample_template_map "Env" sample_cfn_world
           (Cfn.add_event
              {| Cfn.call := Cfn.CallValidateTemplate "https://templates/app.yaml";
                 Cfn.result := None |} sample_cfn_world)).
  - reflexivity.
  - reflexivity.
  - reflexivity.
Defined.

(** X6. With every required parameter supplied, [CreateOrUpdate] takes any
    error of [DescribeStacks], whatever its cause, as the stack not
    existing: it sends [CreateStack] with the capabilities of the stack and
    with the caller's values for the keys of the template, and no others,
    waits for the creation only if that request succeeded, and returns the
    first error of the two requests. It never sends [CreateChangeSet]
    then. *)
Theorem CreateOrUpdate_creates_the_stack
    (s : Cfn.Stack) (api : Cfn.API) (parameters : gmap string string)
    (templateParam : gmap string (option string)) (err : error) (w w1 : Cfn.World) :
  Cfn.Cfn s = Some api ->
  Cfn.getTeplateParameters s w = Cfn.Returned (inr templateParam) w1 ->
  (forall key, templateParam !! key = Some None -> is_Some (parameters !! key)) ->
  Cfn.iface.DescribeStacks api (Cfn.Name s) = inl err ->
  exists cfnParameters w',
    let input :=
      {| Cfn.cs_TemplateURL := Cfn.TemplateURL s; Cfn.cs_StackName := Cfn.Name s;
         Cfn.cs_Capabilities := Cfn.Capabilities s;
         Cfn.cs_Parameters := cfnParameters |} in
    (forall key value,
       {| Cfn.ParameterKey := key; Cfn.ParameterValue := value |} ∈ cfnParameters <->
       is_Some (templateParam !! key) /\ parameters !! key = Some value) /\
    Cfn.CreateOrUpdate s parameters w =
      Cfn.Returned
        (match Cfn.iface.CreateStack api input with
         | Some e => Some e
         | None => Cfn.iface.WaitUntilStackCreateComplete api (Cfn.Name s)
         end) w' /\
    sent w' =
      sent w ++
      [Cfn.CallValidateTemplate (Cfn.TemplateURL s);
       Cfn.CallDescribeStacks (Cfn.Name s);
       Cfn.CallCreateStack input] ++
      match Cfn.iface.CreateStack api input with
      | Some _ => []
      | None => [Cfn.CallWaitUntilStackCreateComplete (Cfn.Name s)]
      end.
Proof.
  intros Hc Hget Hcov Hdesc.
  pose proof (getTeplateParameters_returned _ _ _ _ Hget) as Hw1.
  pose proof (findMissingParametres_none _ _ w1 Hcov) as Hmiss.
  unfold Cfn.findMissingParametres in Hmiss. injection Hmiss as Hmiss.
  set (ps := Cfn.convertToRequiredCfnParameter_in
               (Cfn.range w1 _ Cfn.in_convertToRequiredCfnParameter templateParam)
               parameters []).
  exists ps. cbv zeta.
  set (input := {| Cfn.cs_TemplateURL := Cfn.TemplateURL s;
                   Cfn.cs_StackName := Cfn.Name s;
                   Cfn.cs_Capabilities := Cfn.Capabilities s;
                   Cfn.cs_Parameters := ps |}).
  assert (Hrun : Cfn.CreateOrUpdate s parameters w =
                 Cfn.createStack s ps
                   (Cfn.add_event {| Cfn.call := Cfn.CallDescribeStacks (Cfn.Name s);
                                     Cfn.result := Some err |} w1)).
  { unfold Cfn.CreateOrUpdate. rewrite Hc. cfn_run. rewrite Hget.
    unfold Cfn.findMissingParametres. rewrite Hmiss.
    unfold Cfn.convertToRequiredCfnParameter, Cfn.cfn_DescribeStacks. cfn_run.
    by rewrite Hdesc. }
  rewrite Hrun. unfold Cfn.createStack. rewrite Hc.
  unfold Cfn.cfn_CreateStack, Cfn.cfn_WaitUntilStackCreateComplete. cfn_run.
  fold input.
  destruct (Cfn.iface.CreateStack api input) as [e|];
    [|destruct (Cfn.iface.WaitUntilStackCreateComplete api (Cfn.Name s)) as [e|]];
    simpl; eexists; (split; [apply (required_parameters _ _ w1)|]);
    (split; [reflexivity|]); subst w1;
    rewrite ?sent_add_log, !sent_add_event; simpl; by rewrite <- !app_assoc.
Qed.

Lemma CreateOrUpdate_creates_the_stack_witness :
  exists cfnParameters w',
    let s := sample_stack "new" in
    let parameters : gmap string string := {[ "Env" := "prod"; "Owner" := "ops" ]} in
    let input :=
      {| Cfn.cs_TemplateURL := Cfn.TemplateURL s; Cfn.cs_StackName := Cfn.Name s;
         Cfn.cs_Capabilities := Cfn.Capabilities s;
         Cfn.cs_Parameters := cfnParameters |} in
    (forall key value,
       {| Cfn.ParameterKey := key; Cfn.ParameterValue := value |} ∈ cfnParameters <->
       is_Some (sample_template_map !! key) /\ parameters !! key = Some value) /\
    Cfn.CreateOrUpdate s parameters sample_cfn_world =
      Cfn.Returned
        (match Cfn.iface.CreateStack sample_cfn input with
         | Some e => Some e
         | None => Cfn.iface.WaitUntilStackCreateComplete sample_cfn (Cfn.Name s)
         end) w' /\
    sent w' =
      sent sample_cfn_world ++
      [Cfn.CallValidateTemplate (Cfn.TemplateURL s);
       Cfn.CallDescribeStacks (Cfn.Name s);
       Cfn.CallCreateStack input] ++
      match Cfn.iface.CreateStack sample_cfn input with
      | Some _ => []
      | None => [Cfn.CallWaitUntilStackCreateComplete (Cfn.Name s)]
      end.
Proof.
  apply (CreateOrUpdate_creates_the_stack (sample_stack "new") sample_cfn
           {[ "Env" := "prod"; "Owner" := "ops" ]} sample_template_map
           (awsError "ValidationError" "Stack does not exist") sample_cfn_world
           (Cfn.add_event
              {| Cfn.call := Cfn.CallValidateTemplate "https://templates/app.yaml";
                 Cfn.result := None |} sample_cfn_world)).
  - reflexivity.
  - reflexivity.
  - intros key Hkey.
    destruct (decide (key = "Env")) as [->|Hne]; [by eexists|].
    destruct (decide (key = "Size")) as [->|Hne']; [done|].
    unfold sample_template_map in Hkey.
    rewrite lookup_insert_ne, lookup_singleton_ne in Hkey by done. done.
  - reflexivity.
Defined.

(** X7. With every required parameter supplied, [CreateOrUpdate] on a stack
    that [DescribeStacks] finds sends [CreateChangeSet], named after the
    stack and the time, with the caller's values for the keys of the
    template and no others; it then waits with
    [WaitUntilStackCreateComplete], as for a creation, only if the request
    succeeded, and returns the first error of the two requests. It never
    sends [CreateStack] then. *)
Theorem CreateOrUpdate_creates_a_change_set
    (s : Cfn.Stack) (api : Cfn.API) (parameters : gmap string string)
    (templateParam : gmap string (option string))
    (stacks : list Cfn.StackDescription) (w w1 : Cfn.World) :
  Cfn.Cfn s = Some api ->
  Cfn.getTeplateParameters s w = Cfn.Returned (inr templateParam) w1 ->
  (forall key, templateParam !! key = Some None -> is_Some (parameters !! key)) ->
  Cfn.iface.DescribeStacks api (Cfn.Name s) = inr stacks ->
  exists cfnParameters w',
    let input :=
      {| Cfn.ccs_TemplateURL := Cfn.TemplateURL s; Cfn.ccs_StackName := Cfn.Name s;
         Cfn.ccs_ChangeSetName := Cfn.Name s +:+ "-" +:+ Cfn.now w;
         Cfn.ccs_Parameters := cfnParameters |} in
    (forall key value,
       {| Cfn.ParameterKey := key; Cfn.ParameterValue := value |} ∈ cfnParameters <->
       is_Some (templateParam !! key) /\ parameters !! key = Some value) /\
    Cfn.CreateOrUpdate s parameters w =
      Cfn.Returned
        (match Cfn.iface.CreateChangeSet api input with
         | Some e => Some e
         | None => Cfn.iface.WaitUntilStackCreateComplete api (Cfn.Name s)
         end) w' /\
    sent w' =
      sent w ++
      [Cfn.CallValidateTemplate (Cfn.TemplateURL s);
       Cfn.CallDescribeStacks (Cfn.Name s);
       Cfn.CallCreateChangeSet input] ++
      match Cfn.iface.CreateChangeSet api input with
      | Some _ => []
      | None => [Cfn.CallWaitUntilStackCreateComplete (Cfn.Name s)]
      end.
Proof.
  intros Hc Hget Hcov Hdesc.
  pose proof (getTeplateParameters_returned _ _ _ _ Hget) as Hw1.
  pose proof (findMissingParametres_none _ _ w1 Hcov) as Hmiss.
  unfold Cfn.findMissingParametres in Hmiss. injection Hmiss as Hmiss.
  set (ps := Cfn.convertToRequiredCfnParameter_in
               (Cfn.range w1 _ Cfn.in_convertToRequiredCfnParameter templateParam)
               parameters []).
  exists ps. cbv zeta.
  set (input := {| Cfn.ccs_TemplateURL := Cfn.TemplateURL s;
                   Cfn.ccs_StackName := Cfn.Name s;
                   Cfn.ccs_ChangeSetName := Cfn.Name s +:+ "-" +:+ Cfn.now w;
                   Cfn.ccs_Parameters := ps |}).
  assert (Hrun : Cfn.CreateOrUpdate s parameters w =
                 Cfn.createChangeSet s ps
                   (Cfn.add_event {| Cfn.call := Cfn.CallDescribeStacks (Cfn.Name s);
                                     Cfn.result := None |} w1)).
  { unfold Cfn.CreateOrUpdate. rewrite Hc. cfn_run. rewrite Hget.
    unfold Cfn.findMissingParametres. rewrite Hmiss.
    unfold Cfn.convertToRequiredCfnParameter, Cfn.cfn_DescribeStacks. cfn_run.
    by rewrite Hdesc. }
  rewrite Hrun. unfold Cfn.createChangeSet. rewrite Hc.
  unfold Cfn.cfn_CreateChangeSet, Cfn.cfn_WaitUntilStackCreateComplete. cfn_run.
  replace (Cfn.now w1) with (Cfn.now w) by (by subst w1).
  fold input.
  destruct (Cfn.iface.CreateChangeSet api input) as [e|];
    [|destruct (Cfn.iface.WaitUntilStackCreateComplete api (Cfn.Name s)) as [e|]];
    simpl; eexists; (split; [apply (required_parameters _ _ w1)|]);
    (split; [reflexivity|]); subst w1;
    rewrite ?sent_add_log, !sent_add_event; simpl; by rewrite <- !app_assoc.
Qed.

Lemma CreateOrUpdate_creates_a_change_set_witness :
  exists cfnParameters w',
    let s := sample_stack "app" in
    let parameters : gmap string string := {[ "Env" := "prod"; "Owner" := "ops" ]} in
    let input :=
      {| Cfn.ccs_TemplateURL := Cfn.TemplateURL s; Cfn.ccs_StackName := Cfn.Name s;
         Cfn.ccs_ChangeSetName := Cfn.Name s +:+ "-" +:+ Cfn.now sample_cfn_world;
         Cfn.ccs_Parameters := cfnParameters |} in
    (forall key value,
       {| Cfn.ParameterKey := key; Cfn.ParameterValue := value |} ∈ cfnParameters <->
       is_Some (sample_template_map !! key) /\ parameters !! key = Some value) /\
    Cfn.CreateOrUpdate s parameters sample_cfn_world =
      Cfn.Returned
        (match Cfn.iface.CreateChangeSet sample_cfn input with
         | Some e => Some e
         | None => Cfn.iface.WaitUntilStackCreateComplete sample_cfn (Cfn.Name s)
         end) w' /\
    sent w' =
      sent sample_cfn_world ++
      [Cfn.CallValidateTemplate (Cfn.TemplateURL s);
       Cfn.CallDescribeStacks (Cfn.Name s);
       Cfn.CallCreateChangeSet input] ++
      match Cfn.iface.CreateChangeSet sample_cfn input with
      | Some _ => []
      | None => [Cfn.CallWaitUntilStackCreateComplete (Cfn.Name s)]
      end.
Proof.
  apply (CreateOrUpdate_creates_a_change_set (sample_stack "app") sample_cfn
           {[ "Env" := "prod"; "Owner" := "ops" ]} sample_template_map
           [ {| Cfn.Outputs := sample_outputs |} ] sample_cfn_world
           (Cfn.add_event
              {| Cfn.call := Cfn.CallValidateTemplate "https://templates/app.yaml";
                 Cfn.result := None |} sample_cfn_world)).
  - reflexivity.
  - reflexivity.
  - intros key Hkey.
    destruct (decide (key = "Env")) as [->|Hne]; [by eexists|].
    destruct (decide (key = "Size")) as [->|Hne']; [done|].
    unfold sample_template_map in Hkey.
    rewrite lookup_insert_ne, lookup_singleton_ne in Hkey by done. done.
  - reflexivity.
Defined.

Lemma summaries_loop_no_client (summaries : list Cfn.StackSummary)
    (results results' : list Cfn.Stack) (w w' : Cfn.World) :
  Forall (fun s => Cfn.Cfn s = None) results ->
  Cfn.summaries_loop summaries results w = Cfn.Returned results' w' ->
  Forall (fun s => Cfn.Cfn s = None) results'.
Proof.
  revert results. induction summaries as [|summary rest IH]; intros results Hall; simpl.
  - by intros [= <- _].
  - destruct (Cfn.StackName summary) as [name|]; [|done].
    apply IH. apply Forall_app. split; [done|]. by repeat constructor.
Qed.

(** X8. The stacks [GetAllStacksBy] returns carry no client: on each of them
    [CreateOrUpdate], [CreateStack], [CreateChangeSet], [ReadOutputs] and
    [GetTeplateParameters] return the error ["Aws Client not defined"] and
    send no request, whatever the parameters. *)
Theorem GetAllStacksBy_stacks_have_no_client
    (region : string) (stacks : list Cfn.Stack) (w w' : Cfn.World) :
  Cfn.GetAllStacksBy region w = Cfn.Returned (inr stacks) w' ->
  Forall (fun s =>
    forall (parameters : gmap string string) (w0 : Cfn.World),
      let e := errorString messageClientNotDefined in
      Cfn.CreateOrUpdate s parameters w0 = Cfn.Returned (Some e) w0 /\
      Cfn.CreateStack s parameters w0 = Cfn.Returned (Some e) w0 /\
      Cfn.CreateChangeSet s parameters w0 = Cfn.Returned (Some e) w0 /\
      Cfn.ReadOutputs s w0 = Cfn.Returned (inl e) w0 /\
      Cfn.GetTeplateParameters s w0 = Cfn.Returned (inl e) w0) stacks.
Proof.
  unfold Cfn.GetAllStacksBy, Cfn.session_Must, Cfn.cfn_ListStacks. cfn_run.
  destruct (Cfn.new_session w region) as [e0|svc]; [done|].
  destruct (Cfn.iface.ListStacks svc Cfn.filter) as [e0|summaries]; simpl; [done|].
  destruct (Cfn.summaries_loop summaries [] _) as [results w1|msg w1] eqn:Hloop; [|done].
  intros [= <- _].
  apply summaries_loop_no_client in Hloop; [|constructor].
  eapply Forall_impl; [exact Hloop|]. intros s Hs parameters w0.
  unfold Cfn.CreateOrUpdate, Cfn.CreateStack, Cfn.CreateChangeSet, Cfn.ReadOutputs,
    Cfn.GetTeplateParameters.
  by rewrite Hs.
Qed.

Lemma GetAllStacksBy_stacks_have_no_client_witness :
  Forall (fun s =>
    forall (parameters : gmap string string) (w0 : Cfn.World),
      let e := errorString messageClientNotDefined in
      Cfn.CreateOrUpdate s parameters w0 = Cfn.Returned (Some e) w0 /\
      Cfn.CreateStack s parameters w0 = Cfn.Returned (Some e) w0 /\
      Cfn.CreateChangeSet s parameters w0 = Cfn.Returned (Some e) w0 /\
      Cfn.ReadOutputs s w0 = Cfn.Returned (inl e) w0 /\
      Cfn.GetTeplateParameters s w0 = Cfn.Returned (inl e) w0)
    [ {| Cfn.Cfn := None; Cfn.Name := "app"; Cfn.TemplateURL := "";
         Cfn.Capabilities := []; Cfn.Status := Some "CREATE_COMPLETE" |} ].
Proof.
  apply (GetAllStacksBy_stacks_have_no_client "region" _ sample_cfn_world
           (Cfn.add_event {| Cfn.call := Cfn.CallListStacks Cfn.filter;
                             Cfn.result := None |} sample_cfn_world)).
  reflexivity.
Defined.

Lemma outputs_loop_returns (outputs : list Cfn.Output) (m : gmap string string)
    (w : Cfn.World) :
  Forall (fun o => is_Some (output_pair o)) outputs ->
  exists m',
    Cfn.outputs_loop outputs m w = Cfn.Returned m' w /\
    forall key,
      m' !! key = from_option Some (m !! key) (last_value (omap output_pair outputs) key).
Proof.
  revert m. induction outputs as [|o rest IH]; intros m Hall.
  - by exists m.
  - apply Forall_cons in Hall as [[[k v] Hkv] Hall].
    replace (omap output_pair (o :: rest)) with ((k, v) :: omap output_pair rest)
      by (simpl; by rewrite Hkv).
    simpl (Cfn.outputs_loop _ _). unfold output_pair in Hkv.
    destruct (Cfn.OutputKey o) as [k'|]; [|done].
    destruct (Cfn.OutputValue o) as [v'|]; [|done].
    injection Hkv as -> ->.
    destruct (IH (<[k := v]> m) Hall) as [m' [Hrun Hm']].
    exists m'. split; [done|]. intros key. rewrite Hm'.
    simpl (last_value _ _).
    destruct (last_value (omap output_pair rest) key) as [d|]; simpl; [done|].
    destruct (String.eqb_spec k key) as [->|Hne]; simpl.
    + by rewrite lookup_insert_eq.
    + by rewrite lookup_insert_ne.
Qed.

Lemma stacks_loop_returns (stacks : list Cfn.StackDescription) (m : gmap string string)
    (w : Cfn.World) :
  Forall (fun o => is_Some (output_pair o)) (outputs_of stacks) ->
  exists m',
    Cfn.stacks_loop stacks m w = Cfn.Returned m' w /\
    forall key,
      m' !! key = from_option Some (m !! key)
                    (last_value (omap output_pair (outputs_of stacks)) key).
Proof.
  revert m. induction stacks as [|stack rest IH]; intros m Hall.
  - by exists m.
  - unfold outputs_of in Hall. simpl in Hall. apply Forall_app in Hall as [Hfirst Hall].
    destruct (outputs_loop_returns (Cfn.Outputs stack) m w Hfirst) as [m1 [Hrun1 Hm1]].
    destruct (IH m1 Hall) as [m' [Hrun Hm']].
    exists m'. split.
    + simpl. cfn_run. by rewrite Hrun1.
    + intros key. rewrite Hm', Hm1.
      replace (outputs_of (stack :: rest)) with (Cfn.Outputs stack ++ outputs_of rest)
        by done.
      rewrite omap_app, last_value_app.
      by destruct (last_value (omap output_pair (outputs_of rest)) key).
Qed.

(** X9. [ReadOutputs] sends one [DescribeStacks] request and returns the
    outputs of all stacks of the answer as one map: a key is in the map
    exactly when an output has it, with the value of the last output that
    has it. *)
Theorem ReadOutputs_last_value
    (s : Cfn.Stack) (api : Cfn.API) (stacks : list Cfn.StackDescription)
    (w : Cfn.World) :
  Cfn.Cfn s = Some api ->
  Cfn.iface.DescribeStacks api (Cfn.Name s) = inr stacks ->
  Forall (fun o => is_Some (Cfn.OutputKey o) /\ is_Some (Cfn.OutputValue o))
    (outputs_of stacks) ->
  exists parameters,
    Cfn.ReadOutputs s w =
      Cfn.Returned (inr parameters)
        (Cfn.add_event {| Cfn.call := Cfn.CallDescribeStacks (Cfn.Name s);
                          Cfn.result := None |} w) /\
    forall key,
      parameters !! key = last_value (omap output_pair (outputs_of stacks)) key.
Proof.
  intros Hc Hdesc Hall.
  assert (Hpairs : Forall (fun o => is_Some (output_pair o)) (outputs_of stacks)).
  { eapply Forall_impl; [exact Hall|]. intros o [[k Hk] [v Hv]].
    unfold output_pair. rewrite Hk, Hv. by eexists. }
  destruct (stacks_loop_returns stacks ∅
              (Cfn.add_event {| Cfn.call := Cfn.CallDescribeStacks (Cfn.Name s);
                                Cfn.result := None |} w) Hpairs) as [m [Hrun Hm]].
  exists m. split.
  - unfold Cfn.ReadOutputs, Cfn.cfn_DescribeStacks. rewrite Hc. cfn_run.
    rewrite Hdesc. simpl. by rewrite Hrun.
  - intros key. rewrite Hm, lookup_empty.
    by destruct (last_value _ key).
Qed.

Lemma ReadOutputs_last_value_witness :
  exists parameters,
    Cfn.ReadOutputs (sample_stack "app") sample_cfn_world =
      Cfn.Returned (inr parameters)
        (Cfn.add_event {| Cfn.call := Cfn.CallDescribeStacks "app";
                          Cfn.result := None |} sample_cfn_world) /\
    forall key,
      parameters !! key =
      last_value [("Url", "https://old"); ("Arn", "arn:app"); ("Url", "https://app")] key.
Proof.
  apply (ReadOutputs_last_value (sample_stack "app") sample_cfn
           [ {| Cfn.Outputs := sample_outputs |} ] sample_cfn_world).
  - reflexivity.
  - reflexivity.
  - repeat constructor; by eexists.
Defined.

Lemma outputs_loop_panics (outputs : list Cfn.Output) (m : gmap string string)
    (w : Cfn.World) :
  Exists (fun o => output_pair o = None) outputs ->
  Cfn.outputs_loop outputs m w = Cfn.Panicked nil_dereference w.
Proof.
  revert m. induction outputs as [|o rest IH]; intros m Hex.
  - by apply Exists_nil in Hex.
  - simpl. unfold output_pair in Hex.
    destruct (Cfn.OutputKey o) as [k|] eqn:Hk; [|done].
    destruct (Cfn.OutputValue o) as [v|] eqn:Hv; [|done].
    apply Exists_cons in Hex as [Hex|Hex].
    + by rewrite Hk, Hv in Hex.
    + by apply IH.
Qed.

Lemma outputs_loop_ends (outputs : list Cfn.Output) (m : gmap string string)
    (w : Cfn.World) :
  (exists m', Cfn.outputs_loop outputs m w = Cfn.Returned m' w) \/
  Cfn.outputs_loop outputs m w = Cfn.Panicked nil_dereference w.
Proof.
  revert m. induction outputs as [|o rest IH]; intros m; simpl.
  - left. by eexists.
  - destruct (Cfn.OutputKey o); [|by right].
    destruct (Cfn.OutputValue o); [|by right]. apply IH.
Qed.

Lemma stacks_loop_panics (stacks : list Cfn.StackDescription) (m : gmap string string)
    (w : Cfn.World) :
  Exists (fun o => output_pair o = None) (outputs_of stacks) ->
  Cfn.stacks_loop stacks m w = Cfn.Panicked nil_dereference w.
Proof.
  revert m. induction stacks as [|stack rest IH]; intros m Hex.
  - by apply Exists_nil in Hex.
  - unfold outputs_of in Hex. simpl in Hex. simpl. cfn_run.
    destruct (outputs_loop_ends (Cfn.Outputs stack) m w) as [[m' Hrun]|Hrun];
      rewrite Hrun; [|done].
    apply Exists_app in Hex as [Hex|Hex]; [|by apply IH].
    rewrite outputs_loop_panics in Hrun by done. done.
Qed.

(** X10. [ReadOutputs] reads the key and the value of each output through
    their pointers without a check: when an output of the answer has a nil
    key or a nil value it panics, after the request, instead of returning
    an error. *)
Theorem ReadOutputs_nil_output_panics
    (s : Cfn.Stack) (api : Cfn.API) (stacks : list Cfn.StackDescription)
    (w : Cfn.World) :
  Cfn.Cfn s = Some api ->
  Cfn.iface.DescribeStacks api (Cfn.Name s) = inr stacks ->
  Exists (fun o => Cfn.OutputKey o = None \/ Cfn.OutputValue o = None)
    (outputs_of stacks) ->
  Cfn.ReadOutputs s w =
    Cfn.Panicked nil_dereference
      (Cfn.add_event {| Cfn.call := Cfn.CallDescribeStacks (Cfn.Name s);
                        Cfn.result := None |} w).
Proof.
  intros Hc Hdesc Hex.
  unfold Cfn.ReadOutputs, Cfn.cfn_DescribeStacks. rewrite Hc. cfn_run.
  rewrite Hdesc. simpl. rewrite stacks_loop_panics; [done|].
  eapply Exists_impl; [exact Hex|]. intros o [Hk|Hv]; unfold output_pair.
  - by rewrite Hk.
  - rewrite Hv. by destruct (Cfn.OutputKey o).
Qed.

Lemma ReadOutputs_nil_output_panics_witness :
  Cfn.ReadOutputs nil_value_stack sample_cfn_world =
    Cfn.Panicked nil_dereference
      (Cfn.add_event {| Cfn.call := Cfn.CallDescribeStacks "app";
                        Cfn.result := None |} sample_cfn_world).
Proof.
  apply (ReadOutputs_nil_output_panics nil_value_stack nil_value_cfn
           [ {| Cfn.Outputs :=
                  [ {| Cfn.OutputKey := Some "Url"; Cfn.OutputValue := None |} ] |} ]
           sample_cfn_world).
  - reflexivity.
  - reflexivity.
  - constructor. by right.
Defined.

(** X11. [GetTeplateParameters] sends one [ValidateTemplate] request for the
    template of the stack and returns its parameters as a map from each key
    to its default, nil for a parameter without one; of two parameters with
    the same key the last one counts. *)
Theorem GetTeplateParameters_last_default
    (s : Cfn.Stack) (api : Cfn.API) (parameters : list Cfn.TemplateParameter)
    (w : Cfn.World) :
  Cfn.Cfn s = Some api ->
  Cfn.iface.ValidateTemplate api (Cfn.TemplateURL s) = inr parameters ->
  Forall (fun tp => is_Some (Cfn.tp_ParameterKey tp)) parameters ->
  exists templateParam,
    Cfn.GetTeplateParameters s w =
      Cfn.Returned (inr templateParam)
        (Cfn.add_event {| Cfn.call := Cfn.CallValidateTemplate (Cfn.TemplateURL s);
                          Cfn.result := None |} w) /\
    forall key,
      templateParam !! key = last_value (omap template_pair parameters) key.
Proof.
  intros Hc Hval Hall.
  destruct (template_loop_returns parameters ∅
              (Cfn.add_event {| Cfn.call := Cfn.CallValidateTemplate (Cfn.TemplateURL s);
                                Cfn.result := None |} w) Hall) as [m [Hrun Hm]].
  exists m. split.
  - unfold Cfn.GetTeplateParameters, Cfn.getTeplateParameters, Cfn.cfn_ValidateTemplate.
    rewrite Hc. cfn_run. rewrite Hval. simpl. by rewrite Hrun.
  - intros key. rewrite Hm, lookup_empty. by destruct (last_value _ key).
Qed.

Lemma GetTeplateParameters_last_default_witness :
  exists templateParam,
    Cfn.GetTeplateParameters (sample_stack "app") sample_cfn_world =
      Cfn.Returned (inr templateParam)
        (Cfn.add_event
           {| Cfn.call := Cfn.CallValidateTemplate "https://templates/app.yaml";
              Cfn.result := None |} sample_cfn_world) /\
    forall key,
      templateParam !! key = last_value [("Env", None); ("Size", Some "small")] key.
Proof.
  apply (GetTeplateParameters_last_default (sample_stack "app") sample_cfn
           sample_template sample_cfn_world).
  - reflexivity.
  - reflexivity.
  - repeat constructor; by eexists.
Defined.

(** ** Lines of parameters *)

Lemma string_app_nil_r (s : string) : s +:+ "" = s.
Proof.
  induction s as [|c s IH]; [done|]. by rewrite string_app_cons, IH.
Qed.

Section SplitFacts.

Variable sep : ascii.

Lemma split_no_sep (s : string) :
  contains sep s = false -> GoString.split sep s = [s].
Proof.
  induction s as [|c s IH]; simpl; [done|].
  intros Hc. apply orb_false_iff in Hc as [Hc Hs].
  rewrite Hc, (IH Hs). done.
Qed.

Lemma split_at_sep (k rest : string) :
  contains sep k = false ->
  GoString.split sep (k +:+ String sep rest) = k :: GoString.split sep rest.
Proof.
  induction k as [|c k IH]; intros Hc.
  - change ("" +:+ String sep rest) with (String sep rest).
    simpl. by rewrite Ascii.eqb_refl.
  - simpl in Hc. apply orb_false_iff in Hc as [Hc Hk].
    rewrite string_app_cons. simpl. rewrite Hc, (IH Hk). done.
Qed.

Lemma split_with_sep (s : string) :
  contains sep s = true ->
  exists k v ws, GoString.split sep s = k :: v :: ws.
Proof.
  induction s as [|c s IH]; simpl; [done|].
  destruct (Ascii.eqb c sep) eqn:Hc; simpl.
  - intros _. destruct (GoString.split sep s) as [|v ws] eqn:Hs.
    + destruct s; simpl in Hs; [done|].
      destruct (Ascii.eqb a sep); [done|]. by destruct (GoString.split sep s).
    + by eexists _, _, _.
  - intros Hs. destruct (IH Hs) as [k [v [ws ->]]]. by eexists _, _, _.
Qed.

End SplitFacts.

Lemma assign_no_equals (line : string) (m : gmap string string) :
  assign line m = None <-> contains "="%char line = false.
Proof.
  unfold assign. split.
  - intros Hnone. destruct (contains "="%char line) eqn:Hc; [|done].
    destruct (split_with_sep _ _ Hc) as [k [v [ws Hs]]]. by rewrite Hs in Hnone.
  - intros Hc. by rewrite split_no_sep.
Qed.

Lemma assign_line_of (e : string * string * string) (m : gmap string string) :
  line_parts e -> assign (line_of e) m = Some (<[e.1.1 := e.1.2]> m).
Proof.
  destruct e as [[k v] t]. unfold line_parts, line_of, assign. simpl.
  intros [Hk [Hv Ht]].
  change (k +:+ "=" +:+ v +:+ t) with (k +:+ String "="%char (v +:+ t)).
  rewrite split_at_sep by done.
  destruct Ht as [->|[rest ->]].
  - rewrite string_app_nil_r, split_no_sep by done. done.
  - change (v +:+ "=" +:+ rest) with (v +:+ String "="%char rest).
    rewrite split_at_sep by done. done.
Qed.

Lemma assign_all_lines (entries : list (string * string * string))
    (m : gmap string string) :
  Forall line_parts entries ->
  exists m',
    assign_all (map line_of entries) m = Some m' /\
    forall key,
      m' !! key = from_option Some (m !! key) (last_value (map fst entries) key).
Proof.
  revert m. induction entries as [|e rest IH]; intros m Hall.
  - by exists m.
  - apply Forall_cons in Hall as [He Hall].
    simpl (assign_all _ _). rewrite assign_line_of by done.
    destruct (IH (<[e.1.1 := e.1.2]> m) Hall) as [m' [Hrun Hm']].
    exists m'. split; [done|]. intros key. rewrite Hm'.
    destruct e as [[k v] t]. simpl.
    destruct (last_value (map fst rest) key) as [d|]; simpl; [done|].
    destruct (String.eqb_spec k key) as [->|Hne]; simpl.
    + by rewrite lookup_insert_eq.
    + by rewrite lookup_insert_ne.
Qed.

Lemma assign_all_panics (lines : list string) (m : gmap string string) :
  assign_all lines m = None <-> Exists (fun line => contains "="%char line = false) lines.
Proof.
  revert m. induction lines as [|line rest IH]; intros m; simpl.
  - split; [done|]. intros H. by apply Exists_nil in H.
  - rewrite Exists_cons. destruct (assign line m) as [m'|] eqn:Ha.
    + rewrite IH. split; [by right|]. intros [Hc|Hex]; [|done].
      apply (assign_no_equals _ m) in Hc. congruence.
    + split; [|done]. intros _. left. by apply (assign_no_equals _ m).
Qed.

(** X12. [LoadEnvironmentVariables] takes from each pair of the environment
    the text before the first ["="] as the key and the text between the
    first and the second ["="] as the value: what follows a second ["="]
    is dropped from the value. Of two pairs with the same key the last one
    counts. It touches nothing and returns no error. *)
Theorem LoadEnvironmentVariables_cuts_at_equals
    (entries : list (string * string * string)) (w : World) :
  Forall line_parts entries ->
  exists parameters,
    LoadEnvironmentVariables (map line_of entries) w = Returned (parameters, None) w /\
    forall key, parameters !! key = last_value (map fst entries) key.
Proof.
  intros Hall. destruct (assign_all_lines entries ∅ Hall) as [m [Hrun Hm]].
  exists m. split.
  - unfold LoadEnvironmentVariables. by rewrite Hrun.
  - intros key. rewrite Hm, lookup_empty. by destruct (last_value _ key).
Qed.

Lemma LoadEnvironmentVariables_cuts_at_equals_witness :
  exists parameters,
    LoadEnvironmentVariables ["HOME=/root"; "OPTS=-Dmode=fast"; "EMPTY="] sample_world =
      Returned (parameters, None) sample_world /\
    forall key,
      parameters !! key =
      last_value [("HOME", "/root"); ("OPTS", "-Dmode"); ("EMPTY", "")] key.
Proof.
  apply (LoadEnvironmentVariables_cuts_at_equals
           [("HOME", "/root", ""); ("OPTS", "-Dmode", "=fast"); ("EMPTY", "", "")]
           sample_world).
  repeat constructor; by eexists.
Defined.

(** X13. [LoadEnvironmentVariables] panics, with an index out of range, exactly
    when some pair of the environment holds no ["="]. *)
Theorem LoadEnvironmentVariables_panics_without_equals
    (environ : list string) (w : World) :
  LoadEnvironmentVariables environ w = Panicked index_out_of_range w <->
  Exists (fun pair => contains "="%char pair = false) environ.
Proof.
  rewrite <- (assign_all_panics environ ∅). unfold LoadEnvironmentVariables.
  destruct (assign_all environ ∅); split; done.
Qed.

Lemma string_length_app (a b : string) :
  String.length (a +:+ b) = String.length a + String.length b.
Proof.
  induction a as [|c a IH]; [done|]. rewrite string_app_cons. simpl. by rewrite IH.
Qed.

Lemma contains_app (c : ascii) (a b : string) :
  contains c (a +:+ b) = contains c a || contains c b.
Proof.
  induction a as [|x a IH]; [done|].
  rewrite string_app_cons. simpl. by rewrite IH, orb_assoc.
Qed.

Lemma dropCR_app (a b : string) :
  b <> "" -> Bufio.dropCR (a +:+ b) = a +:+ Bufio.dropCR b.
Proof.
  intros Hb. induction a as [|c a IH]; [done|].
  rewrite !string_app_cons. simpl. rewrite IH.
  destruct (a +:+ b) eqn:Hab; [|done].
  destruct a; [|by rewrite string_app_cons in Hab].
  by destruct b.
Qed.

Lemma dropCR_carriage_return (line : string) :
  Bufio.dropCR (line +:+ String Bufio.carriage_return "") = line.
Proof.
  rewrite dropCR_app by done. simpl. apply string_app_nil_r.
Qed.

Lemma split_write_lines (eol' : string) (lines : list string) :
  Forall (fun line => contains Regexp.newline (line +:+ eol') = false) lines ->
  GoString.split Regexp.newline (write_lines (eol' +:+ line_feed) lines) =
  map (fun line => line +:+ eol') lines ++ [""].
Proof.
  induction lines as [|line rest IH]; intros Hall; [done|].
  apply Forall_cons in Hall as [Hline Hall]. simpl.
  rewrite <- !string_app_assoc.
  change ((line +:+ eol') +:+ line_feed +:+ ?s)
    with ((line +:+ eol') +:+ String Regexp.newline s).
  rewrite string_app_assoc.
  change (line_feed +:+ ?s) with (String Regexp.newline s).
  rewrite split_at_sep by done. by rewrite IH.
Qed.

Lemma scan_lines_cons (piece : string) (rest : list string) :
  rest <> [] ->
  Bufio.scan_lines (piece :: rest) =
  if Bufio.too_long piece then ([], Some Bufio.ErrTooLong)
  else (Bufio.dropCR piece :: (Bufio.scan_lines rest).1, (Bufio.scan_lines rest).2).
Proof.
  intros Hrest. destruct rest as [|next more]; [done|].
  change (Bufio.scan_lines (piece :: next :: more))
    with (if Bufio.too_long piece then ([], Some Bufio.ErrTooLong)
          else let '(tokens, e) := Bufio.scan_lines (next :: more) in
               (Bufio.dropCR piece :: tokens, e)).
  by destruct (Bufio.scan_lines (next :: more)).
Qed.

Lemma scan_lines_short (pieces : list string) :
  Forall (fun piece => Bufio.too_long piece = false) pieces ->
  Bufio.scan_lines (pieces ++ [""]) = (map Bufio.dropCR pieces, None).
Proof.
  induction pieces as [|piece rest IH]; intros Hall; [done|].
  apply Forall_cons in Hall as [Hpiece Hall].
  change ((piece :: rest) ++ [""]) with (piece :: (rest ++ [""])).
  rewrite scan_lines_cons by (by destruct rest).
  by rewrite Hpiece, (IH Hall).
Qed.

Lemma too_long_short (line : string) :
  (N.of_nat (String.length line) < 65536)%N -> Bufio.too_long line = false.
Proof.
  intros Hlen. unfold Bufio.too_long, Bufio.MaxScanTokenSize.
  by apply N.leb_gt.
Qed.

Lemma scan_write_lines (eol' : string) (lines : list string) :
  eol' = "" \/ eol' = String Bufio.carriage_return "" ->
  Forall (fun line => contains Regexp.newline line = false /\
                      (N.of_nat (String.length line) < 65535)%N) lines ->
  Bufio.scan (write_lines (eol' +:+ line_feed) lines) =
  (map (fun line => Bufio.dropCR (line +:+ eol')) lines, None).
Proof.
  intros Heol Hall. unfold Bufio.scan.
  rewrite split_write_lines.
  - rewrite scan_lines_short.
    + by rewrite map_map.
    + apply Forall_map. eapply Forall_impl; [exact Hall|].
      intros line [_ Hlen]. simpl. apply too_long_short.
      rewrite string_length_app. destruct Heol as [->| ->]; simpl; lia.
  - eapply Forall_impl; [exact Hall|]. intros line [Hnl _]. simpl.
    rewrite contains_app, Hnl. by destruct Heol as [->| ->].
Qed.

(** X14. [LoadParameters] on a file that can be opened, whose lines each hold
    a ["="] and end with a newline, with or without a carriage return
    before it, returns no error and a map that holds, for each line, the
    text before the first ["="] as the key and the text between the first
    and the second ["="] as the value; of two lines with the same key the
    last one counts. It closes the file. Where the lines end with a newline
    only, a value must not end with a carriage return, which the scanner
    would drop. *)
Theorem LoadParameters_reads_the_lines
    (fileName eol : string) (entries : list (string * string * string))
    (r wr : bool) (w : World) :
  open_error w fileName = None ->
  FS.lookup (fs w) (FS.resolve (cwd w) fileName) =
    inr (FS.File r wr (write_lines eol (map line_of entries))) ->
  Forall file_line entries ->
  eol = crlf \/
  (eol = line_feed /\
   Forall (fun e => Bufio.dropCR (line_of e) = line_of e) entries) ->
  exists parameters,
    LoadParameters fileName w =
      Returned (Some parameters, None)
        (add_event {| call := CallClose fileName; result := None |}
           (add_event {| call := CallOpen fileName; result := None |} w)) /\
    forall key, parameters !! key = last_value (map fst entries) key.
Proof.
  intros Hopen Hfile Hall Heol.
  assert (Hparts : Forall line_parts entries).
  { eapply Forall_impl; [exact Hall|]. by intros e [? _]. }
  destruct (assign_all_lines entries ∅ Hparts) as [m [Hrun Hm]].
  assert (Hlines : Forall (fun line => contains Regexp.newline line = false /\
                             (N.of_nat (String.length line) < 65535)%N)
                     (map line_of entries)).
  { apply Forall_map. eapply Forall_impl; [exact Hall|]. by intros e [_ ?]. }
  assert (Hscan : Bufio.scan (write_lines eol (map line_of entries)) =
                  (map line_of entries, None)).
  { destruct Heol as [->|[-> Hcr]].
    - change crlf with (String Bufio.carriage_return "" +:+ line_feed).
      rewrite scan_write_lines by (done || by right). f_equal.
      rewrite <- (map_id (map line_of entries)) at 2. apply map_ext.
      intros line. apply dropCR_carriage_return.
    - change line_feed with ("" +:+ line_feed).
      rewrite scan_write_lines by (done || by left). f_equal.
      rewrite !map_map. apply map_ext_Forall.
      eapply Forall_impl; [exact Hcr|]. intros e He. simpl.
      by rewrite string_app_nil_r. }
  exists m. split.
  - unfold LoadParameters, os_Open.
    unfold mbind, M_bind, bind, mret, M_ret, ret. simpl. rewrite Hopen.
    unfold scan_file. simpl. rewrite Hfile, Hscan, Hrun. done.
  - intros key. rewrite Hm, lookup_empty. by destruct (last_value _ key).
Qed.

Lemma LoadParameters_reads_the_lines_witness :
  exists parameters,
    LoadParameters "app.env" params_world =
      Returned (Some parameters, None)
        (add_event {| call := CallClose "app.env"; result := None |}
           (add_event {| call := CallOpen "app.env"; result := None |} params_world)) /\
    forall key,
      parameters !! key =
      last_value [("Env", "prod"); ("Size", "large"); ("Env", "test")] key.
Proof.
  apply (LoadParameters_reads_the_lines "app.env" crlf
           [("Env", "prod", ""); ("Size", "large", ""); ("Env", "test", "")]
           true true params_world).
  - reflexivity.
  - reflexivity.
  - repeat constructor; by eexists.
  - by left.
Defined.

(** X15. When the file holds a line without ["="], an empty line for one,
    [LoadParameters] does not return: it panics with an index out of
    range; the deferred call has closed the file by then. *)
Theorem LoadParameters_line_without_equals_panics
    (fileName data : string) (lines : list string) (e : option error)
    (r wr : bool) (w : World) :
  open_error w fileName = None ->
  FS.lookup (fs w) (FS.resolve (cwd w) fileName) = inr (FS.File r wr data) ->
  Bufio.scan data = (lines, e) ->
  Exists (fun line => contains "="%char line = false) lines ->
  LoadParameters fileName w =
    Panicked index_out_of_range
      (add_event {| call := CallClose fileName; result := None |}
         (add_event {| call := CallOpen fileName; result := None |} w)).
Proof.
  intros Hopen Hfile Hscan Hex.
  apply (assign_all_panics lines ∅) in Hex.
  unfold LoadParameters, os_Open.
  unfold mbind, M_bind, bind, mret, M_ret, ret. simpl. rewrite Hopen.
  unfold scan_file. simpl. rewrite Hfile, Hscan, Hex. done.
Qed.

Lemma LoadParameters_line_without_equals_panics_witness :
  LoadParameters "gap.env" params_world =
    Panicked index_out_of_range
      (add_event {| call := CallClose "gap.env"; result := None |}
         (add_event {| call := CallOpen "gap.env"; result := None |} params_world)).
Proof.
  apply (LoadParameters_line_without_equals_panics "gap.env"
           (write_lines line_feed ["Env=prod"; ""; "Size=large"])
           ["Env=prod"; ""; "Size=large"] None true true params_world).
  - reflexivity.
  - reflexivity.
  - reflexivity.
  - apply Exists_cons_tl. by apply Exists_cons_hd.
Defined.

(** ** Keys of walked files *)

Section JoinFacts.

Lemma split_not_nil (sep : ascii) (s : string) : GoString.split sep s <> [].
Proof.
  destruct s as [|c s]; simpl; [done|].
  destruct (Ascii.eqb c sep); [done|]. by destruct (GoString.split sep s).
Qed.

Lemma split_app (sep : ascii) (a b : string) :
  GoString.split sep (a +:+ String sep b) = GoString.split sep a ++ GoString.split sep b.
Proof.
  induction a as [|c a IH].
  - change ("" +:+ String sep b) with (String sep b). simpl.
    by rewrite Ascii.eqb_refl.
  - rewrite string_app_cons. simpl. rewrite IH.
    destruct (Ascii.eqb c sep); [done|].
    pose proof (split_not_nil sep a) as Hne.
    by destruct (GoString.split sep a).
Qed.

Lemma clean_elems_app (rooted : bool) (l1 l2 out : list string) :
  Path.clean_elems rooted out (l1 ++ l2) =
  Path.clean_elems rooted (Path.clean_elems rooted out l1) l2.
Proof.
  revert out. induction l1 as [|e l1 IH]; intros out; simpl; [done|].
  destruct (String.eqb e ""); [apply IH|].
  destruct (String.eqb e "."); [apply IH|].
  destruct (String.eqb e "..").
  - destruct out as [|top out'].
    + destruct rooted; apply IH.
    + destruct (String.eqb top ".."); apply IH.
  - apply IH.
Qed.

Lemma clean_elems_entry (rooted : bool) (out : list string) (name : string) :
  entry_name name -> Path.clean_elems rooted out [name] = name :: out.
Proof.
  intros [_ [H1 [H2 H3]]]. simpl.
  destruct (String.eqb_spec name ""); [done|].
  destruct (String.eqb_spec name "."); [done|].
  destruct (String.eqb_spec name ".."); done.
Qed.

Lemma join_snoc (l : list string) (name : string) :
  l <> [] ->
  GoString.join (l ++ [name]) "/" = GoString.join l "/" +:+ "/" +:+ name.
Proof.
  unfold GoString.join. induction l as [|x l IH]; [done|]. intros _.
  destruct l as [|y l].
  - simpl. done.
  - change (String.concat "/" ((x :: y :: l) ++ [name]))
      with (x +:+ "/" +:+ String.concat "/" ((y :: l) ++ [name])).
    rewrite IH by done.
    change (String.concat "/" (x :: y :: l))
      with (x +:+ "/" +:+ String.concat "/" (y :: l)).
    by rewrite !string_app_assoc.
Qed.

Lemma is_rooted_app (a b : string) :
  a <> "" -> Path.is_rooted (a +:+ b) = Path.is_rooted a.
Proof. destruct a; [done|]. intros _. by rewrite string_app_cons. Qed.

Lemma Clean_entry (baseDir name : string) :
  baseDir <> "" -> entry_name name ->
  Path.Clean baseDir <> "." -> Path.Clean baseDir <> "/" ->
  Path.Clean (baseDir +:+ "/" +:+ name) = Path.Clean baseDir +:+ "/" +:+ name.
Proof.
  intros Hne Hname Hdot Hroot. unfold Path.Clean in *.
  destruct (String.eqb_spec baseDir ""); [done|].
  destruct (String.eqb_spec (baseDir +:+ "/" +:+ name) "") as [Hempty|_].
  { destruct baseDir; [done|]. by rewrite string_app_cons in Hempty. }
  rewrite is_rooted_app by done.
  change (baseDir +:+ "/" +:+ name) with (baseDir +:+ String Path.slash name).
  rewrite split_app, clean_elems_app.
  rewrite (split_no_sep _ name) by apply Hname.
  rewrite clean_elems_entry by done.
  set (out := Path.clean_elems (Path.is_rooted baseDir) []
                (GoString.split Path.slash baseDir)) in *.
  simpl rev. destruct (Path.is_rooted baseDir).
  - destruct (rev out) as [|x l] eqn:Hout; [done|].
    rewrite join_snoc by done. by rewrite string_app_assoc.
  - rewrite length_app. simpl.
    replace (length (rev out) + 1 =? 0) with false
      by (symmetry; apply Nat.eqb_neq; lia).
    destruct (rev out) as [|x l] eqn:Hout.
    + simpl in Hdot. done.
    + simpl (length _ =? 0). by rewrite join_snoc.
Qed.


End JoinFacts.



(** ** What an upload leaves alone *)

Lemma slice_from_short (s : string) (n : nat) :
  String.length s < n -> GoString.slice_from s n = None.
Proof.
  revert n. induction s as [|c s IH]; intros n Hlen; destruct n; simpl in *;
    try lia; [done|]. apply IH. lia.
Qed.

(** X17. For a base directory that is a regular file, [UploadBucket] does
    not return: the walk gives the file itself as the one path, [Next]
    opens it, and [toKey] cuts the name at one byte past its end, which
    panics. The file is left open. *)
Theorem UploadBucket_of_a_file_panics
    (baseDir bucket region data : string) (r wr : bool) (w : World) (api : S3.API) :
  new_session w region = inr api ->
  FS.at_path (cwd w) baseDir (FS.lookup (fs w)) = inr (FS.File r wr data) ->
  UploadBucket baseDir bucket region w =
    Panicked slice_out_of_range
      (add_event {| call := CallOpen baseDir; result := open_error w baseDir |}
         (add_event {| call := CallWalk baseDir; result := None |} w)).
Proof.
  intros Hsess Hfile.
  unfold UploadBucket, session_Must, createIterator, UploadWithIterator.
  unfold mbind, M_bind, bind. rewrite Hsess.
  rewrite (getFiles_found _ _ _ Hfile). simpl.
  unfold Next. simpl. unfold mbind, M_bind, bind, os_Open.
  unfold Path.toKey, Path.ToSlash.
  rewrite slice_from_short by (rewrite string_length_app; simpl; lia).
  done.
Qed.

Lemma UploadBucket_of_a_file_panics_witness :
  UploadBucket "mixed/b.txt" "bucket" "region" upload_world =
    Panicked slice_out_of_range
      (add_event {| call := CallOpen "mixed/b.txt";
                    result := open_error upload_world "mixed/b.txt" |}
         (add_event {| call := CallWalk "mixed/b.txt"; result := None |} upload_world)).
Proof.
  apply (UploadBucket_of_a_file_panics "mixed/b.txt" "bucket" "region" "B" true true
           upload_world picky_store); reflexivity.
Defined.

Lemma upload_loop_reads (api : S3.API) (fuel : nat) :
  forall (iter : directoryIterator) (errs : list BatchItem) (w : World),
    unchanged w (upload_loop fuel api iter errs w).
Proof.
  induction fuel as [|fuel IH]; intros iter errs w; [done|].
  cbn [upload_loop]. unfold Next.
  destruct (filePaths iter) as [|name rest] eqn:Hpaths.
  - unfold mbind, M_bind, bind, mret, M_ret, ret. simpl. done.
  - unfold mbind, M_bind, bind, os_Open.
    destruct (Path.toKey (baseDir iter) name) as [key|]; [|done].
    destruct (open_error w name) as [e|]; simpl; [done|].
    unfold mbind, M_bind, bind, mret, M_ret, ret, emit. simpl.
    match goal with |- unchanged _ (upload_loop _ _ ?i ?es ?w1) =>
      pose proof (IH i es w1) as Hrest;
      destruct (upload_loop fuel api i es w1) as [a w2|msg w2|]
    end; simpl in *; done.
Qed.

Lemma UploadWithIterator_reads (api : S3.API) (iter : directoryIterator) (w : World) :
  unchanged w (UploadWithIterator api iter w).
Proof.
  unfold UploadWithIterator, mbind, M_bind, bind.
  pose proof (upload_loop_reads api (S (length (filePaths iter))) iter [] w) as Hreads.
  pose proof (upload_loop_ends api (S (length (filePaths iter))) iter [] w) as Hends.
  destruct (upload_loop _ api iter [] w) as [[[errs iter']|] w2|msg w2|].
  - exact Hreads.
  - exfalso. by apply (Hends w2 (Nat.lt_succ_diag_r _)).
  - exact Hreads.
  - exact Hreads.
Qed.

(** X18. [UploadBucket] only reads, and it ends: whether it returns or
    panics, the local files and the log are then as they were before the
    call, and the loop over the files never runs on without end. *)
Theorem UploadBucket_only_reads (baseDir bucket region : string) (w : World) :
  unchanged w (UploadBucket baseDir bucket region w).
Proof.
  unfold UploadBucket, session_Must, mbind, M_bind, bind.
  destruct (new_session w region) as [e|api]; [done|].
  unfold createIterator, getFiles, mbind, M_bind, bind, mret, M_ret, ret.
  destruct (FS.at_path (cwd w) baseDir (FS.lookup (fs w))) as [e|n]; [done|].
  cbv beta iota.
  match goal with |- unchanged _ (match UploadWithIterator ?a ?i ?w1 with _ => _ end) =>
    pose proof (UploadWithIterator_reads a i w1) as Hreads;
    destruct (UploadWithIterator a i w1) as [[e|] w2|msg w2|]
  end; exact Hreads.
Qed.

(** ** The file system: contents stay *)

Section FSData.

Lemma file_data_set_entry_eq (r w : bool) (es : list (string * FS.node))
    (name : string) (x : FS.node) (q : list string) :
  file_data (FS.Dir r w (FS.set_entry name x es)) (name :: q) = file_data x q.
Proof. unfold file_data. simpl. by rewrite get_set_entry_eq. Qed.

Lemma file_data_set_entry_ne (r w r' w' : bool) (es : list (string * FS.node))
    (name name' : string) (x : FS.node) (q : list string) :
  name <> name' ->
  file_data (FS.Dir r' w' (FS.set_entry name x es)) (name' :: q) =
  file_data (FS.Dir r w es) (name' :: q).
Proof. intros Hne. unfold file_data. simpl. by rewrite get_set_entry_ne. Qed.

Lemma file_data_entry (r w : bool) (es : list (string * FS.node))
    (name : string) (q : list string) :
  file_data (FS.Dir r w es) (name :: q) =
  match FS.get_entry name es with
  | Some x => file_data x q
  | None => None
  end.
Proof. unfold file_data. simpl. by destruct (FS.get_entry name es). Qed.

Lemma create_keeps_data (p : list string) :
  forall (n n' : FS.node) (q : list string) (d : string),
    FS.create n p = inr n' -> q <> p ->
    file_data n q = Some d -> file_data n' q = Some d.
Proof.
  induction p as [|name p IH]; intros n n' q d Hc Hne Hq.
  - destruct n as [r w d0|r w es]; simpl in Hc; [|done].
    destruct q; [done|]. by unfold file_data in Hq.
  - destruct n as [r w d0|r w es]; simpl in Hc; [done|].
    destruct q as [|name' q]; [by unfold file_data in Hq|].
    rewrite file_data_entry in Hq.
    destruct (FS.get_entry name es) as [x|] eqn:Hx.
    + destruct (FS.create x p) as [e|x'] eqn:Hcx; [done|]. injection Hc as <-.
      destruct (String.eqb_spec name name') as [<-|Hn].
      * rewrite file_data_set_entry_eq. rewrite Hx in Hq.
        eapply IH; [exact Hcx| |exact Hq]. congruence.
      * rewrite (file_data_set_entry_ne r w) by done. by rewrite file_data_entry.
    + destruct p; [|done]. destruct w; [|done]. injection Hc as <-.
      destruct (String.eqb_spec name name') as [<-|Hn].
      * by rewrite Hx in Hq.
      * rewrite (file_data_set_entry_ne r true) by done. by rewrite file_data_entry.
Qed.

Lemma mkdir_keeps_data (p : list string) :
  forall (n n' : FS.node) (q : list string) (d : string),
    FS.mkdir n p = inr n' -> file_data n q = Some d -> file_data n' q = Some d.
Proof.
  induction p as [|name p IH]; intros n n' q d Hm Hq; [done|].
  destruct n as [r w d0|r w es]; simpl in Hm; [done|].
  destruct q as [|name' q]; [by unfold file_data in Hq|].
  rewrite file_data_entry in Hq.
  destruct (FS.get_entry name es) as [x|] eqn:Hx; destruct p as [|name'' p]; try done.
  - destruct (FS.mkdir x (name'' :: p)) as [e|x'] eqn:Hmx; [done|]. injection Hm as <-.
    destruct (String.eqb_spec name name') as [<-|Hn].
    + rewrite file_data_set_entry_eq. rewrite Hx in Hq. by eapply IH.
    + rewrite (file_data_set_entry_ne r w) by done. by rewrite file_data_entry.
  - destruct w; [|done]. injection Hm as <-.
    destruct (String.eqb_spec name name') as [<-|Hn].
    + by rewrite Hx in Hq.
    + rewrite (file_data_set_entry_ne r true) by done. by rewrite file_data_entry.
Qed.

Lemma mkdirAll_chain_keeps_data (cwd : list string) (chain : list string) :
  forall (n n' : FS.node) (q : list string) (d : string),
    FS.mkdirAll_chain n cwd chain = inr n' ->
    file_data n q = Some d -> file_data n' q = Some d.
Proof.
  induction chain as [|path parents IH]; intros n n' q d Hm Hq; simpl in Hm.
  - by injection Hm as <-.
  - destruct (FS.at_path cwd path (FS.lookup n)) as [errno|[r w d0|r w es]];
      [|done|by injection Hm as <-].
    destruct (FS.mkdirAll_chain n cwd parents) as [e|n1] eqn:Hparents; [done|].
    pose proof (IH n n1 q d Hparents Hq) as Hq1.
    unfold FS.at_path in Hm. destruct (FS.locate cwd path) as [e|at_]; [done|].
    destruct (FS.mkdir n1 at_) as [errno'|n2] eqn:Hmk.
    + destruct (FS.lookup n1 at_) as [?|[? ? ?|? ? ?]]; [done..|]. by injection Hm as <-.
    + injection Hm as <-. by eapply mkdir_keeps_data.
Qed.

Lemma write_keeps_data (p : list string) :
  forall (n : FS.node) (data : string) (q : list string) (d : string),
    q <> p -> file_data n q = Some d -> file_data (FS.write n p data) q = Some d.
Proof.
  induction p as [|name p IH]; intros n data q d Hne Hq.
  - destruct n as [r w d0|r w es]; simpl; [|done].
    destruct q; [done|]. by unfold file_data in Hq.
  - destruct n as [r w d0|r w es]; simpl; [done|].
    destruct q as [|name' q]; [by unfold file_data in Hq|].
    destruct (FS.get_entry name es) as [x|] eqn:Hx; [|done].
    rewrite file_data_entry in Hq.
    destruct (String.eqb_spec name name') as [<-|Hn].
    + rewrite file_data_set_entry_eq. rewrite Hx in Hq. apply IH; [congruence|done].
    + rewrite (file_data_set_entry_ne r w) by done. by rewrite file_data_entry.
Qed.

Lemma write_sets_data (p : list string) :
  forall (n : FS.node) (data : string),
    is_file n p = true -> file_data (FS.write n p data) p = Some data.
Proof.
  induction p as [|name p IH]; intros n data Hf.
  - destruct n as [r w d0|r w es]; [done|by unfold is_file in Hf].
  - destruct n as [r w d0|r w es]; [by unfold is_file in Hf|].
    unfold is_file in Hf. simpl in *.
    destruct (FS.get_entry name es) as [x|] eqn:Hx; [|done].
    rewrite file_data_set_entry_eq. by apply IH.
Qed.

End FSData.

(** ** What a download leaves in the files *)

Section Delivered.

Variables (api : S3.API) (bucket baseDir excludePatten : string).
Variable cwd0 : list string.

Lemma start_keys_app (gs1 gs2 : list Goroutine) :
  start_keys (gs1 ++ gs2) = start_keys gs1 ++ start_keys gs2.
Proof. apply flat_map_app. Qed.

Lemma open_files_app (gs1 gs2 : list Goroutine) :
  open_files (gs1 ++ gs2) = open_files gs1 ++ open_files gs2.
Proof. apply flat_map_app. Qed.

Lemma downloaded_names_elem (t : list Event) (e : Event) (b key fileName : string) :
  e ∈ t -> call e = CallDownload b key fileName -> fileName ∈ downloaded_names t.
Proof.
  intros Hin Hcall. unfold downloaded_names.
  apply list_elem_of_In. apply in_flat_map. exists e.
  split; [by apply list_elem_of_In|]. rewrite Hcall. by left.
Qed.

Lemma holds_mono (w w' : World) (t : list Event) :
  (forall f d, read_file w f = Some d -> read_file w' f = Some d) ->
  Forall (holds_download api w) t -> Forall (holds_download api w') t.
Proof.
  intros Hmono Hall. eapply Forall_impl; [exact Hall|].
  intros e. unfold holds_download. destruct (call e); auto.
  intros [Hr Hf]. split; [done|]. by apply Hmono.
Qed.

Lemma holds_away (w w' : World) (t : list Event) (p : list string) :
  (forall f d, FS.resolve cwd0 f <> p ->
               read_file w f = Some d -> read_file w' f = Some d) ->
  (forall f, f ∈ downloaded_names t -> FS.resolve cwd0 f <> p) ->
  Forall (holds_download api w) t -> Forall (holds_download api w') t.
Proof.
  intros Hkeep Haway Hall. rewrite Forall_forall in *. intros e Hin.
  specialize (Hall e Hin). unfold holds_download in *.
  destruct (call e) as [| b key f | | | | | |] eqn:Hcall; auto.
  destruct Hall as [Hr Hf]. split; [done|].
  apply Hkeep; [|done]. apply Haway. by eapply downloaded_names_elem.
Qed.

Lemma delivered_iteration (key : string) (rest : list string) (gs : list Goroutine)
    (w : World) (go : bool) (w' : World) :
  delivered api cwd0 baseDir excludePatten (key :: rest) gs w ->
  iteration_does baseDir excludePatten key w go w' ->
  delivered api cwd0 baseDir excludePatten rest
    (gs ++ (if go then [saveObject_start key] else [])) w'.
Proof.
  intros (Hmod & Hcwd & Hnd & Hperm & Hopen & Hdata) Hdoes.
  apply Forall_cons in Hmod as [_ Hmod].
  pose proof (iteration_grows _ _ _ _ _ _ Hdoes) as [_ Hfiles].
  assert (Hkept : go = true -> kept excludePatten key = true)
    by (inversion Hdoes; done).
  assert (Htrace : opened_names (trace w') = opened_names (trace w) /\
                   downloaded_names (trace w') = downloaded_names (trace w) /\
                   cwd w' = cwd w)
    by (inversion Hdoes; subst; done).
  destruct Htrace as (Ho & Hd & Hc).
  assert (Hread : forall f d, read_file w f = Some d -> read_file w' f = Some d).
  { inversion Hdoes as [Hk|Hk Hi|i pre n Hk Hi Hp Hm|i pre errno Hk Hi Hp Hm];
      subst; try done.
    intros f d. unfold read_file. simpl.
    by apply mkdirAll_chain_keeps_data with (cwd := cwd w)
                                             (chain := FS.ancestors (Path.Join [baseDir; pre])). }
  repeat split.
  - done.
  - congruence.
  - rewrite Ho. unfold kept_keys in *. simpl in Hnd.
    destruct go.
    + rewrite (Hkept eq_refl) in Hnd. rewrite start_keys_app. simpl.
      eapply NoDup_Permutation_proper; [|exact Hnd].
      apply Permutation_app_tail. apply Permutation_map.
      rewrite app_assoc. by rewrite <- Permutation_cons_append.
    + rewrite app_nil_r.
      destruct (kept excludePatten key); [|done].
      simpl in Hnd. by apply NoDup_cons in Hnd as [_ Hnd].
  - rewrite Ho, Hd. destruct go; rewrite open_files_app; simpl; by rewrite app_nil_r.
  - apply Forall_app. split.
    + eapply Forall_impl; [exact Hopen|]. intros [k|k f]; [done|].
      intros [-> Hf]. split; [done|]. by apply Hfiles.
    + by destruct go; constructor.
  - assert (Hold : Forall (holds_download api w') (trace w))
      by (by apply (holds_mono w w')).
    inversion Hdoes; subst; try done; by constructor.
Qed.

Lemma start_keys_start (gs1 gs2 : list Goroutine) (key : string) :
  start_keys (gs1 ++ saveObject_start key :: gs2) =
  start_keys gs1 ++ key :: start_keys gs2.
Proof. by rewrite start_keys_app. Qed.

Lemma start_keys_created (gs1 gs2 : list Goroutine) (key fileName : string) :
  start_keys (gs1 ++ saveObject_created key fileName :: gs2) =
  start_keys gs1 ++ start_keys gs2.
Proof. by rewrite start_keys_app. Qed.

Lemma open_files_start (gs1 gs2 : list Goroutine) (key : string) :
  open_files (gs1 ++ saveObject_start key :: gs2) = open_files gs1 ++ open_files gs2.
Proof. by rewrite open_files_app. Qed.

Lemma open_files_created (gs1 gs2 : list Goroutine) (key fileName : string) :
  open_files (gs1 ++ saveObject_created key fileName :: gs2) =
  open_files gs1 ++ fileName :: open_files gs2.
Proof. by rewrite open_files_app. Qed.

Lemma held_files_stay (gs : list Goroutine) (w w' : World) :
  grows w w' ->
  Forall (fun g => match g with
                   | saveObject_start _ => True
                   | saveObject_created key fileName =>
                       fileName = Path.Join [baseDir; key] /\ file_at w fileName = true
                   end) gs ->
  Forall (fun g => match g with
                   | saveObject_start _ => True
                   | saveObject_created key fileName =>
                       fileName = Path.Join [baseDir; key] /\ file_at w' fileName = true
                   end) gs.
Proof.
  intros [_ Hfiles] Hall. eapply Forall_impl; [exact Hall|].
  intros [k|k f]; [done|]. intros [-> Hf]. split; [done|]. by apply Hfiles.
Qed.

End Delivered.

Section DeliveredStep.

Variables (api : S3.API) (bucket baseDir excludePatten : string).
Variable cwd0 : list string.

Lemma delivered_creates (pend : list string) (gs1 gs2 : list Goroutine)
    (key : string) (n : FS.node) (w : World) :
  let fileName := Path.Join [baseDir; key] in
  delivered api cwd0 baseDir excludePatten pend (gs1 ++ saveObject_start key :: gs2) w ->
  FS.at_path (cwd w) fileName (FS.create (fs w)) = inr n ->
  delivered api cwd0 baseDir excludePatten pend
    (gs1 ++ saveObject_created key fileName :: gs2)
    (add_event {| call := CallCreate fileName; result := None |} (set_fs n w)).
Proof.
  intros fileName (Hmod & Hcwd & Hnd & Hperm & Hopen & Hdata) Hc0.
  set (w' := add_event {| call := CallCreate fileName; result := None |} (set_fs n w)).
  assert (Hgrows : grows w w').
  { apply (step_grows api bucket baseDir (saveObject_start key) w
             (Some (saveObject_created key fileName))).
    by apply creates_file. }
  pose proof (at_path_inr _ _ _ _ Hc0) as Hc. rewrite Hcwd in Hc.
  rewrite start_keys_start in Hnd.
  assert (Hnd' : NoDup (place cwd0 baseDir key ::
                        map (place cwd0 baseDir)
                          (kept_keys excludePatten pend ++ start_keys gs1 ++ start_keys gs2)
                        ++ map (FS.resolve cwd0) (opened_names (trace w)))).
  { eapply NoDup_Permutation_proper; [|exact Hnd].
    rewrite app_comm_cons. apply Permutation_app_tail.
    change (place cwd0 baseDir key :: map (place cwd0 baseDir) ?l)
      with (map (place cwd0 baseDir) (key :: l)).
    apply Permutation_map. rewrite !app_assoc. apply Permutation_middle. }
  repeat split.
  - done.
  - done.
  - rewrite start_keys_created. simpl.
    eapply NoDup_Permutation_proper; [|exact Hnd'].
    symmetry. apply Permutation_middle.
  - simpl. rewrite open_files_created. rewrite open_files_start in Hperm.
    rewrite Hperm. rewrite <- !app_assoc. simpl. apply Permutation_middle.
  - apply (held_files_stay baseDir _ w w' Hgrows) in Hopen.
    apply Forall_app in Hopen as [H1 H2]. apply Forall_cons in H2 as [_ H2].
    apply Forall_app. split; [done|]. apply Forall_cons. split; [|done].
    split; [done|]. unfold file_at. simpl. rewrite Hcwd.
    by eapply create_makes_file.
  - constructor; [done|].
    apply (holds_away api cwd0 w w' _ (place cwd0 baseDir key)); [| |done].
    + intros f d Hne. unfold read_file. simpl. rewrite Hcwd.
      by apply create_keeps_data with (p := place cwd0 baseDir key).
    + intros f Hin Heq.
      apply NoDup_cons in Hnd' as [Hnotin _]. apply Hnotin.
      apply elem_of_app. right. rewrite <- Heq.
      apply list_elem_of_In, in_map, list_elem_of_In.
      rewrite Hperm. apply elem_of_app. by right.
Qed.

Lemma delivered_fails_to_create (pend : list string) (gs1 gs2 : list Goroutine)
    (key line : string) (e : error) (w : World) :
  delivered api cwd0 baseDir excludePatten pend (gs1 ++ saveObject_start key :: gs2) w ->
  delivered api cwd0 baseDir excludePatten pend (gs1 ++ gs2)
    (add_log line
       (add_event {| call := CallCreate (Path.Join [baseDir; key]); result := Some e |} w)).
Proof.
  intros (Hmod & Hcwd & Hnd & Hperm & Hopen & Hdata).
  rewrite start_keys_start in Hnd. rewrite open_files_start in Hperm.
  repeat split; try done.
  - simpl. rewrite start_keys_app.
    assert (Hnd' : NoDup (place cwd0 baseDir key ::
                          map (place cwd0 baseDir)
                            (kept_keys excludePatten pend
                             ++ start_keys gs1 ++ start_keys gs2)
                          ++ map (FS.resolve cwd0) (opened_names (trace w)))).
    { eapply NoDup_Permutation_proper; [|exact Hnd].
      rewrite app_comm_cons. apply Permutation_app_tail.
      change (place cwd0 baseDir key :: map (place cwd0 baseDir) ?l)
        with (map (place cwd0 baseDir) (key :: l)).
      apply Permutation_map. rewrite !app_assoc. apply Permutation_middle. }
    by apply NoDup_cons in Hnd' as [_ Hnd'].
  - simpl. by rewrite open_files_app.
  - apply Forall_app in Hopen as [H1 H2]. apply Forall_cons in H2 as [_ H2].
    apply Forall_app. by split.
  - simpl. by constructor.
Qed.

Lemma delivered_writes (pend : list string) (gs1 gs2 : list Goroutine)
    (key fileName : string) (r : option error) (w w' : World) :
  delivered api cwd0 baseDir excludePatten pend
    (gs1 ++ saveObject_created key fileName :: gs2) w ->
  fs w' = FS.write (fs w) (FS.resolve (cwd w) fileName)
            (written_by (S3.Download api bucket key)) ->
  cwd w' = cwd w ->
  r = download_error (S3.Download api bucket key) ->
  trace w' = {| call := CallClose fileName; result := None |}
             :: {| call := CallDownload bucket key fileName; result := r |} :: trace w ->
  delivered api cwd0 baseDir excludePatten pend (gs1 ++ gs2) w'.
Proof.
  intros (Hmod & Hcwd & Hnd & Hperm & Hopen & Hdata) Hfs Hcwd' Hr Htrace.
  rewrite start_keys_created in Hnd. rewrite open_files_created in Hperm.
  apply Forall_app in Hopen as [H1 H2]. apply Forall_cons in H2 as [[_ Hfile] H2].
  assert (Hfiles : forall name, file_at w name = true -> file_at w' name = true).
  { intros name. unfold file_at. rewrite Hfs, Hcwd'. apply write_keeps_files. }
  assert (Hnd2 : NoDup (map (FS.resolve cwd0)
                          ((open_files gs1 ++ fileName :: open_files gs2)
                           ++ downloaded_names (trace w)))).
  { apply NoDup_app in Hnd as (_ & _ & Hnd).
    eapply NoDup_Permutation_proper; [|exact Hnd]. apply Permutation_map.
    by symmetry. }
  repeat split; try done.
  - congruence.
  - rewrite Htrace. simpl. by rewrite start_keys_app.
  - rewrite Htrace. simpl. rewrite Hperm, open_files_app.
    rewrite <- !app_assoc. simpl. by rewrite <- !Permutation_middle.
  - apply Forall_app. split.
    + eapply Forall_impl; [exact H1|]. intros [k|k f]; [done|].
      intros [-> Hf]. split; [done|]. by apply Hfiles.
    + eapply Forall_impl; [exact H2|]. intros [k|k f]; [done|].
      intros [-> Hf]. split; [done|]. by apply Hfiles.
  - rewrite Htrace. constructor; [done|]. constructor.
    + unfold holds_download, read_file. simpl. split; [done|].
      rewrite Hfs, Hcwd'. by apply write_sets_data.
    + apply (holds_away api cwd0 w w' _ (FS.resolve cwd0 fileName)); [| |done].
      * intros f d Hne. unfold read_file. rewrite Hfs, Hcwd', Hcwd.
        by apply write_keeps_data.
      * intros f Hin Heq. rewrite map_app in Hnd2.
        apply NoDup_app in Hnd2 as (_ & Hdisj & _).
        apply (Hdisj (FS.resolve cwd0 fileName)).
        -- apply list_elem_of_In, in_map, list_elem_of_In.
           apply elem_of_app. right. by left.
        -- rewrite <- Heq. by apply list_elem_of_In, in_map, list_elem_of_In.
Qed.

Lemma delivered_step (pend : list string) (gs1 : list Goroutine) (g : Goroutine)
    (gs2 : list Goroutine) (w : World) (r : option Goroutine) (w' : World) :
  delivered api cwd0 baseDir excludePatten pend (gs1 ++ g :: gs2) w ->
  step_does api bucket baseDir w g r w' ->
  delivered api cwd0 baseDir excludePatten pend (gs1 ++ option_list r ++ gs2) w'.
Proof.
  intros Hd Hdoes.
  inversion Hdoes as [key n fileName Hc|key errno fileName e Hc
                     |key fileName body Hb|key fileName written e Hb]; subst; simpl.
  - by apply delivered_creates.
  - by apply delivered_fails_to_create.
  - eapply delivered_writes; [exact Hd| | | |]; simpl; try done; by rewrite Hb.
  - eapply delivered_writes; [exact Hd| | | |]; simpl; try done; by rewrite Hb.
Qed.

End DeliveredStep.

(** X19. When the kept keys of the listing are written to places of their
    own, no two to the same file, then under every schedule of the
    goroutines, once [DownloadBucket] has returned, the file of every
    [Download] call holds what that call wrote to it: the whole object when
    the call returned nil, and what had arrived when it failed. No
    goroutine has truncated or overwritten the file of another. *)
Theorem downloaded_files_hold_their_objects (sched : list nat)
    (baseDir bucket region excludePatten : string) (w : World) (api : S3.API)
    (keys : list string) :
  trace w = [] ->
  new_session w region = inr api ->
  S3.ListObjectsV2 api bucket = inr keys ->
  Forall (fun key => is_Some (Regexp.Match excludePatten key)) keys ->
  NoDup (map (place (cwd w) baseDir) (kept_keys excludePatten keys)) ->
  exists w',
    DownloadBucket sched baseDir bucket region excludePatten w = Returned None w' /\
    forall b key fileName r,
      In {| call := CallDownload b key fileName; result := r |} (trace w') ->
      r = download_error (S3.Download api b key) /\
      read_file w' fileName = Some (written_by (S3.Download api b key)).
Proof.
  intros Htrace Hsess Hlist Hmod Hnd. unfold DownloadBucket.
  erewrite bind_returned; [|unfold session_Must; by rewrite Hsess].
  erewrite bind_returned; [|unfold s3_ListObjectsV2; by rewrite Hlist].
  cbn beta iota.
  destruct (run_threads_invariant api bucket baseDir excludePatten
              (delivered api (cwd w) baseDir excludePatten))
    with (sched := sched) (keys := keys)
         (w := add_event {| call := CallListObjectsV2 bucket; result := None |} w)
    as (w' & Hrun & Hdel).
  - intros key rest gs w1 (Hm1 & _). by inversion Hm1.
  - intros key rest gs w1 go w2 Hd Hdoes. by eapply delivered_iteration.
  - intros pend gs1 g gs2 w1 r w2 Hd Hdoes. by eapply delivered_step.
  - unfold delivered. simpl. rewrite Htrace. simpl. rewrite !app_nil_r.
    repeat split; try done. by repeat constructor.
  - exists w'. split; [by erewrite bind_returned by exact Hrun|].
    intros b key fileName r Hin.
    destruct Hdel as (_ & _ & _ & _ & _ & Hdata).
    rewrite Forall_forall in Hdata. apply list_elem_of_In in Hin.
    exact (Hdata _ Hin).
Qed.

Lemma downloaded_files_hold_their_objects_witness :
  exists w',
    DownloadBucket [0; 1; 0; 0; 2; 1] "out" "bucket" "region" "z" flaky_world =
      Returned None w' /\
    forall b key fileName r,
      In {| call := CallDownload b key fileName; result := r |} (trace w') ->
      r = download_error (S3.Download flaky_store b key) /\
      read_file w' fileName = Some (written_by (S3.Download flaky_store b key)).
Proof.
  apply (downloaded_files_hold_their_objects [0; 1; 0; 0; 2; 1] "out" "bucket" "region"
           "z" flaky_world flaky_store ["a.txt"; "b.tmp"; "c/d.tmp"]); try reflexivity.
  - repeat constructor; by eexists.
  - apply (bool_decide_unpack _). by vm_compute.
Defined.

(** Two kept keys at one place: the goroutine of the second key creates the
    file anew after the first has been fetched, and the file ends with the
    object of the second key, although both [Download] calls returned
    nil. *)
Example keys_at_one_place_run :
  exists w',
    DownloadBucket [0; 0; 1; 1; 1; 1] "out" "bucket" "region" "z" twin_world =
      Returned None w' /\
    place (cwd twin_world) "out" "a.txt" = place (cwd twin_world) "out" "./a.txt" /\
    In {| call := CallDownload "bucket" "a.txt" "out/a.txt"; result := None |} (trace w') /\
    read_file w' "out/a.txt" = Some "contents of ./a.txt".
Proof.
  eexists. split; [reflexivity|]. split; [reflexivity|]. split; [|reflexivity].
  simpl. tauto.
Qed.

Section Untouched.

Variables (api : S3.API) (bucket baseDir excludePatten : string).
Variable keys : list string.
Variable w0 : World.

Lemma untouched_iteration (key : string) (rest : list string) (gs : list Goroutine)
    (w : World) (go : bool) (w' : World) :
  untouched bucket baseDir excludePatten keys w0 (key :: rest) gs w ->
  iteration_does baseDir excludePatten key w go w' ->
  untouched bucket baseDir excludePatten keys w0 rest
    (gs ++ (if go then [saveObject_start key] else [])) w'.
Proof.
  intros (Hloc & Hcwd & Hdata) Hdoes.
  split; [by eapply located_iteration|].
  inversion Hdoes as [Hk|Hk Hi|i pre n Hk Hi Hp Hm|i pre errno Hk Hi Hp Hm];
    subst; (split; [done|]); try done.
  intros q d Hq Hd. simpl.
  eapply mkdirAll_chain_keeps_data; [exact Hm|]. by apply Hdata.
Qed.

Lemma untouched_step (pend : list string) (gs1 : list Goroutine) (g : Goroutine)
    (gs2 : list Goroutine) (w : World) (r : option Goroutine) (w' : World) :
  untouched bucket baseDir excludePatten keys w0 pend (gs1 ++ g :: gs2) w ->
  step_does api bucket baseDir w g r w' ->
  untouched bucket baseDir excludePatten keys w0 pend (gs1 ++ option_list r ++ gs2) w'.
Proof.
  intros (Hloc & Hcwd & Hdata) Hdoes.
  split; [by eapply located_step|].
  destruct Hloc as (_ & _ & Hgs). apply Forall_app in Hgs as [_ Hgs].
  apply Forall_cons in Hgs as [Hg _].
  inversion Hdoes as [key n fileName Hc|key errno fileName e Hc
                     |key fileName body Hb|key fileName written e Hb];
    subst; (split; [done|]); try done; intros q d Hq Hd; simpl.
  - apply at_path_inr in Hc. rewrite Hcwd in Hc.
    eapply create_keeps_data; [exact Hc| |by apply Hdata].
    intros ->. apply Hq. by apply (in_map (place (cwd w0) baseDir)).
  - destruct Hg as (Hin & -> & _). rewrite Hcwd.
    apply write_keeps_data; [|by apply Hdata].
    intros ->. apply Hq. by apply (in_map (place (cwd w0) baseDir)).
  - destruct Hg as (Hin & -> & _). rewrite Hcwd.
    apply write_keeps_data; [|by apply Hdata].
    intros ->. apply Hq. by apply (in_map (place (cwd w0) baseDir)).
Qed.

End Untouched.

(** X20. [DownloadBucket] writes to the files of the kept keys and to no
    others: under every schedule, a file that is at the place of no kept
    key of the listing has, when the call returns, the contents it had
    before. *)
Theorem DownloadBucket_leaves_other_files (sched : list nat)
    (baseDir bucket region excludePatten : string) (w : World) (api : S3.API)
    (keys : list string) :
  trace w = [] ->
  new_session w region = inr api ->
  S3.ListObjectsV2 api bucket = inr keys ->
  Forall (fun key => is_Some (Regexp.Match excludePatten key)) keys ->
  exists w',
    DownloadBucket sched baseDir bucket region excludePatten w = Returned None w' /\
    forall name d,
      ~ In (FS.resolve (cwd w) name)
           (map (place (cwd w) baseDir) (kept_keys excludePatten keys)) ->
      read_file w name = Some d -> read_file w' name = Some d.
Proof.
  intros Htrace Hsess Hlist Hmod. unfold DownloadBucket.
  erewrite bind_returned; [|unfold session_Must; by rewrite Hsess].
  erewrite bind_returned; [|unfold s3_ListObjectsV2; by rewrite Hlist].
  cbn beta iota.
  destruct (run_threads_invariant api bucket baseDir excludePatten
              (untouched bucket baseDir excludePatten keys w))
    with (sched := sched) (keys := keys)
         (w := add_event {| call := CallListObjectsV2 bucket; result := None |} w)
    as (w' & Hrun & Hun).
  - intros key rest gs w1 ((Hsub & _) & _).
    rewrite Forall_forall in Hmod. apply Hmod, list_elem_of_In, Hsub. by left.
  - intros key rest gs w1 go w2 Hd Hdoes. by eapply untouched_iteration.
  - intros pend gs1 g gs2 w1 r w2 Hd Hdoes. by eapply untouched_step.
  - split; [|by split].
    unfold located. simpl. rewrite Htrace. repeat split; auto.
    by repeat constructor.
  - exists w'. split; [by erewrite bind_returned by exact Hrun|].
    destruct Hun as (_ & Hcwd & Hdata). intros name d Hq.
    unfold read_file. rewrite Hcwd. by apply Hdata.
Qed.

Lemma DownloadBucket_leaves_other_files_witness :
  exists w',
    DownloadBucket [0; 1; 0; 0; 2; 1] "out" "bucket" "region" "z" params_world =
      Returned None w' /\
    forall name d,
      ~ In (FS.resolve (cwd params_world) name)
           (map (place (cwd params_world) "out")
              (kept_keys "z" ["a.txt"; "b.tmp"; "c/d.tmp"])) ->
      read_file params_world name = Some d -> read_file w' name = Some d.
Proof.
  apply (DownloadBucket_leaves_other_files [0; 1; 0; 0; 2; 1] "out" "bucket" "region" "z"
           params_world sample_store ["a.txt"; "b.tmp"; "c/d.tmp"]); try reflexivity.
  repeat constructor; by eexists.
Defined.

(** ** The files of a walk *)






(** The walk of the witness: the file below the directory that cannot be
    read is not among the paths. *)
Example getFiles_run :
  getFiles "site" tree_world =
    Returned ["site/img/logo.png"; "site/index.html"]
      (add_event {| call := CallWalk "site"; result := None |} tree_world).
Proof. reflexivity. Qed.

(** X22. [CreateStack] and [CreateChangeSet] do not look at the template:
    without a [ValidateTemplate] or [DescribeStacks] request they send all
    the parameters of the caller, each key once with its value, and then
    wait with [WaitUntilStackCreateComplete] if the request succeeded;
    they return the first error of the two requests. *)
Theorem CreateStack_sends_every_parameter
    (s : Cfn.Stack) (api : Cfn.API) (parameters : gmap string string) (w : Cfn.World) :
  Cfn.Cfn s = Some api ->
  exists cfnParameters w1 w2,
    let create :=
      {| Cfn.cs_TemplateURL := Cfn.TemplateURL s; Cfn.cs_StackName := Cfn.Name s;
         Cfn.cs_Capabilities := Cfn.Capabilities s;
         Cfn.cs_Parameters := cfnParameters |} in
    let change :=
      {| Cfn.ccs_TemplateURL := Cfn.TemplateURL s; Cfn.ccs_StackName := Cfn.Name s;
         Cfn.ccs_ChangeSetName := Cfn.Name s +:+ "-" +:+ Cfn.now w;
         Cfn.ccs_Parameters := cfnParameters |} in
    let wait := Cfn.iface.WaitUntilStackCreateComplete api (Cfn.Name s) in
    length cfnParameters = size parameters /\
    (forall key value,
       {| Cfn.ParameterKey := key; Cfn.ParameterValue := value |} ∈ cfnParameters <->
       parameters !! key = Some value) /\
    Cfn.CreateStack s parameters w =
      Cfn.Returned (match Cfn.iface.CreateStack api create with
                    | Some e => Some e
                    | None => wait
                    end) w1 /\
    sent w1 = sent w ++ Cfn.CallCreateStack create ::
                match Cfn.iface.CreateStack api create with
                | Some _ => []
                | None => [Cfn.CallWaitUntilStackCreateComplete (Cfn.Name s)]
                end /\
    Cfn.CreateChangeSet s parameters w =
      Cfn.Returned (match Cfn.iface.CreateChangeSet api change with
                    | Some e => Some e
                    | None => wait
                    end) w2 /\
    sent w2 = sent w ++ Cfn.CallCreateChangeSet change ::
                match Cfn.iface.CreateChangeSet api change with
                | Some _ => []
                | None => [Cfn.CallWaitUntilStackCreateComplete (Cfn.Name s)]
                end.
Proof.
  intros Hc.
  destruct (convertToCfnParameter_entries parameters w) as (Hlen & _ & Hin).
  set (ps := Cfn.convertToCfnParameter_in
               (Cfn.range w _ Cfn.in_convertToCfnParameter parameters) []) in *.
  exists ps. cbv zeta.
  set (create := {| Cfn.cs_TemplateURL := Cfn.TemplateURL s;
                    Cfn.cs_StackName := Cfn.Name s;
                    Cfn.cs_Capabilities := Cfn.Capabilities s;
                    Cfn.cs_Parameters := ps |}).
  set (change := {| Cfn.ccs_TemplateURL := Cfn.TemplateURL s;
                    Cfn.ccs_StackName := Cfn.Name s;
                    Cfn.ccs_ChangeSetName := Cfn.Name s +:+ "-" +:+ Cfn.now w;
                    Cfn.ccs_Parameters := ps |}).
  assert (H1 : exists w1,
    Cfn.CreateStack s parameters w =
      Cfn.Returned (match Cfn.iface.CreateStack api create with
                    | Some e => Some e
                    | None => Cfn.iface.WaitUntilStackCreateComplete api (Cfn.Name s)
                    end) w1 /\
    sent w1 = sent w ++ Cfn.CallCreateStack create ::
                match Cfn.iface.CreateStack api create with
                | Some _ => []
                | None => [Cfn.CallWaitUntilStackCreateComplete (Cfn.Name s)]
                end).
  { unfold Cfn.CreateStack, Cfn.convertToCfnParameter, Cfn.createStack. rewrite Hc.
    unfold Cfn.cfn_CreateStack, Cfn.cfn_WaitUntilStackCreateComplete. cfn_run.
    fold ps. fold create.
    destruct (Cfn.iface.CreateStack api create) as [e|];
      [|destruct (Cfn.iface.WaitUntilStackCreateComplete api (Cfn.Name s)) as [e|]];
      simpl; eexists; (split; [reflexivity|]);
      rewrite ?sent_add_log, !sent_add_event; simpl; by rewrite <- ?app_assoc. }
  assert (H2 : exists w2,
    Cfn.CreateChangeSet s parameters w =
      Cfn.Returned (match Cfn.iface.CreateChangeSet api change with
                    | Some e => Some e
                    | None => Cfn.iface.WaitUntilStackCreateComplete api (Cfn.Name s)
                    end) w2 /\
    sent w2 = sent w ++ Cfn.CallCreateChangeSet change ::
                match Cfn.iface.CreateChangeSet api change with
                | Some _ => []
                | None => [Cfn.CallWaitUntilStackCreateComplete (Cfn.Name s)]
                end).
  { unfold Cfn.CreateChangeSet, Cfn.convertToCfnParameter, Cfn.createChangeSet.
    rewrite Hc.
    unfold Cfn.cfn_CreateChangeSet, Cfn.cfn_WaitUntilStackCreateComplete. cfn_run.
    fold ps. fold change.
    destruct (Cfn.iface.CreateChangeSet api change) as [e|];
      [|destruct (Cfn.iface.WaitUntilStackCreateComplete api (Cfn.Name s)) as [e|]];
      simpl; eexists; (split; [reflexivity|]);
      rewrite ?sent_add_log, !sent_add_event; simpl; by rewrite <- ?app_assoc. }
  destruct H1 as (w1 & Hr1 & Hs1). destruct H2 as (w2 & Hr2 & Hs2).
  exists w1, w2. repeat split; try done; by apply Hin.
Qed.

Lemma CreateStack_sends_every_parameter_witness :
  exists cfnParameters w1 w2,
    let s := sample_stack "app" in
    let parameters : gmap string string := {[ "Env" := "prod"; "Owner" := "ops" ]} in
    let create :=
      {| Cfn.cs_TemplateURL := Cfn.TemplateURL s; Cfn.cs_StackName := Cfn.Name s;
         Cfn.cs_Capabilities := Cfn.Capabilities s;
         Cfn.cs_Parameters := cfnParameters |} in
    let change :=
      {| Cfn.ccs_TemplateURL := Cfn.TemplateURL s; Cfn.ccs_StackName := Cfn.Name s;
         Cfn.ccs_ChangeSetName := Cfn.Name s +:+ "-" +:+ Cfn.now sample_cfn_world;
         Cfn.ccs_Parameters := cfnParameters |} in
    let wait := Cfn.iface.WaitUntilStackCreateComplete sample_cfn (Cfn.Name s) in
    length cfnParameters = size parameters /\
    (forall key value,
       {| Cfn.ParameterKey := key; Cfn.ParameterValue := value |} ∈ cfnParameters <->
       parameters !! key = Some value) /\
    Cfn.CreateStack s parameters sample_cfn_world =
      Cfn.Returned (match Cfn.iface.CreateStack sample_cfn create with
                    | Some e => Some e
                    | None => wait
                    end) w1 /\
    sent w1 = sent sample_cfn_world ++ Cfn.CallCreateStack create ::
                match Cfn.iface.CreateStack sample_cfn create with
                | Some _ => []
                | None => [Cfn.CallWaitUntilStackCreateComplete (Cfn.Name s)]
                end /\
    Cfn.CreateChangeSet s parameters sample_cfn_world =
      Cfn.Returned (match Cfn.iface.CreateChangeSet sample_cfn change with
                    | Some e => Some e
                    | None => wait
                    end) w2 /\
    sent w2 = sent sample_cfn_world ++ Cfn.CallCreateChangeSet change ::
                match Cfn.iface.CreateChangeSet sample_cfn change with
                | Some _ => []
                | None => [Cfn.CallWaitUntilStackCreateComplete (Cfn.Name s)]
                end.
Proof.
  apply (CreateStack_sends_every_parameter (sample_stack "app") sample_cfn
           {[ "Env" := "prod"; "Owner" := "ops" ]} sample_cfn_world).
  reflexivity.
Defined.

(** ** The file system: directories stay *)

Section FSDirs.

Lemma is_dir_set_entry (r w r' w' : bool) (es : list (string * FS.node))
    (name : string) (x' : FS.node) (q : list string) :
  (forall q', match FS.get_entry name es with
              | Some x => is_dir x q' = true -> is_dir x' q' = true
              | None => True
              end) ->
  is_dir (FS.Dir r w es) q = true ->
  is_dir (FS.Dir r' w' (FS.set_entry name x' es)) q = true.
Proof.
  intros Hsub. destruct q as [|name' q']; [done|].
  unfold is_dir. simpl.
  destruct (String.eqb_spec name name') as [<-|Hne].
  - rewrite get_set_entry_eq. specialize (Hsub q').
    destruct (FS.get_entry name es) as [x|]; [exact Hsub|done].
  - by rewrite get_set_entry_ne.
Qed.

Lemma create_keeps_dirs (p : list string) :
  forall (n n' : FS.node) (q : list string),
    FS.create n p = inr n' -> is_dir n q = true -> is_dir n' q = true.
Proof.
  induction p as [|name p IH]; intros n n' q Hc Hq.
  - destruct n as [r w d|r w es]; simpl in Hc; [|done].
    destruct q; by unfold is_dir in Hq.
  - destruct n as [r w d|r w es]; simpl in Hc; [done|].
    destruct (FS.get_entry name es) as [x|] eqn:Hx.
    + destruct (FS.create x p) as [e|x'] eqn:Hcx; [done|]. injection Hc as <-.
      eapply is_dir_set_entry; [|exact Hq].
      intros q'. rewrite Hx. by apply IH.
    + destruct p; [|done]. destruct w; [|done]. injection Hc as <-.
      eapply is_dir_set_entry; [|exact Hq]. intros q'. by rewrite Hx.
Qed.

Lemma mkdir_keeps_dirs (p : list string) :
  forall (n n' : FS.node) (q : list string),
    FS.mkdir n p = inr n' -> is_dir n q = true -> is_dir n' q = true.
Proof.
  induction p as [|name p IH]; intros n n' q Hm Hq; [done|].
  destruct n as [r w d|r w es]; simpl in Hm; [done|].
  destruct (FS.get_entry name es) as [x|] eqn:Hx; destruct p as [|name' p]; try done.
  - destruct (FS.mkdir x (name' :: p)) as [e|x'] eqn:Hmx; [done|]. injection Hm as <-.
    eapply is_dir_set_entry; [|exact Hq].
    intros q'. rewrite Hx. by apply IH.
  - destruct w; [|done]. injection Hm as <-.
    eapply is_dir_set_entry; [|exact Hq]. intros q'. by rewrite Hx.
Qed.

Lemma mkdir_makes_dir (p : list string) :
  forall (n n' : FS.node), FS.mkdir n p = inr n' -> is_dir n' p = true.
Proof.
  induction p as [|name p IH]; intros n n' Hm; [done|].
  destruct n as [r w d|r w es]; simpl in Hm; [done|].
  destruct (FS.get_entry name es) as [x|] eqn:Hx; destruct p as [|name' p]; try done.
  - destruct (FS.mkdir x (name' :: p)) as [e|x'] eqn:Hmx; [done|]. injection Hm as <-.
    unfold is_dir. simpl. rewrite get_set_entry_eq. by apply (IH x).
  - destruct w; [|done]. injection Hm as <-.
    unfold is_dir. simpl. by rewrite get_set_entry_eq.
Qed.

Lemma mkdirAll_chain_keeps_dirs (cwd : list string) (chain : list string) :
  forall (n n' : FS.node) (q : list string),
    FS.mkdirAll_chain n cwd chain = inr n' -> is_dir n q = true -> is_dir n' q = true.
Proof.
  induction chain as [|path parents IH]; intros n n' q Hm Hq; simpl in Hm.
  - by injection Hm as <-.
  - destruct (FS.at_path cwd path (FS.lookup n)) as [errno|[r w d|r w es]];
      [|done|by injection Hm as <-].
    destruct (FS.mkdirAll_chain n cwd parents) as [e|n1] eqn:Hparents; [done|].
    pose proof (IH n n1 q Hparents Hq) as Hq1.
    unfold FS.at_path in Hm. destruct (FS.locate cwd path) as [e|at_]; [done|].
    destruct (FS.mkdir n1 at_) as [errno'|n2] eqn:Hmk.
    + destruct (FS.lookup n1 at_) as [?|[? ? ?|? ? ?]]; [done..|]. by injection Hm as <-.
    + injection Hm as <-. by eapply mkdir_keeps_dirs.
Qed.

Lemma MkdirAll_makes_dir (cwd : list string) (path : string) (n n' : FS.node) :
  FS.MkdirAll n cwd path = inr n' -> is_dir n' (FS.resolve cwd path) = true.
Proof.
  unfold FS.MkdirAll, FS.ancestors. simpl. unfold FS.at_path, FS.locate.
  destruct (String.eqb path "").
  { by destruct (FS.mkdirAll_chain n cwd _). }
  unfold is_dir.
  destruct (FS.lookup n (FS.resolve cwd path)) as [errno|[r w d|r w es]] eqn:Hl;
    [|done|intros [= <-]; by rewrite Hl].
  destruct (FS.mkdirAll_chain n cwd _) as [e|n1]; [done|].
  destruct (FS.mkdir n1 (FS.resolve cwd path)) as [errno'|n2] eqn:Hmk.
  - destruct (FS.lookup n1 (FS.resolve cwd path)) as [?|[? ? ?|? ? ?]] eqn:Hl1; [done..|].
    intros [= <-]. by rewrite Hl1.
  - intros [= <-]. by apply (mkdir_makes_dir _ n1).
Qed.

Lemma write_keeps_dirs (p : list string) :
  forall (n : FS.node) (data : string) (q : list string),
    is_dir n q = true -> is_dir (FS.write n p data) q = true.
Proof.
  induction p as [|name p IH]; intros n data q Hq.
  - destruct n as [r w d|r w es]; simpl; [|done].
    destruct q; by unfold is_dir in Hq.
  - destruct n as [r w d|r w es]; simpl; [done|].
    destruct (FS.get_entry name es) as [x|] eqn:Hx; [|done].
    eapply is_dir_set_entry; [|exact Hq].
    intros q'. rewrite Hx. by apply IH.
Qed.

(** [os.Create] of an entry of a directory that is there does not fail for
    a missing directory. *)
Lemma create_in_dir (p : list string) (name : string) :
  forall (n : FS.node) (errno : Errno),
    is_dir n p = true -> FS.create n (p ++ [name]) = inl errno ->
    errno = EACCES \/ errno = EISDIR.
Proof.
  induction p as [|x p IH]; intros n errno Hd Hc.
  - destruct n as [r w d|r w es]; [done|]. simpl in Hc.
    destruct (FS.get_entry name es) as [y|].
    + destruct y as [r' w' d'|r' w' es']; simpl in Hc.
      * destruct (r' && w'); [done|]. injection Hc as <-. by left.
      * injection Hc as <-. by right.
    + destruct w; [done|]. injection Hc as <-. by left.
  - destruct n as [r w d|r w es]; [done|]. unfold is_dir in Hd. simpl in *.
    destruct (FS.get_entry x es) as [y|]; [|done].
    destruct (FS.create y (p ++ [name])) as [e|y'] eqn:Hcy; [|done].
    injection Hc as <-. by apply (IH y).
Qed.

End FSDirs.

(** ** Keys with a directory part *)

Section Nested.

Lemma last_index_none (sep : ascii) (s : string) :
  contains sep s = false -> GoString.last_index sep s = None.
Proof.
  induction s as [|c s IH]; [done|]. simpl. intros Hc.
  apply orb_false_iff in Hc as [Hc Hs]. by rewrite (IH Hs), Hc.
Qed.

Lemma last_index_nested (sep : ascii) (prefix last : string) :
  contains sep last = false ->
  GoString.last_index sep (prefix +:+ String sep last) = Some (String.length prefix).
Proof.
  intros Hlast. induction prefix as [|c prefix IH].
  - change ("" +:+ String sep last) with (String sep last). simpl.
    by rewrite last_index_none, Ascii.eqb_refl.
  - rewrite string_app_cons. simpl. by rewrite IH.
Qed.

Lemma slice_to_app (p s : string) :
  GoString.slice_to (p +:+ s) (String.length p) = Some p.
Proof.
  induction p as [|c p IH]; [by destruct s|].
  rewrite string_app_cons. simpl. by rewrite IH.
Qed.

Lemma resolve_entry (cwd : list string) (dir name : string) :
  dir <> "" -> entry_name name ->
  FS.resolve cwd (dir +:+ "/" +:+ name) = FS.resolve cwd dir ++ [name].
Proof.
  intros Hne Hname. unfold FS.resolve.
  rewrite is_rooted_app by done.
  change (dir +:+ "/" +:+ name) with (dir +:+ String Path.slash name).
  rewrite split_app, (split_no_sep _ name) by apply Hname.
  rewrite app_assoc, clean_elems_app, clean_elems_entry by done.
  done.
Qed.

Lemma Join_nested (baseDir prefix last : string) :
  baseDir <> "" -> entry_name last ->
  Path.Join [baseDir; prefix] <> "." -> Path.Join [baseDir; prefix] <> "/" ->
  Path.Join [baseDir; prefix +:+ "/" +:+ last] =
  Path.Join [baseDir; prefix] +:+ "/" +:+ last.
Proof.
  intros Hne Hlast Hdot Hroot. rewrite !Join_pair in * by done.
  replace (baseDir +:+ "/" +:+ prefix +:+ "/" +:+ last)
    with ((baseDir +:+ "/" +:+ prefix) +:+ "/" +:+ last)
    by (by rewrite !string_app_assoc).
  apply Clean_entry; try done. by destruct baseDir.
Qed.

Lemma clean_elems_not_empty (rooted : bool) (elems out : list string) :
  Forall (fun e => e <> "") out ->
  Forall (fun e => e <> "") (Path.clean_elems rooted out elems).
Proof.
  revert out. induction elems as [|e elems IH]; intros out Hout; simpl; [done|].
  destruct (String.eqb_spec e ""); [by apply IH|].
  destruct (String.eqb e "."); [by apply IH|].
  destruct (String.eqb e "..").
  - destruct out as [|top out'].
    + destruct rooted; apply IH; [done|by constructor].
    + destruct (String.eqb top ".."); apply IH.
      * by constructor.
      * by apply Forall_cons in Hout as [_ Hout].
  - apply IH. by constructor.
Qed.

Lemma join_not_empty (l : list string) :
  l <> [] -> Forall (fun e => e <> "") l -> GoString.join l "/" <> "".
Proof.
  destruct l as [|x l]; [done|]. intros _ Hall.
  apply Forall_cons in Hall as [Hx _]. unfold GoString.join.
  destruct x as [|c x]; [done|]. by destruct l.
Qed.

Lemma Clean_not_empty (p : string) : Path.Clean p <> "".
Proof.
  unfold Path.Clean. destruct (String.eqb p ""); [done|].
  destruct (Path.is_rooted p); [done|].
  set (out := Path.clean_elems false [] (GoString.split Path.slash p)).
  destruct (Nat.eqb_spec (length (rev out)) 0) as [|Hlen]; [done|].
  apply join_not_empty.
  - intros Hnil. by rewrite Hnil in Hlen.
  - apply Forall_rev. by apply clean_elems_not_empty.
Qed.

Lemma Join_not_empty (dir name : string) : dir +:+ "/" +:+ name <> "".
Proof. by destruct dir. Qed.

End Nested.

Section Housed.

Variables (api : S3.API) (bucket baseDir excludePatten : string).
Variable keys : list string.
Variable cwd0 : list string.

Hypothesis baseDir_given : baseDir <> "".
Hypothesis keys_in_directories :
  Forall (in_directory baseDir) (kept_keys excludePatten keys).

Lemma has_directory_stays (gs : list Goroutine) (w w' : World) :
  cwd w' = cwd w ->
  (forall q, is_dir (fs w) q = true -> is_dir (fs w') q = true) ->
  Forall (has_directory baseDir w) gs -> Forall (has_directory baseDir w') gs.
Proof.
  intros Hcwd Hdirs Hall. eapply Forall_impl; [exact Hall|].
  intros [key|key f]; [|done]. simpl. intros Hdir prefix last Hkey Hlast.
  unfold dir_at. rewrite Hcwd. apply Hdirs. by apply (Hdir prefix last).
Qed.

Lemma housed_iteration (key : string) (rest : list string) (gs : list Goroutine)
    (w : World) (go : bool) (w' : World) :
  housed bucket baseDir excludePatten keys cwd0 (key :: rest) gs w ->
  iteration_does baseDir excludePatten key w go w' ->
  housed bucket baseDir excludePatten keys cwd0 rest
    (gs ++ (if go then [saveObject_start key] else [])) w'.
Proof.
  intros (Hloc & Hcwd & Hgs & Htr) Hdoes.
  split; [by eapply located_iteration|].
  assert (Hin : kept excludePatten key = true -> in_directory baseDir key).
  { intros Hk. rewrite Forall_forall in keys_in_directories.
    apply keys_in_directories, list_elem_of_In, filter_In. split; [|done].
    destruct Hloc as (Hsub & _). apply Hsub. by left. }
  inversion Hdoes as [Hk|Hk Hi|i pre n Hk Hi Hp Hm|i pre errno Hk Hi Hp Hm]; subst.
  - rewrite app_nil_r. by repeat split.
  - destruct (Hin Hk) as (prefix & last & -> & Hlast & _).
    change (prefix +:+ "/" +:+ last) with (prefix +:+ String Path.slash last) in Hi.
    rewrite last_index_nested in Hi by apply Hlast. done.
  - split; [done|]. split; [|by constructor].
    apply Forall_app. split.
    + apply (has_directory_stays gs w); [done| |done].
      intros q. simpl. by apply mkdirAll_chain_keeps_dirs with (cwd := cwd w)
        (chain := FS.ancestors (Path.Join [baseDir; pre])).
    + constructor; [|done]. simpl. intros prefix last -> Hlast.
      change (prefix +:+ "/" +:+ last) with (prefix +:+ String Path.slash last) in Hi.
      rewrite last_index_nested in Hi by apply Hlast. injection Hi as <-.
      change (prefix +:+ String Path.slash last) with (prefix +:+ "/" +:+ last) in Hp.
      rewrite slice_to_app in Hp. injection Hp as <-.
      unfold dir_at. simpl. by eapply MkdirAll_makes_dir.
  - rewrite app_nil_r. split; [done|]. split; [done|]. by constructor.
Qed.

Lemma housed_step (pend : list string) (gs1 : list Goroutine) (g : Goroutine)
    (gs2 : list Goroutine) (w : World) (r : option Goroutine) (w' : World) :
  housed bucket baseDir excludePatten keys cwd0 pend (gs1 ++ g :: gs2) w ->
  step_does api bucket baseDir w g r w' ->
  housed bucket baseDir excludePatten keys cwd0 pend (gs1 ++ option_list r ++ gs2) w'.
Proof.
  intros (Hloc & Hcwd & Hgs & Htr) Hdoes.
  split; [by eapply located_step|].
  destruct Hloc as (_ & _ & Hlgs). apply Forall_app in Hlgs as [_ Hlgs].
  apply Forall_cons in Hlgs as [Hg _].
  apply Forall_app in Hgs as [Hgs1 Hgs2]. apply Forall_cons in Hgs2 as [Hdir Hgs2].
  inversion Hdoes as [key n fileName Hc|key errno fileName e Hc
                     |key fileName body Hb|key fileName written e Hb]; subst; simpl.
  - split; [done|]. split; [|by constructor].
    apply at_path_inr in Hc.
    assert (Hdirs : forall q, is_dir (fs w) q = true -> is_dir n q = true)
      by (intros q; by apply create_keeps_dirs with (p := FS.resolve (cwd w) fileName)).
    apply Forall_app. split; [by apply (has_directory_stays gs1 w)|].
    constructor; [done|]. by apply (has_directory_stays gs2 w).
  - split; [done|]. split; [apply Forall_app; by split|].
    constructor; [|done]. unfold create_found_directory. simpl.
    simpl in Hg. rewrite Forall_forall in keys_in_directories.
    destruct (keys_in_directories key) as (prefix & last & -> & Hlast & Hdot & Hroot);
      [by apply list_elem_of_In|].
    specialize (Hdir prefix last eq_refl Hlast).
    assert (Hname : fileName = Path.Join [baseDir; prefix] +:+ "/" +:+ last)
      by (by apply Join_nested).
    unfold FS.at_path, FS.locate in Hc. fold fileName in Hc. rewrite Hname in Hc.
    destruct (String.eqb_spec (Path.Join [baseDir; prefix] +:+ "/" +:+ last) "")
      as [Hempty|_]; [by apply Join_not_empty in Hempty|].
    rewrite resolve_entry in Hc;
      [|rewrite Join_pair by done; apply Clean_not_empty|done].
    apply create_in_dir in Hc; [|exact Hdir].
    unfold e. destruct Hc as [-> | ->]; [by left|by right].
  - split; [done|]. split; [|by repeat constructor].
    apply Forall_app. split.
    + apply (has_directory_stays gs1 w); [done| |done].
      intros q. simpl. apply write_keeps_dirs.
    + apply (has_directory_stays gs2 w); [done| |done].
      intros q. simpl. apply write_keeps_dirs.
  - split; [done|]. split; [|by repeat constructor].
    apply Forall_app. split.
    + apply (has_directory_stays gs1 w); [done| |done].
      intros q. simpl. apply write_keeps_dirs.
    + apply (has_directory_stays gs2 w); [done| |done].
      intros q. simpl. apply write_keeps_dirs.
Qed.

End Housed.

(** X23. [mkDirIfNeeded] makes what [saveObject] needs: when every kept key
    has a directory part, under every schedule of the goroutines no
    [os.Create] of the run fails for a missing directory. The directory
    made in the loop is still there when the goroutine of the key creates
    its file, whatever the other goroutines did in between; an [os.Create]
    can then fail only for want of permission or because the name is that
    of a directory. *)
Theorem made_directories_are_there (sched : list nat)
    (baseDir bucket region excludePatten : string) (w : World) (api : S3.API)
    (keys : list string) :
  trace w = [] ->
  new_session w region = inr api ->
  S3.ListObjectsV2 api bucket = inr keys ->
  Forall (fun key => is_Some (Regexp.Match excludePatten key)) keys ->
  baseDir <> "" ->
  Forall (in_directory baseDir) (kept_keys excludePatten keys) ->
  exists w',
    DownloadBucket sched baseDir bucket region excludePatten w = Returned None w' /\
    forall name e,
      In {| call := CallCreate name; result := Some e |} (trace w') ->
      e = PathError "open" name EACCES \/ e = PathError "open" name EISDIR.
Proof.
  intros Htrace Hsess Hlist Hmod Hbase Hkeys. unfold DownloadBucket.
  erewrite bind_returned; [|unfold session_Must; by rewrite Hsess].
  erewrite bind_returned; [|unfold s3_ListObjectsV2; by rewrite Hlist].
  cbn beta iota.
  destruct (run_threads_invariant api bucket baseDir excludePatten
              (housed bucket baseDir excludePatten keys (cwd w)))
    with (sched := sched) (keys := keys)
         (w := add_event {| call := CallListObjectsV2 bucket; result := None |} w)
    as (w' & Hrun & Hhoused).
  - intros key rest gs w1 ((Hsub & _) & _).
    rewrite Forall_forall in Hmod. apply Hmod, list_elem_of_In, Hsub. by left.
  - intros key rest gs w1 go w2 Hd Hdoes. by eapply housed_iteration.
  - intros pend gs1 g gs2 w1 r w2 Hd Hdoes. by eapply housed_step.
  - split; [|by repeat split; simpl; rewrite ?Htrace; repeat constructor].
    unfold located. simpl. rewrite Htrace. repeat split; auto.
    by repeat constructor.
  - exists w'. split; [by erewrite bind_returned by exact Hrun|].
    destruct Hhoused as (_ & _ & _ & Htr). intros name e Hin.
    rewrite Forall_forall in Htr. apply list_elem_of_In in Hin.
    exact (Htr _ Hin).
Qed.

Lemma made_directories_are_there_witness :
  exists w',
    DownloadBucket [0; 0; 1; 0; 1] "out" "bucket" "region" "^a|^b" sample_world =
      Returned None w' /\
    forall name e,
      In {| call := CallCreate name; result := Some e |} (trace w') ->
      e = PathError "open" name EACCES \/ e = PathError "open" name EISDIR.
Proof.
  apply (made_directories_are_there [0; 0; 1; 0; 1] "out" "bucket" "region" "^a|^b"
           sample_world sample_store ["a.txt"; "b.tmp"; "c/d.tmp"]); try reflexivity.
  - repeat constructor; by eexists.
  - discriminate.
  - repeat constructor. exists "c", "d.tmp". by repeat split.
Defined.
